(** * TeleComfy: admission controller, workflow templating and protocol client

    A shallow embedding of three pieces of the TeleComfy sources and the
    properties its specification states about them:

    - [JobsQueue]  : [app/infra/jobs_queue.py], the admission and scheduling
                     controller (per-topic worker pools, global semaphore,
                     per-user pending counters, cancellation registry);
    - [Workflow]   : [ComfyClient.prepare_workflow] of [app/comfy/client.py],
                     the templating engine with dynamic pruning, and the
                     six-pass render of the specification beside it;
    - [Protocol]   : [ComfyClient.submit_and_wait] of [app/comfy/client.py],
                     the await loop over the event stream and the timings.

    The modules [JobsQueueProps], [ProtocolProps] and [WorkflowProps] hold
    the proofs.  Further modules follow them: laws of the controller
    ([JobsQueueLaws], [JobsQueueSched], [JobsQueueOrder], [JobsQueueDrain],
    [RegistryProps]) and of its caller in the bot ([Admission]), the
    collection of the artifacts of a run ([Media], [MediaProps],
    [MediaReads], [ViewUrlProps]), the await loop ([AwaitLoopProps]), the
    render ([RenderProps]) and the address of the event stream ([WsUrl]).

    Python integers are unbounded, so they are [Z].  Dictionaries are
    finite maps ([gmap]); the job objects shared between a queue, the
    registry and a worker live in an explicit object store.  A call that
    can raise returns an [outcome] or an [option]. *)

From Stdlib Require Import ZArith Lia Bool Ascii.
From stdpp Require Import base option list gmap strings.

Local Open Scope Z_scope.

(** Outcome of a Python call: a returned value or a raised exception. *)
Inductive outcome (A : Type) : Type :=
  | Returned (a : A)
  | Raised (msg : string).
Arguments Returned {A} a.
Arguments Raised {A} msg.

(* ===================================================================== *)
(** ** The admission and scheduling controller                           *)
(* ===================================================================== *)

Module JobsQueue.

(** References to job objects.  The same [GenerateJob] object is reachable
    from the registry, from a topic queue and from the worker that holds
    it, so the objects are kept in a store and passed around by reference. *)
Definition ref := nat.

(** [GenerateJob] of [app/domain/models.py]; the payload fields the
    controller never reads (params, image bytes, timestamps) are left out. *)
Record GenerateJob : Type := mkJob {
  chat_id : Z;
  thread_id : Z;
  message_id : Z;
  prompt : string;
  user_id : Z;
  topic_alias : string;
  canceled : bool;
  canceled_by_admin : bool;
  started : bool
}.

(** Where a worker task of [_worker_loop] is suspended. *)
Inductive task : Type :=
  | Waiting                (* in [await q.get()] *)
  | Acquiring (j : ref)    (* in [async with self._global_sema], job in hand *)
  | Processing (j : ref)   (* in [await processor(job)] *)
  | Stopped.               (* left the loop *)

(** The attributes of a [JobsQueue] instance, plus the object store. *)
Record state : Type := mkState {
  queues : gmap string (list (option ref));   (* None is the poison pill *)
  workers : gmap string (list task);
  global_sema : Z;                            (* free permits *)
  per_topic_limit : Z;
  processor : bool;                           (* is a processor set? *)
  closed : bool;
  active_per_topic : gmap string Z;
  active_global : Z;
  max_workers : Z;
  registry : gmap Z ref;
  pending_by_user : gmap Z Z;
  store : gmap ref GenerateJob;
  next_ref : ref
}.

Definition set_queues (f : gmap string (list (option ref)) -> gmap string (list (option ref)))
    (s : state) : state :=
  mkState (f (queues s)) (workers s) (global_sema s) (per_topic_limit s) (processor s)
    (closed s) (active_per_topic s) (active_global s) (max_workers s) (registry s)
    (pending_by_user s) (store s) (next_ref s).

Definition set_workers (f : gmap string (list task) -> gmap string (list task))
    (s : state) : state :=
  mkState (queues s) (f (workers s)) (global_sema s) (per_topic_limit s) (processor s)
    (closed s) (active_per_topic s) (active_global s) (max_workers s) (registry s)
    (pending_by_user s) (store s) (next_ref s).

Definition set_sema (f : Z -> Z) (s : state) : state :=
  mkState (queues s) (workers s) (f (global_sema s)) (per_topic_limit s) (processor s)
    (closed s) (active_per_topic s) (active_global s) (max_workers s) (registry s)
    (pending_by_user s) (store s) (next_ref s).

Definition set_processor_flag (b : bool) (s : state) : state :=
  mkState (queues s) (workers s) (global_sema s) (per_topic_limit s) b
    (closed s) (active_per_topic s) (active_global s) (max_workers s) (registry s)
    (pending_by_user s) (store s) (next_ref s).

Definition set_closed (b : bool) (s : state) : state :=
  mkState (queues s) (workers s) (global_sema s) (per_topic_limit s) (processor s)
    b (active_per_topic s) (active_global s) (max_workers s) (registry s)
    (pending_by_user s) (store s) (next_ref s).

Definition set_active (f : gmap string Z -> gmap string Z) (g : Z -> Z)
    (s : state) : state :=
  mkState (queues s) (workers s) (global_sema s) (per_topic_limit s) (processor s)
    (closed s) (f (active_per_topic s)) (g (active_global s)) (max_workers s) (registry s)
    (pending_by_user s) (store s) (next_ref s).

Definition set_registry (f : gmap Z ref -> gmap Z ref) (s : state) : state :=
  mkState (queues s) (workers s) (global_sema s) (per_topic_limit s) (processor s)
    (closed s) (active_per_topic s) (active_global s) (max_workers s) (f (registry s))
    (pending_by_user s) (store s) (next_ref s).

Definition set_pending (f : gmap Z Z -> gmap Z Z) (s : state) : state :=
  mkState (queues s) (workers s) (global_sema s) (per_topic_limit s) (processor s)
    (closed s) (active_per_topic s) (active_global s) (max_workers s) (registry s)
    (f (pending_by_user s)) (store s) (next_ref s).

Definition set_store (f : gmap ref GenerateJob -> gmap ref GenerateJob)
    (s : state) : state :=
  mkState (queues s) (workers s) (global_sema s) (per_topic_limit s) (processor s)
    (closed s) (active_per_topic s) (active_global s) (max_workers s) (registry s)
    (pending_by_user s) (f (store s)) (next_ref s).

(** The caller builds a [GenerateJob] and hands the object over; from then
    on the controller holds a reference to it. *)
Definition new_object (job : GenerateJob) (s : state) : ref * state :=
  (next_ref s,
   mkState (queues s) (workers s) (global_sema s) (per_topic_limit s) (processor s)
     (closed s) (active_per_topic s) (active_global s) (max_workers s) (registry s)
     (pending_by_user s) (<[next_ref s := job]> (store s)) (S (next_ref s))).

(** [JobsQueue.__init__].  [asyncio.Semaphore] refuses a negative value. *)
Definition __init__ (max_workers per_topic_limit : Z) : outcome state :=
  if max_workers <? 0 then Raised "Semaphore initial value must be >= 0"
  else Returned
    (mkState ∅ ∅ max_workers (Z.max 1 per_topic_limit) false false ∅ 0 max_workers ∅ ∅ ∅ O).

Definition set_processor (s : state) : state := set_processor_flag true s.

(** [_ensure_workers]: the pool of a topic is created on first use, with
    one task per unit of [_per_topic_limit]. *)
Definition _ensure_workers (alias : string) (s : state) : state :=
  match workers s !! alias with
  | Some (_ :: _) => s
  | _ =>
      let s1 :=
        match queues s !! alias with
        | Some _ => s
        | None => set_queues (insert alias []) s
        end in
      set_workers (insert alias (replicate (Z.to_nat (per_topic_limit s)) Waiting)) s1
  end.

Definition _inc_pending (user_id : Z) (p : gmap Z Z) : gmap Z Z :=
  if user_id <=? 0 then p
  else <[user_id := default 0 (p !! user_id) + 1]> p.

Definition _dec_pending (user_id : Z) (p : gmap Z Z) : gmap Z Z :=
  if user_id <=? 0 then p
  else
    let cur := default 0 (p !! user_id) in
    if cur <=? 1 then delete user_id p
    else <[user_id := cur - 1]> p.

Definition pending_count_by_user (s : state) (user_id : Z) : Z :=
  default 0 (pending_by_user s !! user_id).

(** [if job.user_id: self._inc_pending(job.user_id)] and its twin. *)
Definition inc_pending_of (user_id : Z) (s : state) : state :=
  if user_id =? 0 then s else set_pending (_inc_pending user_id) s.

Definition dec_pending_of (user_id : Z) (s : state) : state :=
  if user_id =? 0 then s else set_pending (_dec_pending user_id) s.

(** [await self._queues[alias].put(job)]; the queues are unbounded, so the
    call never suspends.  A missing queue is a [KeyError]. *)
Definition put (alias : string) (item : option ref) (s : state) : option state :=
  match queues s !! alias with
  | Some q => Some (set_queues (insert alias (q ++ [item])) s)
  | None => None
  end.

(** Python truthiness of [per_user_limit and per_user_limit > 0]. *)
Definition limit_enabled (per_user_limit : option Z) : option Z :=
  match per_user_limit with
  | Some l => if 0 <? l then Some l else None
  | None => None
  end.

(** *** The calls of the public interface

    Each call runs without yielding to the event loop: [self._lock] is free
    whenever it is taken (no holder suspends inside it) and [put] returns at
    once.  One call is therefore one atomic step on the state. *)

Definition enqueue (alias : string) (job : GenerateJob) (s : state)
    : outcome unit * state :=
  if closed s then (Raised "JobsQueue is closed", s)
  else if negb (processor s) then (Raised "JobsQueue processor not set", s)
  else
    let s1 := _ensure_workers alias s in
    let '(r, s2) := new_object job s1 in
    let s3 := set_registry (insert (message_id job) r) s2 in
    let s4 := inc_pending_of (user_id job) s3 in
    match put alias (Some r) s4 with
    | Some s5 => (Returned tt, s5)
    | None => (Raised "KeyError", s4)
    end.

Definition enqueue_limited (alias : string) (job : GenerateJob)
    (per_user_limit : option Z) (s : state) : outcome bool * state :=
  if closed s || negb (processor s) then (Returned false, s)
  else
    let s1 := _ensure_workers alias s in
    let over :=
      match limit_enabled per_user_limit with
      | Some l =>
          if user_id job =? 0 then false
          else l <=? pending_count_by_user s1 (user_id job)
      | None => false
      end in
    if over then (Returned false, s1)
    else
      let '(r, s2) := new_object job s1 in
      let s3 := set_registry (insert (message_id job) r) s2 in
      let s4 := inc_pending_of (user_id job) s3 in
      match put alias (Some r) s4 with
      | Some s5 => (Returned true, s5)
      | None => (Raised "KeyError", s4)
      end.

Definition can_enqueue (user_id : Z) (per_user_limit : option Z) (s : state) : bool :=
  if user_id <=? 0 then true
  else
    match limit_enabled per_user_limit with
    | None => true
    | Some l => pending_count_by_user s user_id <? l
    end.

Definition reserve_user_slot (user_id : Z) (per_user_limit : option Z) (s : state)
    : bool * state :=
  if user_id <=? 0 then (false, s)
  else
    match limit_enabled per_user_limit with
    | None => (false, s)
    | Some l =>
        if l <=? pending_count_by_user s user_id then (false, s)
        else (true, set_pending (_inc_pending user_id) s)
    end.

Definition release_user_slot (user_id : Z) (s : state) : state :=
  if user_id <=? 0 then s else set_pending (_dec_pending user_id) s.

Definition enqueue_reserved (alias : string) (job : GenerateJob) (reserved : bool)
    (s : state) : outcome bool * state :=
  if closed s || negb (processor s) then (Returned false, s)
  else
    let s1 := _ensure_workers alias s in
    let '(r, s2) := new_object job s1 in
    let s3 := set_registry (insert (message_id job) r) s2 in
    let s4 := if reserved then s3 else inc_pending_of (user_id job) s3 in
    match put alias (Some r) s4 with
    | Some s5 => (Returned true, s5)
    | None => (Raised "KeyError", s4)
    end.

Definition will_queue (alias : string) (s : state) : outcome bool * state :=
  let s1 := _ensure_workers alias s in
  match queues s1 !! alias with
  | None => (Raised "KeyError", s1)
  | Some q =>
      if 0 <? Z.of_nat (length q) then (Returned true, s1)
      else if per_topic_limit s1 <=? default 0 (active_per_topic s1 !! alias)
      then (Returned true, s1)
      else if Z.max 0 (max_workers s1 - active_global s1) <=? 0 then (Returned true, s1)
      else (Returned false, s1)
  end.

Definition get_job (message_id : Z) (s : state) : option GenerateJob :=
  r ← registry s !! message_id; store s !! r.

Definition mark_canceled (by_admin : bool) (j : GenerateJob) : GenerateJob :=
  mkJob (chat_id j) (thread_id j) (message_id j) (prompt j) (user_id j)
    (topic_alias j) true by_admin (started j).

Definition mark_started (j : GenerateJob) : GenerateJob :=
  mkJob (chat_id j) (thread_id j) (message_id j) (prompt j) (user_id j)
    (topic_alias j) (canceled j) (canceled_by_admin j) true.

Definition cancel_job (message_id : Z) (by_admin : bool) (s : state) : bool * state :=
  match registry s !! message_id with
  | None => (false, s)
  | Some r =>
      match store s !! r with
      | None => (false, s)
      | Some job =>
          if started job then (false, s)
          else if canceled job then (false, s)
          else
            (true,
             dec_pending_of (user_id job)
               (set_store (insert r (mark_canceled by_admin job)) s))
      end
  end.

(** *** The worker loop

    One step per stretch of [_worker_loop] between two suspension points.
    [None] means that the step is not enabled in the given state.  Taking
    the global permit is a step of its own; when a permit is free asyncio
    goes on without yielding, which the model covers as two steps in a row. *)

Definition task_at (alias : string) (i : nat) (s : state) : option task :=
  pool ← workers s !! alias; pool !! i.

Definition set_task (alias : string) (i : nat) (t : task) (s : state) : state :=
  set_workers (alter (fun pool => <[i := t]> pool) alias) s.

(** [job = await q.get()] returns, then the loop runs up to the next
    suspension: it leaves on a poison pill or a closed controller, drops a
    canceled job, and otherwise goes on to wait for a global permit. *)
Definition worker_get (alias : string) (i : nat) (s : state) : option state :=
  match task_at alias i s, queues s !! alias with
  | Some Waiting, Some (item :: rest) =>
      let s1 := set_queues (insert alias rest) s in
      match item with
      | None => Some (set_task alias i Stopped s1)
      | Some r =>
          if closed s1 then Some (set_task alias i Stopped s1)
          else
            match store s1 !! r with
            | None => None
            | Some job =>
                if canceled job
                then Some (set_registry (delete (message_id job)) s1)
                else Some (set_task alias i (Acquiring r) s1)
            end
      end
  | _, _ => None
  end.

(** The start transition: the permit is acquired, the requester's pending
    counter goes down, the job is marked started and handed to the
    processor. *)
Definition worker_start (alias : string) (i : nat) (s : state) : option state :=
  match task_at alias i s with
  | Some (Acquiring r) =>
      if 0 <? global_sema s then
        match store s !! r with
        | None => None
        | Some job =>
            let s1 := set_sema (fun v => v - 1) s in
            let s2 := dec_pending_of (user_id job) s1 in
            let s3 :=
              set_active
                (fun m => <[alias := default 0 (m !! alias) + 1]> m)
                (fun g => g + 1) s2 in
            let s4 := set_store (insert r (mark_started job)) s3 in
            Some (set_task alias i (Processing r) s4)
        end
      else None
  | _ => None
  end.

(** The processor returned or raised (the loop catches and logs): the
    active counters and the permit are given back and the job leaves the
    registry. *)
Definition worker_finish (alias : string) (i : nat) (s : state) : option state :=
  match task_at alias i s with
  | Some (Processing r) =>
      match store s !! r with
      | None => None
      | Some job =>
          let s1 :=
            set_active
              (fun m => <[alias := Z.max 0 (default 1 (m !! alias) - 1)]> m)
              (fun g => Z.max 0 (g - 1)) s in
          let s2 := set_sema (fun v => v + 1) s1 in
          let s3 := set_registry (delete (message_id job)) s2 in
          Some (set_task alias i Waiting s3)
      end
  | _ => None
  end.

(** [shutdown] up to its first [await]: the controller is closed and every
    queue receives one poison pill per worker (one if the pool is empty). *)
Definition poison (ws : gmap string (list task)) (alias : string)
    (q : list (option ref)) : list (option ref) :=
  let n :=
    match ws !! alias with
    | Some (w :: pool) => length (w :: pool)
    | _ => 1%nat
    end in
  q ++ replicate n None.

Definition shutdown_begin (s : state) : state :=
  set_queues (map_imap (fun alias q => Some (poison (workers s) alias q)))
    (set_closed true s).

Definition all_stopped (s : state) : bool :=
  forallb
    (fun '(_, pool) => forallb (fun t => match t with Stopped => true | _ => false end) pool)
    (map_to_list (workers s)).

(** [shutdown] after every worker task has been awaited. *)
Definition shutdown_end (s : state) : option state :=
  if closed s && all_stopped s then
    Some (set_pending (fun _ => ∅)
           (set_registry (fun _ => ∅)
             (set_workers (fun _ => ∅)
               (set_queues (fun _ => ∅) s))))
  else None.

(** *** Operations as data

    The calls a client of the controller can make, and the steps of its
    workers.  [exec] runs one of them; a raised exception leaves the state
    reached so far in place, as in Python. *)
Inductive op : Type :=
  | SetProcessor
  | Enqueue (alias : string) (job : GenerateJob)
  | EnqueueLimited (alias : string) (job : GenerateJob) (per_user_limit : option Z)
  | EnqueueReserved (alias : string) (job : GenerateJob) (reserved : bool)
  | ReserveUserSlot (user_id : Z) (per_user_limit : option Z)
  | ReleaseUserSlot (user_id : Z)
  | WillQueue (alias : string)
  | CancelJob (message_id : Z) (by_admin : bool)
  | WorkerGet (alias : string) (i : nat)
  | WorkerStart (alias : string) (i : nat)
  | WorkerFinish (alias : string) (i : nat)
  | ShutdownBegin
  | ShutdownEnd.

Definition exec (o : op) (s : state) : option state :=
  match o with
  | SetProcessor => Some (set_processor s)
  | Enqueue alias job => Some (snd (enqueue alias job s))
  | EnqueueLimited alias job l => Some (snd (enqueue_limited alias job l s))
  | EnqueueReserved alias job r => Some (snd (enqueue_reserved alias job r s))
  | ReserveUserSlot u l => Some (snd (reserve_user_slot u l s))
  | ReleaseUserSlot u => Some (release_user_slot u s)
  | WillQueue alias => Some (snd (will_queue alias s))
  | CancelJob m b => Some (snd (cancel_job m b s))
  | WorkerGet alias i => worker_get alias i s
  | WorkerStart alias i => worker_start alias i s
  | WorkerFinish alias i => worker_finish alias i s
  | ShutdownBegin => Some (shutdown_begin s)
  | ShutdownEnd => shutdown_end s
  end.

Fixpoint run (os : list op) (s : state) : option state :=
  match os with
  | [] => Some s
  | o :: os' =>
      match exec o s with
      | Some s' => run os' s'
      | None => None
      end
  end.

(** The states a controller built by [__init__] can be in. *)
Definition reachable (max_workers per_topic_limit : Z) (s : state) : Prop :=
  exists s0 os,
    __init__ max_workers per_topic_limit = Returned s0 /\ run os s0 = Some s.

End JobsQueue.

(* ===================================================================== *)
(** ** The workflow templating engine                                    *)
(* ===================================================================== *)

Module Workflow.

(** *** Python string methods used by [prepare_workflow]

    A [string] holds the UTF-8 bytes of a Python [str].  On text that is
    ASCII ([isascii]) the definitions below are [str.strip] and [str.lower]:
    the white space of that range is 9-13 and 28-32 and its upper-case
    letters are A-Z.  Beyond that range Python also strips Unicode white
    space (U+00A0, ...) and lower-cases other letters (U+212A, ...), which
    the definitions do not: a statement that depends on what [strip] or
    [lower] return carries the condition that the text is ASCII; one that
    holds whatever the two return does without it. *)

Definition isspace (c : ascii) : bool :=
  let n := nat_of_ascii c in
  ((9 <=? n)%nat && (n <=? 13)%nat) || ((28 <=? n)%nat && (n <=? 32)%nat).

Definition lower_ascii (c : ascii) : ascii :=
  let n := nat_of_ascii c in
  if ((65 <=? n)%nat && (n <=? 90)%nat) then ascii_of_nat (n + 32) else c.

Fixpoint lower (s : string) : string :=
  match s with
  | EmptyString => EmptyString
  | String c r => String (lower_ascii c) (lower r)
  end.

Fixpoint lstrip (s : string) : string :=
  match s with
  | EmptyString => EmptyString
  | String c r => if isspace c then lstrip r else s
  end.

Fixpoint rstrip (s : string) : string :=
  match s with
  | EmptyString => EmptyString
  | String c r =>
      match rstrip r with
      | EmptyString => if isspace c then EmptyString else String c EmptyString
      | r' => String c r'
      end
  end.

Definition strip (s : string) : string := rstrip (lstrip s).

(** [str.isascii] *)
Fixpoint isascii (s : string) : bool :=
  match s with
  | EmptyString => true
  | String c r => (nat_of_ascii c <? 128)%nat && isascii r
  end.

Definition startswith (s p : string) : bool := String.prefix p s.

(** [s.split(":", 1)[1]]: what follows the first colon. *)
Fixpoint after_colon (s : string) : option string :=
  match s with
  | EmptyString => None
  | String c r => if Ascii.eqb c ":"%char then Some r else after_colon r
  end.

(** *** JSON values, nodes and rules *)

#[warnings="-register-all"]
Inductive value : Type :=
  | VNone
  | VBool (b : bool)
  | VInt (z : Z)
  | VFloat (repr : string)
  | VStr (s : string)
  | VList (l : list value)
  | VDict (l : list (string * value)).

(** A node of the graph: a JSON object.  [inputs] is [None] when the key is
    missing or does not hold an object; every access of the code then fails
    or skips in the same way. *)
Record node : Type := mkNode {
  class_type : option value;
  inputs : option (gmap string value);
  other_keys : list (string * value)
}.

Abbreviation workflow := (gmap string node).

(** [NodeRule] and [NodesMap] of [app/domain/models.py]. *)
Record NodeRule : Type := mkRule {
  type : string;
  node_ids : list string;
  key : string;
  param : option string
}.

Record NodesMap : Type := mkNodesMap {
  nodes : list NodeRule;
  defaults : gmap string value
}.

(** [(rule.type or "").strip().lower()] *)
Definition rtype_of (rule : NodeRule) : string := lower (strip (type rule)).

(** The texts of a rule that the render strips or lower-cases, [type] and
    [param], are ASCII. *)
Definition ascii_rule (rule : NodeRule) : bool :=
  isascii (type rule) && from_option isascii true (param rule).

Definition ascii_rules (rules : list NodeRule) : bool := forallb ascii_rule rules.

(** [d.get(k, None)] followed by [is not None]. *)
Definition get_present (d : gmap string value) (k : string) : option value :=
  match d !! k with
  | Some VNone => None
  | o => o
  end.

(** *** The pseudo-random generator

    [random.randint] reads a global generator.  It is modelled as an oracle
    with a counter of the draws made so far. *)
Record rng : Type := mkRng {
  draws : nat;
  source : nat -> Z
}.

Definition randint (lo hi : Z) (g : rng) : Z * rng :=
  (lo + source g (draws g) `mod` (hi - lo + 1), mkRng (S (draws g)) (source g)).

(** [eff_params]: a copy of [params] with a resolved seed. *)
Definition effective_params (params : gmap string value) (g : rng)
    : gmap string value * rng :=
  match get_present params "seed" with
  | Some _ => (params, g)
  | None =>
      let '(seed, g') := randint 0 (2 ^ 48 - 1) g in
      (<["seed" := VInt seed]> params, g')
  end.

(** *** Writing into the graph *)

(** [wf[nid]["inputs"][key] = v]; [None] is a raised [KeyError] or
    [TypeError]. *)
Definition set_input (nid key : string) (v : value) (wf : workflow) : option workflow :=
  match wf !! nid with
  | None => None
  | Some nd =>
      match inputs nd with
      | None => None
      | Some ins =>
          Some (<[nid := mkNode (class_type nd) (Some (<[key := v]> ins)) (other_keys nd)]> wf)
      end
  end.

(** [for nid in rule.node_ids: wf[nid]["inputs"][rule.key] = v] *)
Fixpoint write_all (nids : list string) (key : string) (v : value) (wf : workflow)
    : option workflow :=
  match nids with
  | [] => Some wf
  | nid :: rest =>
      match set_input nid key v wf with
      | Some wf' => write_all rest key v wf'
      | None => None
      end
  end.

(** A loop over the rules whose body may raise. *)
Fixpoint for_rules (body : NodeRule -> workflow -> option workflow)
    (rules : list NodeRule) (wf : workflow) : option workflow :=
  match rules with
  | [] => Some wf
  | r :: rest =>
      match body r wf with
      | Some wf' => for_rules body rest wf'
      | None => None
      end
  end.

(** The test of [_unlink_and_remove_nodes]: a list whose first element is a
    string naming one of the removed ids. *)
Definition is_edge_into (remove_ids : list string) (v : value) : bool :=
  match v with
  | VList (VStr src :: _) => bool_decide (src ∈ remove_ids)
  | _ => false
  end.

Definition unlink_inputs (remove_ids : list string) (ins : gmap string value)
    : gmap string value :=
  omap (fun v => if is_edge_into remove_ids v then None else Some v) ins.

Definition unlink_node (remove_ids : list string) (nd : node) : node :=
  mkNode (class_type nd) (unlink_inputs remove_ids <$> inputs nd) (other_keys nd).

Definition _unlink_and_remove_nodes (wf : workflow) (remove_ids : list string) : workflow :=
  match remove_ids with
  | [] => wf
  | _ => foldr delete (unlink_node remove_ids <$> wf) remove_ids
  end.

(** *** The passes of [prepare_workflow] *)

(** The parameter a generic text rule reads, if any. *)
Definition param_key_of (rule : NodeRule) : option string :=
  let rtype := rtype_of rule in
  let pk :=
    if startswith rtype "text:" || startswith rtype "string:"
    then strip <$> after_colon rtype
    else if bool_decide (rtype = "text") || bool_decide (rtype = "string")
    then
      match param rule with
      | Some p => if bool_decide (p = "") then None else Some (strip p)
      | None => None
      end
    else None in
  match pk with
  | Some EmptyString => None
  | o => o
  end.

Definition write_if_present (rule : NodeRule) (ov : option value) (wf : workflow)
    : option workflow :=
  match ov with
  | Some v => write_all (node_ids rule) (key rule) v wf
  | None => Some wf
  end.

(** Body of the first loop: prompt, negative prompt and generic text. *)
Definition text_like_body (prompt : string) (eff : gmap string value)
    (rule : NodeRule) (wf : workflow) : option workflow :=
  let rtype := rtype_of rule in
  if bool_decide (rtype = "") then Some wf
  else if bool_decide (rtype = "prompt")
  then write_all (node_ids rule) (key rule) (VStr prompt) wf
  else if bool_decide (rtype = "negative_prompt")
  then write_if_present rule (get_present eff "negative_prompt") wf
  else
    match param_key_of rule with
    | Some pk => write_if_present rule (get_present eff pk) wf
    | None => Some wf
    end.

(** Body of the second loop: the single input image. *)
Definition input_image_body (eff : gmap string value)
    (rule : NodeRule) (wf : workflow) : option workflow :=
  if bool_decide (rtype_of rule = "input_image")
  then write_if_present rule (get_present eff "input_image") wf
  else Some wf.

(** [for idx, fname in enumerate(vals)] with its [try ... except: pass] *)
Fixpoint assign_images (nids : list string) (key : string) (vals : list value)
    (wf : workflow) : workflow :=
  match nids, vals with
  | nid :: nids', fname :: vals' =>
      assign_images nids' key vals' (default wf (set_input nid key fname wf))
  | _, _ => wf
  end.

(** Body of the third loop: several input images and pruning. *)
Definition input_images_body (eff : gmap string value)
    (rule : NodeRule) (wf : workflow) : option workflow :=
  if bool_decide (rtype_of rule = "input_images") then
    match get_present eff "input_images" with
    | Some (VList (v :: vs)) =>
        let vals := v :: vs in
        let wf1 := assign_images (node_ids rule) (key rule) vals wf in
        let used_count := Nat.min (length vals) (length (node_ids rule)) in
        if (used_count <? length (node_ids rule))%nat
        then Some (_unlink_and_remove_nodes wf1 (drop used_count (node_ids rule)))
        else Some wf1
    | _ => Some (_unlink_and_remove_nodes wf (node_ids rule))
    end
  else Some wf.

(** The kinds the last loop skips. *)
Definition skipped_by_scalar_loop (rtype : string) : bool :=
  bool_decide (rtype = "prompt") || bool_decide (rtype = "negative_prompt")
  || bool_decide (rtype = "input_image") || bool_decide (rtype = "input_images")
  || startswith rtype "text" || startswith rtype "string".

(** Body of the fourth loop: every other parameter, keyed by the lower-cased
    type. *)
Definition scalar_body (eff : gmap string value)
    (rule : NodeRule) (wf : workflow) : option workflow :=
  let rtype := rtype_of rule in
  if skipped_by_scalar_loop rtype then Some wf
  else write_if_present rule (get_present eff rtype) wf.

(** The four loops in sequence, on resolved parameters. *)
Definition apply_rules (rules : list NodeRule) (prompt : string)
    (eff : gmap string value) (wf : workflow) : option workflow :=
  wf1 ← for_rules (text_like_body prompt eff) rules wf;
  wf2 ← for_rules (input_image_body eff) rules wf1;
  wf3 ← for_rules (input_images_body eff) rules wf2;
  for_rules (scalar_body eff) rules wf3.

(** [ComfyClient.prepare_workflow].  The deep copy of [base_workflow] is
    the identity on values. *)
Definition prepare_workflow (base_workflow : workflow) (nodes_map : NodesMap)
    (prompt : string) (params : gmap string value) (g : rng)
    : option workflow * rng :=
  let '(eff_params, g') := effective_params params g in
  (apply_rules (nodes nodes_map) prompt eff_params base_workflow, g').

(** *** The render of the specification, for comparison

    The specification describes [render] as six passes, each over the whole
    rule list: prompt, negative prompt, generic text, single input image,
    input images with pruning, and the scalar catch-all that takes "every
    rule not matched above".  The definitions below follow that wording;
    they share with the code the primitive write, the normalised kind string
    and the parameter lookup. *)

Inductive rule_kind : Type :=
  | KPrompt
  | KNegativePrompt
  | KText
  | KInputImage
  | KInputImages
  | KScalar.

Definition kind_of (rule : NodeRule) : rule_kind :=
  let rtype := rtype_of rule in
  if bool_decide (rtype = "prompt") then KPrompt
  else if bool_decide (rtype = "negative_prompt") then KNegativePrompt
  else if bool_decide (rtype = "text") || bool_decide (rtype = "string")
          || startswith rtype "text:" || startswith rtype "string:" then KText
  else if bool_decide (rtype = "input_image") then KInputImage
  else if bool_decide (rtype = "input_images") then KInputImages
  else KScalar.

Definition is_kind (k1 k2 : rule_kind) : bool :=
  match k1, k2 with
  | KPrompt, KPrompt | KNegativePrompt, KNegativePrompt | KText, KText
  | KInputImage, KInputImage | KInputImages, KInputImages | KScalar, KScalar => true
  | _, _ => false
  end.

(** A pass visits every rule and acts on those of its kind. *)
Definition spec_pass (k : rule_kind) (act : NodeRule -> workflow -> option workflow)
    (rules : list NodeRule) (wf : workflow) : option workflow :=
  for_rules (fun r w => if is_kind (kind_of r) k then act r w else Some w) rules wf.

Definition spec_prompt_act (prompt : string) (r : NodeRule) (wf : workflow)
    : option workflow :=
  write_all (node_ids r) (key r) (VStr prompt) wf.

Definition spec_negative_act (eff : gmap string value) (r : NodeRule) (wf : workflow)
    : option workflow :=
  write_if_present r (get_present eff "negative_prompt") wf.

Definition spec_text_act (eff : gmap string value) (r : NodeRule) (wf : workflow)
    : option workflow :=
  match param_key_of r with
  | Some name => write_if_present r (get_present eff name) wf
  | None => Some wf
  end.

(** "writes [params["input_image"]] into the first/only target node" *)
Definition spec_input_image_act (eff : gmap string value) (r : NodeRule) (wf : workflow)
    : option workflow :=
  match get_present eff "input_image", node_ids r with
  | Some v, nid :: _ => set_input nid (key r) v wf
  | _, _ => Some wf
  end.

(** Pruning as the design notes put it: remove the ids from the mapping,
    then scan every remaining record for edges into the removed set. *)
Definition spec_prune (ids : list string) (wf : workflow) : workflow :=
  unlink_node ids <$> filter (fun kv => kv.1 ∉ ids) wf.

Definition supplied_images (eff : gmap string value) : list value :=
  match get_present eff "input_images" with
  | Some (VList l) => l
  | _ => []
  end.

Definition spec_input_images_act (eff : gmap string value) (r : NodeRule) (wf : workflow)
    : option workflow :=
  let files := supplied_images eff in
  let wf1 := assign_images (node_ids r) (key r) files wf in
  if (length files <? length (node_ids r))%nat
  then Some (spec_prune (drop (length files) (node_ids r)) wf1)
  else Some wf1.

Definition spec_scalar_act (eff : gmap string value) (r : NodeRule) (wf : workflow)
    : option workflow :=
  write_if_present r (get_present eff (rtype_of r)) wf.

Definition render_spec_rules (rules : list NodeRule) (prompt : string)
    (eff : gmap string value) (wf : workflow) : option workflow :=
  wf1 ← spec_pass KPrompt (spec_prompt_act prompt) rules wf;
  wf2 ← spec_pass KNegativePrompt (spec_negative_act eff) rules wf1;
  wf3 ← spec_pass KText (spec_text_act eff) rules wf2;
  wf4 ← spec_pass KInputImage (spec_input_image_act eff) rules wf3;
  wf5 ← spec_pass KInputImages (spec_input_images_act eff) rules wf4;
  spec_pass KScalar (spec_scalar_act eff) rules wf5.

Definition render_spec (template : workflow) (rules : NodesMap)
    (prompt : string) (params : gmap string value) (g : rng)
    : option workflow * rng :=
  let '(eff, g') := effective_params params g in
  (render_spec_rules (nodes rules) prompt eff template, g').

(** The kinds that the code handles together in its first loop. *)
Definition is_text_like (k : rule_kind) : bool :=
  match k with
  | KPrompt | KNegativePrompt | KText => true
  | _ => false
  end.

End Workflow.

(* ===================================================================== *)
(** ** The generation protocol client                                    *)
(* ===================================================================== *)

Module Protocol.

(** Readings of [time.time()], in clock ticks.  All readings of one run lie
    in the same binade, where a float is a whole number of ticks and the
    difference of two readings is exact; [run_timeout] is in ticks too. *)
Definition time : Type := Z.

(** The events of the engine, read off a JSON text frame. *)
Inductive event : Type :=
  | Executing (prompt_id : option string) (node : option string)
  | ExecutionError (prompt_id : option string) (exception_message : option string)
  | Other.

(** What one call of [ws.recv()] gives while the channel stays open. *)
Inductive frame : Type :=
  | RecvTimeout          (* WebSocketTimeoutException *)
  | Binary               (* preview bytes *)
  | Malformed            (* text that [json.loads] rejects *)
  | Message (e : event).

(** One round of the await loop as the environment sees it: the clock as
    read by the deadline check, the frame received next, and the clock as
    read while that frame is handled. *)
Record iteration : Type := mkIteration {
  check_time : time;
  received : frame;
  handle_time : time
}.

Record MediaURL : Type := mkMediaURL {
  url : string;
  filename : string;
  subfolder : string;
  kind : string;
  mime_type : string
}.

Record GenerationResult : Type := mkResult {
  media : list MediaURL;
  comfy_queue_s : time;
  comfy_exec_s : time
}.

(** The environment of one call: clock readings, the engine's answers and
    the frames of the event stream.  [history] is the media list that the
    history query and its classification yield. *)
Record world : Type := mkWorld {
  start_ts : time;
  connect_ok : bool;
  posted : option string;          (* [res["prompt_id"]] *)
  t_queued : time;
  iterations : list iteration;
  history : option (list MediaURL);
  final_time : time
}.

(** The [raise] statements of [submit_and_wait], by site.  The first two
    raise [ComfyError]. *)
Inductive failure : Type :=
  | GenerationTimeout                    (* "Generation timeout exceeded" *)
  | ProtocolError (message : string)     (* the engine's execution error *)
  | TransportFailure.                    (* connect, HTTP or history failed *)

Definition error_message (f : failure) : string :=
  match f with
  | GenerationTimeout => "Generation timeout exceeded"
  | ProtocolError m => m
  | TransportFailure => "transport failure"
  end.

Inductive awaited : Type :=
  | Done (t_exec_start : option time) (t_exec_done : time)
  | Failed (f : failure)
  | Starved.                             (* the stream has no more frames *)

(** [d.get("exception_message") or "ComfyUI execution error"] *)
Definition reported_message (exception_message : option string) : string :=
  match exception_message with
  | Some EmptyString | None => "ComfyUI execution error"
  | Some m => m
  end.

(** The [while True] loop of [submit_and_wait]. *)
Fixpoint await_events (run_timeout : Z) (start_ts : time) (prompt_id : string)
    (t_exec_start : option time) (its : list iteration) : awaited :=
  match its with
  | [] => Starved
  | it :: rest =>
      if run_timeout <? check_time it - start_ts then Failed GenerationTimeout
      else
        match received it with
        | RecvTimeout | Binary | Malformed | Message Other =>
            await_events run_timeout start_ts prompt_id t_exec_start rest
        | Message (Executing pid node) =>
            if bool_decide (pid = Some prompt_id) then
              match node with
              | Some _ =>
                  let t_exec_start' :=
                    match t_exec_start with
                    | None => Some (handle_time it)
                    | Some t => Some t
                    end in
                  await_events run_timeout start_ts prompt_id t_exec_start' rest
              | None => Done t_exec_start (handle_time it)
              end
            else await_events run_timeout start_ts prompt_id t_exec_start rest
        | Message (ExecutionError _ msg) => Failed (ProtocolError (reported_message msg))
        end
  end.

(** [(t_exec_done or time.time())]: a zero reading is falsy. *)
Definition or_now (t_exec_done now : time) : time :=
  if t_exec_done =? 0 then now else t_exec_done.

(** The timings at the end of [submit_and_wait].  [t_queued] is always set
    when this point is reached, so its fallback to [start_ts] plays no part. *)
Definition timings (t_queued : time) (t_exec_start : option time)
    (t_exec_done now : time) : time * time :=
  match t_exec_start with
  | None => (Z.max 0 (or_now t_exec_done now - t_queued), 0)
  | Some ts => (Z.max 0 (ts - t_queued), Z.max 0 (or_now t_exec_done now - ts))
  end.

(** How a call of [submit_and_wait] ends. *)
Inductive run : Type :=
  | Completed (r : GenerationResult)
  | Aborted (f : failure)
  | Blocked.                             (* still in the loop, no frame left *)

(** [ComfyClient.submit_and_wait] *)
Definition submit_and_wait (run_timeout : Z) (w : world) : run :=
  if negb (connect_ok w) then Aborted TransportFailure
  else
    match posted w with
    | None => Aborted TransportFailure
    | Some prompt_id =>
        match await_events run_timeout (start_ts w) prompt_id None (iterations w) with
        | Starved => Blocked
        | Failed f => Aborted f
        | Done t_exec_start t_exec_done =>
            match history w with
            | None => Aborted TransportFailure
            | Some m =>
                let '(q, e) :=
                  timings (t_queued w) t_exec_start t_exec_done (final_time w) in
                Completed (mkResult m q e)
            end
        end
    end.

(** *** What the environment shows, read off the stream alone *)

Definition is_completion (prompt_id : string) (f : frame) : bool :=
  match f with
  | Message (Executing pid None) => bool_decide (pid = Some prompt_id)
  | _ => false
  end.

Definition is_start (prompt_id : string) (f : frame) : bool :=
  match f with
  | Message (Executing pid (Some _)) => bool_decide (pid = Some prompt_id)
  | _ => false
  end.

Definition is_error (f : frame) : bool :=
  match f with
  | Message (ExecutionError _ _) => true
  | _ => false
  end.

Definition is_error_for (prompt_id : string) (f : frame) : bool :=
  match f with
  | Message (ExecutionError pid _) => bool_decide (pid = Some prompt_id)
  | _ => false
  end.

(** The reading taken at the completion event of the tracked execution. *)
Definition t_execDone (prompt_id : string) (its : list iteration) : option time :=
  handle_time <$> List.find (fun it => is_completion prompt_id (received it)) its.

(** The reading taken at the first event that shows the tracked execution
    running, among the events that precede its completion. *)
Fixpoint t_execStart (prompt_id : string) (its : list iteration) : option time :=
  match its with
  | [] => None
  | it :: rest =>
      if is_completion prompt_id (received it) then None
      else if is_start prompt_id (received it) then Some (handle_time it)
      else t_execStart prompt_id rest
  end.

(** The deadline check at the head of a round lets the round proceed. *)
Definition in_time (run_timeout : Z) (start_ts : time) (it : iteration) : Prop :=
  check_time it - start_ts <= run_timeout.

(** A frame that ends the loop: completion of the tracked execution, or an
    execution error. *)
Definition ends_loop (prompt_id : string) (f : frame) : bool :=
  is_completion prompt_id f || is_error f.

End Protocol.

(* ===================================================================== *)
(** ** Properties of the admission controller                            *)
(* ===================================================================== *)

Module JobsQueueProps.
Import JobsQueue.

Ltac setters :=
  unfold set_task, set_processor, set_queues, set_workers, set_sema, set_processor_flag,
    set_closed, set_active, set_registry, set_pending, set_store, new_object in *.

(** *** The pending counters *)

Lemma count_inc (u : Z) (p : gmap Z Z) :
  0 < u -> default 0 (_inc_pending u p !! u) = default 0 (p !! u) + 1.
Proof.
  intros Hu. unfold _inc_pending.
  destruct (Z.leb_spec u 0) as [?|_]; [lia|].
  by rewrite lookup_insert_eq.
Qed.

Lemma count_dec (u : Z) (p : gmap Z Z) :
  0 < u -> default 0 (_dec_pending u p !! u) = Z.max 0 (default 0 (p !! u) - 1).
Proof.
  intros Hu. unfold _dec_pending.
  destruct (Z.leb_spec u 0) as [?|_]; [lia|].
  destruct (Z.leb_spec (default 0 (p !! u)) 1).
  - rewrite lookup_delete_eq. simpl. lia.
  - rewrite lookup_insert_eq. simpl. lia.
Qed.

(** Every stored counter is strictly positive. *)
Definition positive_counters (p : gmap Z Z) : Prop :=
  forall u c, p !! u = Some c -> 0 < c.

Lemma positive_empty : positive_counters ∅.
Proof. intros u c H. by rewrite lookup_empty in H. Qed.

Lemma positive_inc (u : Z) (p : gmap Z Z) :
  positive_counters p -> positive_counters (_inc_pending u p).
Proof.
  intros Hp v c. unfold _inc_pending. destruct (u <=? 0); [apply Hp|].
  destruct (decide (u = v)) as [->|Hne].
  - rewrite lookup_insert_eq. intros [= <-].
    destruct (p !! v) as [c0|] eqn:E; simpl; [apply Hp in E|]; lia.
  - rewrite lookup_insert_ne by done. apply Hp.
Qed.

Lemma positive_dec (u : Z) (p : gmap Z Z) :
  positive_counters p -> positive_counters (_dec_pending u p).
Proof.
  intros Hp v c. unfold _dec_pending. destruct (u <=? 0); [apply Hp|].
  destruct (Z.leb_spec (default 0 (p !! u)) 1) as [Hle|Hgt].
  - destruct (decide (u = v)) as [->|Hne].
    + by rewrite lookup_delete_eq.
    + rewrite lookup_delete_ne by done. apply Hp.
  - destruct (decide (u = v)) as [->|Hne].
    + rewrite lookup_insert_eq. intros [= <-]. lia.
    + rewrite lookup_insert_ne by done. apply Hp.
Qed.

(** How one operation can change the counter map. *)
Inductive counters_change (p : gmap Z Z) : gmap Z Z -> Prop :=
  | change_none : counters_change p p
  | change_inc u : counters_change p (_inc_pending u p)
  | change_dec u : counters_change p (_dec_pending u p)
  | change_clear : counters_change p ∅.

Lemma put_pending alias item s s' :
  put alias item s = Some s' -> pending_by_user s' = pending_by_user s.
Proof. unfold put. destruct (queues s !! alias); [|done]. by intros [= <-]. Qed.

Lemma ensure_pending alias s :
  pending_by_user (_ensure_workers alias s) = pending_by_user s.
Proof.
  unfold _ensure_workers.
  destruct (workers s !! alias) as [[|? ?]|]; destruct (queues s !! alias); done.
Qed.

Lemma inc_of_change u s p :
  pending_by_user s = p ->
  counters_change p (pending_by_user (inc_pending_of u s)).
Proof. intros <-. unfold inc_pending_of. destruct (u =? 0); simpl; constructor. Qed.

Lemma dec_of_change u s p :
  pending_by_user s = p ->
  counters_change p (pending_by_user (dec_pending_of u s)).
Proof. intros <-. unfold dec_pending_of. destruct (u =? 0); simpl; constructor. Qed.

Lemma exec_counters o s s' :
  exec o s = Some s' -> counters_change (pending_by_user s) (pending_by_user s').
Proof.
  destruct o as [|alias job|alias job lim|alias job reserved|u lim|u|alias|mid b
                |alias i|alias i|alias i| |]; simpl.
  - intros [= <-]. constructor.
  - intros [= <-]. unfold enqueue.
    destruct (closed s); [constructor|]. destruct (processor s); simpl; [|constructor].
    lazymatch goal with |- context [put ?a ?i ?st] => destruct (put a i st) as [s5|] eqn:E end;
      simpl; [apply put_pending in E; rewrite E|];
      apply inc_of_change; simpl; apply ensure_pending.
  - intros [= <-]. unfold enqueue_limited.
    destruct (closed s || negb (processor s)); [constructor|].
    match goal with
    | |- context [if (match ?l with Some _ => _ | None => false end) then _ else _] =>
        destruct (match l with Some _ => _ | None => false end)
    end; simpl; [rewrite ensure_pending; constructor|].
    lazymatch goal with |- context [put ?a ?i ?st] => destruct (put a i st) as [s5|] eqn:E end;
      simpl; [apply put_pending in E; rewrite E|];
      apply inc_of_change; simpl; apply ensure_pending.
  - intros [= <-]. unfold enqueue_reserved.
    destruct (closed s || negb (processor s)); [constructor|].
    destruct reserved; simpl;
      lazymatch goal with |- context [put ?a ?i ?st] => destruct (put a i st) as [s5|] eqn:E end;
      simpl; try (apply put_pending in E; rewrite E);
      first [ apply inc_of_change; simpl; apply ensure_pending
            | simpl; rewrite ensure_pending; constructor ].
  - intros [= <-]. unfold reserve_user_slot.
    destruct (u <=? 0); [constructor|].
    destruct (limit_enabled lim); [|constructor].
    destruct (_ <=? _); simpl; constructor.
  - intros [= <-]. unfold release_user_slot.
    destruct (u <=? 0); simpl; constructor.
  - intros [= <-]. unfold will_queue.
    destruct (queues (_ensure_workers alias s) !! alias); simpl;
      [repeat match goal with |- context [if ?c then _ else _] => destruct c end; simpl|];
      rewrite ensure_pending; constructor.
  - intros [= <-]. unfold cancel_job.
    destruct (registry s !! mid) as [r|]; [|constructor].
    destruct (store s !! r) as [job|]; [|constructor].
    destruct (started job); [constructor|]. destruct (canceled job); [constructor|].
    simpl. by apply dec_of_change.
  - unfold worker_get.
    destruct (task_at alias i s) as [[]|]; try done.
    destruct (queues s !! alias) as [[|[r|] rest]|]; try done.
    + simpl. destruct (closed s); [intros [= <-]; constructor|].
      destruct (store s !! r) as [job|]; [|done].
      destruct (canceled job); intros [= <-]; constructor.
    + intros [= <-]. constructor.
  - unfold worker_start.
    destruct (task_at alias i s) as [[|j|j|]|]; try done.
    destruct (0 <? global_sema s); [|done].
    destruct (store s !! j) as [job|]; [|done].
    intros [= <-]. simpl. by apply dec_of_change.
  - unfold worker_finish.
    destruct (task_at alias i s) as [[|j|j|]|]; try done.
    destruct (store s !! j) as [job|]; [|done].
    intros [= <-]. constructor.
  - intros [= <-]. constructor.
  - unfold shutdown_end. destruct (closed s && all_stopped s); [|done].
    intros [= <-]. constructor.
Qed.

(** Case analysis on the tests of an operation's body. *)
Ltac split_body :=
  repeat
    (simpl in *;
     match goal with
     | H : Some _ = Some _ |- _ => injection H as <-
     | H : None = Some _ |- _ => discriminate H
     | H : context [match ?x with _ => _ end] |- _ => destruct x eqn:?
     | H : context [if ?x then _ else _] |- _ => destruct x eqn:?
     | |- context [match ?x with _ => _ end] => destruct x eqn:?
     | |- context [if ?x then _ else _] => destruct x eqn:?
     end).

(** *** The worker pools *)

(** How one operation can change the pools. *)
Inductive pools_change (n : nat) (ws : gmap string (list task))
    : gmap string (list task) -> Prop :=
  | pools_same : pools_change n ws ws
  | pools_created alias : pools_change n ws (<[alias := replicate n Waiting]> ws)
  | pools_task alias i t : pools_change n ws (alter (fun pool => <[i := t]> pool) alias ws)
  | pools_cleared : pools_change n ws ∅.

Ltac open_ops :=
  unfold enqueue, enqueue_limited, enqueue_reserved, reserve_user_slot,
    release_user_slot, will_queue, cancel_job, worker_get, worker_start,
    worker_finish, shutdown_begin, shutdown_end, put, inc_pending_of,
    dec_pending_of, _ensure_workers, set_task, set_processor in *.

Lemma exec_pools o s s' :
  exec o s = Some s' ->
  per_topic_limit s' = per_topic_limit s
  /\ pools_change (Z.to_nat (per_topic_limit s)) (workers s) (workers s').
Proof.
  destruct o as [|alias job|alias job lim|alias job reserved|u lim|u|alias|mid b
                |alias i|alias i|alias i| |]; simpl; intros He; open_ops;
    split_body; (split; [done|constructor]).
Qed.

(** Every pool holds as many tasks as the per-topic limit says. *)
Definition pools_sized (s : state) : Prop :=
  forall alias pool,
    workers s !! alias = Some pool -> length pool = Z.to_nat (per_topic_limit s).

Lemma pools_sized_exec o s s' :
  pools_sized s -> exec o s = Some s' -> pools_sized s'.
Proof.
  intros Hs He. apply exec_pools in He as [Hl Hc].
  intros alias pool. rewrite Hl.
  destruct Hc as [|a|a i t|].
  - apply Hs.
  - destruct (decide (a = alias)) as [->|Hne].
    + rewrite lookup_insert_eq. intros [= <-]. apply length_replicate.
    + rewrite lookup_insert_ne by done. apply Hs.
  - destruct (decide (a = alias)) as [->|Hne].
    + rewrite lookup_alter_eq.
      destruct (workers s !! alias) as [pool0|] eqn:E; simpl; [|done].
      intros [= <-]. rewrite length_insert. by apply (Hs alias).
    + rewrite lookup_alter_ne by done. apply Hs.
  - by rewrite lookup_empty.
Qed.

Lemma run_invariant (P : state -> Prop) :
  (forall o s s', P s -> exec o s = Some s' -> P s') ->
  forall os s s', P s -> run os s = Some s' -> P s'.
Proof.
  intros Hstep os. induction os as [|o os IH]; intros s s' Hs; simpl.
  - by intros [= <-].
  - destruct (exec o s) as [s1|] eqn:E; [|done]. eauto.
Qed.

Lemma init_state mw ptl s0 :
  __init__ mw ptl = Returned s0 ->
  s0 = mkState ∅ ∅ mw (Z.max 1 ptl) false false ∅ 0 mw ∅ ∅ ∅ O.
Proof. unfold __init__. destruct (mw <? 0); [done|]. by intros [= <-]. Qed.

Lemma reachable_limit mw ptl s :
  reachable mw ptl s -> per_topic_limit s = Z.max 1 ptl.
Proof.
  intros (s0 & os & H0 & Hr). apply init_state in H0 as ->.
  revert Hr. apply (run_invariant (fun s => per_topic_limit s = Z.max 1 ptl));
    [|reflexivity].
  intros o s1 s2 H1 He. apply exec_pools in He as [-> _]. done.
Qed.

Lemma reachable_pools mw ptl s : reachable mw ptl s -> pools_sized s.
Proof.
  intros (s0 & os & H0 & Hr). apply init_state in H0 as ->.
  revert Hr. apply (run_invariant pools_sized); [apply pools_sized_exec|].
  intros alias pool. simpl. by rewrite lookup_empty.
Qed.

(** *** The object store *)

(** How one operation can change the store of job objects. *)
Inductive store_step (s s' : state) : Prop :=
  | store_same :
      store s' = store s -> next_ref s' = next_ref s -> store_step s s'
  | store_alloc job :
      store s' = <[next_ref s := job]> (store s) ->
      next_ref s' = S (next_ref s) -> store_step s s'
  | store_cancel r job b :
      store s !! r = Some job ->
      store s' = <[r := mark_canceled b job]> (store s) ->
      next_ref s' = next_ref s -> store_step s s'
  | store_start r job :
      store s !! r = Some job ->
      store s' = <[r := mark_started job]> (store s) ->
      next_ref s' = next_ref s -> store_step s s'.

Lemma exec_store o s s' : exec o s = Some s' -> store_step s s'.
Proof.
  destruct o as [|alias job|alias job lim|alias job reserved|u lim|u|alias|mid b
                |alias i|alias i|alias i| |]; simpl; intros He; open_ops;
    split_body;
    first [ by apply store_same
          | by eapply store_alloc
          | by eapply store_cancel
          | by eapply store_start ].
Qed.

(** References are handed out in increasing order. *)
Definition store_ok (s : state) : Prop :=
  forall r job, store s !! r = Some job -> (r < next_ref s)%nat.

(** A job object keeps its identity, and its flags are never reset. *)
Definition flags_kept (job job' : GenerateJob) : Prop :=
  message_id job' = message_id job /\ user_id job' = user_id job
  /\ (canceled job = true -> canceled job' = true)
  /\ (started job = true -> started job' = true).

Lemma flags_kept_refl job : flags_kept job job.
Proof. by repeat split. Qed.


Lemma exec_store_ok o s s' : store_ok s -> exec o s = Some s' -> store_ok s'.
Proof.
  intros Hok He r job. destruct (exec_store _ _ _ He) as [-> ->| j -> ->|r0 j b Hr -> ->|r0 j Hr -> ->].
  - apply Hok.
  - destruct (decide (next_ref s = r)) as [<-|Hne].
    + lia.
    + rewrite lookup_insert_ne by done. intros H%Hok. lia.
  - destruct (decide (r0 = r)) as [<-|Hne].
    + intros _. by apply Hok in Hr.
    + rewrite lookup_insert_ne by done. apply Hok.
  - destruct (decide (r0 = r)) as [<-|Hne].
    + intros _. by apply Hok in Hr.
    + rewrite lookup_insert_ne by done. apply Hok.
Qed.

Lemma exec_flags o s s' r job :
  store_ok s -> exec o s = Some s' -> store s !! r = Some job ->
  exists job', store s' !! r = Some job' /\ flags_kept job job'.
Proof.
  intros Hok He Hj.
  destruct (exec_store _ _ _ He) as [-> _| j -> _|r0 j b Hr -> _|r0 j Hr -> _].
  - exists job. split; [done|apply flags_kept_refl].
  - exists job. split; [|apply flags_kept_refl].
    rewrite lookup_insert_ne; [done|]. apply Hok in Hj. lia.
  - destruct (decide (r0 = r)) as [->|Hne].
    + rewrite lookup_insert_eq. eexists; split; [done|].
      rewrite Hr in Hj. injection Hj as ->. by repeat split.
    + rewrite lookup_insert_ne by done. exists job. split; [done|apply flags_kept_refl].
  - destruct (decide (r0 = r)) as [->|Hne].
    + rewrite lookup_insert_eq. eexists; split; [done|].
      rewrite Hr in Hj. injection Hj as ->. by repeat split.
    + rewrite lookup_insert_ne by done. exists job. split; [done|apply flags_kept_refl].
Qed.

Lemma run_store_ok os s s' : store_ok s -> run os s = Some s' -> store_ok s'.
Proof. apply run_invariant. intros o s1 s2. apply exec_store_ok. Qed.


Lemma reachable_store_ok mw ptl s : reachable mw ptl s -> store_ok s.
Proof.
  intros (s0 & os & H0 & Hr). apply init_state in H0 as ->.
  revert Hr. apply run_store_ok. intros r job. simpl. by rewrite lookup_empty.
Qed.

(** *** Cancellation *)

Definition cancellable (mid : Z) (s : state) : Prop :=
  exists r job,
    registry s !! mid = Some r /\ store s !! r = Some job
    /\ started job = false /\ canceled job = false.

Lemma cancel_true_iff mid b s :
  (cancel_job mid b s).1 = true <-> cancellable mid s.
Proof.
  unfold cancel_job, cancellable. split.
  - destruct (registry s !! mid) as [r|]; [|done].
    destruct (store s !! r) as [job|] eqn:E; [|done].
    destruct (started job) eqn:?; [done|]. destruct (canceled job) eqn:?; [done|].
    intros _. by exists r, job.
  - intros (r & job & -> & -> & -> & ->). done.
Qed.

Lemma cancel_effect mid b s r job :
  registry s !! mid = Some r -> store s !! r = Some job ->
  started job = false -> canceled job = false ->
  let s' := (cancel_job mid b s).2 in
  store s' = <[r := mark_canceled b job]> (store s)
  /\ pending_by_user s' = _dec_pending (user_id job) (pending_by_user s)
  /\ registry s' = registry s.
Proof.
  intros Hr Hj Hs Hc. unfold cancel_job. rewrite Hr, Hj, Hs, Hc. simpl.
  unfold dec_pending_of. destruct (Z.eqb_spec (user_id job) 0) as [E|E]; simpl.
  - rewrite E. done.
  - done.
Qed.



(** *** Queues *)

(** Every topic that has a pool has a queue. *)
Definition queues_ready (s : state) : Prop := dom (workers s) ⊆ dom (queues s).

Lemma dom_poison (ws : gmap string (list task)) (qs : gmap string (list (option ref))) :
  dom (map_imap (fun alias q => Some (poison ws alias q)) qs) = dom qs.
Proof.
  apply set_eq. intros a. rewrite !elem_of_dom, map_lookup_imap.
  destruct (qs !! a); simpl; split; intros [? ?]; eauto; done.
Qed.

Lemma exec_queues_ready o s s' : queues_ready s -> exec o s = Some s' -> queues_ready s'.
Proof.
  unfold queues_ready.
  destruct o as [|alias job|alias job lim|alias job reserved|u lim|u|alias|mid b
                |alias i|alias i|alias i| |]; simpl; intros Hs He; open_ops;
    split_body;
    repeat match goal with
           | H : _ !! _ = Some _ |- _ =>
               let H' := fresh in
               pose proof (elem_of_dom_2 _ _ _ H) as H'; clear H
           end;
    setters; simpl;
    rewrite ?dom_poison, ?dom_insert_L, ?dom_alter_L, ?dom_empty_L;
    try exact Hs;
    (intros x; rewrite ?elem_of_union, ?elem_of_singleton;
     intros Hx; repeat destruct Hx as [Hx|Hx]; subst;
     try (apply Hs in Hx); try tauto; try (by apply elem_of_empty in Hx)).
Qed.

Lemma reachable_queues_ready mw ptl s : reachable mw ptl s -> queues_ready s.
Proof.
  intros (s0 & os & H0 & Hr). apply init_state in H0 as ->.
  revert Hr. apply (run_invariant queues_ready); [apply exec_queues_ready|].
  unfold queues_ready. simpl. by rewrite dom_empty_L.
Qed.

Lemma reachable_step mw ptl o s s' :
  reachable mw ptl s -> exec o s = Some s' -> reachable mw ptl s'.
Proof.
  intros (s0 & os & H0 & Hr) He. exists s0, (os ++ [o]). split; [done|].
  clear H0. revert s0 Hr. induction os as [|o1 os IH]; intros s0; simpl.
  - intros [= ->]. by rewrite He.
  - destruct (exec o1 s0); [apply IH|done].
Qed.

(** *** Admission under the per-requester limit *)

(** A batch of jobs handed to [enqueue_limited] one after the other; the
    flag tells whether every call returned [True]. *)
Fixpoint accept_all (alias : string) (per_user_limit : option Z)
    (jobs : list GenerateJob) (s : state) : bool * state :=
  match jobs with
  | [] => (true, s)
  | job :: rest =>
      match enqueue_limited alias job per_user_limit s with
      | (Returned true, s1) => accept_all alias per_user_limit rest s1
      | (_, s1) => (false, s1)
      end
  end.

Lemma ensure_has_queue alias s :
  queues_ready s -> is_Some (queues (_ensure_workers alias s) !! alias).
Proof.
  unfold queues_ready, _ensure_workers. intros Hs.
  destruct (workers s !! alias) as [[|w pool]|] eqn:Ew.
  - destruct (queues s !! alias) eqn:Eq; simpl; [by rewrite Eq|].
    rewrite lookup_insert_eq. eauto.
  - apply elem_of_dom. apply Hs. by apply elem_of_dom_2 in Ew.
  - destruct (queues s !! alias) eqn:Eq; simpl; [by rewrite Eq|].
    rewrite lookup_insert_eq. eauto.
Qed.

Lemma ensure_flags alias s :
  closed (_ensure_workers alias s) = closed s
  /\ processor (_ensure_workers alias s) = processor s.
Proof.
  unfold _ensure_workers.
  destruct (workers s !! alias) as [[|? ?]|]; destruct (queues s !! alias); done.
Qed.

Lemma enqueue_limited_accepts alias job L s :
  queues_ready s -> closed s = false -> processor s = true ->
  0 < user_id job -> 0 < L ->
  pending_count_by_user s (user_id job) < L ->
  exists s1,
    enqueue_limited alias job (Some L) s = (Returned true, s1)
    /\ pending_count_by_user s1 (user_id job) = pending_count_by_user s (user_id job) + 1
    /\ closed s1 = false /\ processor s1 = true.
Proof.
  intros Hq Hc Hp Hu HL Hlt. unfold enqueue_limited, limit_enabled.
  rewrite Hc, Hp. simpl.
  destruct (Z.ltb_spec 0 L); [|lia].
  destruct (Z.eqb_spec (user_id job) 0); [lia|].
  unfold pending_count_by_user in *. rewrite ensure_pending.
  destruct (Z.leb_spec L (default 0 (pending_by_user s !! user_id job))); [lia|].
  simpl. unfold put, inc_pending_of.
  destruct (Z.eqb_spec (user_id job) 0); [lia|]. simpl.
  destruct (ensure_has_queue alias s Hq) as [q ->]. simpl.
  eexists. split; [reflexivity|]. simpl.
  destruct (ensure_flags alias s) as [-> ->].
  split; [|done]. by apply count_inc.
Qed.

Lemma accept_all_counts alias R L jobs : forall s mw ptl,
  reachable mw ptl s -> closed s = false -> processor s = true ->
  0 < R -> 0 < L ->
  Forall (fun job => user_id job = R) jobs ->
  pending_count_by_user s R + Z.of_nat (length jobs) <= L ->
  exists s',
    accept_all alias (Some L) jobs s = (true, s')
    /\ reachable mw ptl s'
    /\ pending_count_by_user s' R = pending_count_by_user s R + Z.of_nat (length jobs).
Proof.
  induction jobs as [|job rest IH]; intros s mw ptl Hr Hc Hp HR HL Hall Hle.
  - exists s. simpl. split; [done|]. split; [done|]. lia.
  - apply Forall_cons in Hall as [Hu Hall]. simpl in Hle.
    destruct (enqueue_limited_accepts alias job L s) as (s1 & He & Hn & Hc1 & Hp1);
      [by eapply reachable_queues_ready|done|done|lia|done|rewrite Hu; lia|].
    assert (reachable mw ptl s1) as Hr1.
    { apply (reachable_step mw ptl (EnqueueLimited alias job (Some L)) s); [done|].
      simpl. by rewrite He. }
    rewrite Hu in Hn.
    destruct (IH s1 mw ptl Hr1 Hc1 Hp1 HR HL Hall) as (s' & Ha & Hr' & Hn'); [lia|].
    exists s'. simpl. rewrite He. split; [done|]. split; [done|]. lia.
Qed.

Lemma can_enqueue_spec R L s :
  0 < R -> 0 < L ->
  can_enqueue R (Some L) s = bool_decide (pending_count_by_user s R < L).
Proof.
  intros HR HL. unfold can_enqueue, limit_enabled.
  destruct (Z.leb_spec R 0); [lia|]. destruct (Z.ltb_spec 0 L); [|lia].
  destruct (Z.ltb_spec (pending_count_by_user s R) L).
  - by rewrite bool_decide_eq_true_2.
  - rewrite bool_decide_eq_false_2; [done|lia].
Qed.

Lemma worker_start_counts alias i s s' r job :
  task_at alias i s = Some (Acquiring r) -> store s !! r = Some job ->
  worker_start alias i s = Some s' ->
  pending_by_user s' = _dec_pending (user_id job) (pending_by_user s)
  /\ store s' = <[r := mark_started job]> (store s).
Proof.
  intros Ht Hj. unfold worker_start. rewrite Ht.
  destruct (0 <? global_sema s); [|done]. rewrite Hj. intros [= <-]. simpl.
  unfold dec_pending_of. destruct (Z.eqb_spec (user_id job) 0) as [E|E]; simpl.
  - by rewrite E.
  - done.
Qed.

(** What [can_enqueue] answers, stated on the counter it reads: for a
    requester R > 0 and a limit L > 0 it is false when the counter of R
    stands at L (also after L jobs of R were accepted on top of none), it
    is true again after a call that took the counter down by one, and a
    disabled limit (absent or non-positive) or a requester id <= 0 always
    allows.  Whether the counter is the number of jobs of R that wait is
    another matter, taken up at the end of this module. *)
Lemma can_enqueue_follows_pending (mw ptl R L : Z) (s : state) :
  reachable mw ptl s -> 0 < R -> 0 < L ->
  (pending_count_by_user s R = L -> can_enqueue R (Some L) s = false)
  /\ (forall alias jobs,
        closed s = false -> processor s = true ->
        pending_count_by_user s R = 0 ->
        Forall (fun job => user_id job = R) jobs -> Z.of_nat (length jobs) = L ->
        exists s',
          accept_all alias (Some L) jobs s = (true, s')
          /\ pending_count_by_user s' R = L
          /\ can_enqueue R (Some L) s' = false)
  /\ (forall mid by_admin r job,
        pending_count_by_user s R = L ->
        registry s !! mid = Some r -> store s !! r = Some job -> user_id job = R ->
        (cancel_job mid by_admin s).1 = true ->
        can_enqueue R (Some L) (cancel_job mid by_admin s).2 = true)
  /\ (forall alias i r job s',
        pending_count_by_user s R = L ->
        task_at alias i s = Some (Acquiring r) -> store s !! r = Some job ->
        user_id job = R ->
        worker_start alias i s = Some s' ->
        can_enqueue R (Some L) s' = true)
  /\ (forall u lim,
        u <= 0 \/ lim = None \/ (exists l, lim = Some l /\ l <= 0) ->
        can_enqueue u lim s = true).
Proof.
  intros Hr HR HL. repeat split.
  - intros Hn. rewrite can_enqueue_spec by done.
    rewrite bool_decide_eq_false_2; [done|lia].
  - intros alias jobs Hc Hp H0 Hall Hlen.
    destruct (accept_all_counts alias R L jobs s mw ptl) as (s' & Ha & _ & Hn);
      try done; [lia|].
    exists s'. split; [done|]. split; [lia|].
    rewrite can_enqueue_spec by done. rewrite bool_decide_eq_false_2; [done|lia].
  - intros mid b r job Hn Hreg Hj Hu Hok.
    apply cancel_true_iff in Hok as (r' & job' & Hreg' & Hj' & Hs & Hc).
    rewrite Hreg in Hreg'. injection Hreg' as <-. rewrite Hj in Hj'. injection Hj' as <-.
    destruct (cancel_effect mid b s r job Hreg Hj Hs Hc) as (_ & Hp & _).
    rewrite can_enqueue_spec by done. apply bool_decide_eq_true_2.
    unfold pending_count_by_user in *. rewrite Hp, Hu, count_dec by done. lia.
  - intros alias i r job s' Hn Ht Hj Hu Hstart.
    destruct (worker_start_counts alias i s s' r job Ht Hj Hstart) as [Hp _].
    rewrite can_enqueue_spec by done. apply bool_decide_eq_true_2.
    unfold pending_count_by_user in *. rewrite Hp, Hu, count_dec by done. lia.
  - intros u lim Hd. unfold can_enqueue, limit_enabled.
    destruct (Z.leb_spec u 0); [done|].
    destruct Hd as [?|[->|(l & -> & Hl)]]; [lia|done|].
    destruct (Z.ltb_spec 0 l); [lia|done].
Qed.

(** A controller with one job of requester 7 waiting. *)
Definition demo_job : GenerateJob := mkJob 1 1 100 "a cat" 7 "flux" false false false.

Definition demo_ops : list op := [SetProcessor; Enqueue "flux" demo_job].

Definition demo_init : state := mkState ∅ ∅ 2 1 false false ∅ 0 2 ∅ ∅ ∅ O.

Definition demo_state : state := default demo_init (run demo_ops demo_init).

Lemma can_enqueue_follows_pending_witness :
  can_enqueue 7 (Some 1) demo_state = false
  /\ can_enqueue 7 (Some 1) (cancel_job 100 false demo_state).2 = true.
Proof.
  assert (reachable 2 1 demo_state) as Hr.
  { exists demo_init, demo_ops. split; vm_compute; reflexivity. }
  destruct (can_enqueue_follows_pending 2 1 7 1 demo_state Hr ltac:(lia) ltac:(lia))
    as (H1 & _ & H3 & _).
  split.
  - apply H1. vm_compute. reflexivity.
  - apply (H3 100 false 0%nat demo_job); vm_compute; reflexivity.
Defined.



(** C9: every operation of the controller (the enqueue family, slot
    reservation and release, cancellation, and the worker's start
    transition) maps a counter map whose entries are all strictly positive
    to one with the same property: no counter goes negative and a counter
    that reaches zero leaves the map. *)
Theorem pending_counters_stay_positive (s : state) :
  positive_counters (pending_by_user s) ->
  (forall alias job, positive_counters (pending_by_user (enqueue alias job s).2))
  /\ (forall alias job lim,
        positive_counters (pending_by_user (enqueue_limited alias job lim s).2))
  /\ (forall alias job reserved,
        positive_counters (pending_by_user (enqueue_reserved alias job reserved s).2))
  /\ (forall u lim, positive_counters (pending_by_user (reserve_user_slot u lim s).2))
  /\ (forall u, positive_counters (pending_by_user (release_user_slot u s)))
  /\ (forall mid by_admin, positive_counters (pending_by_user (cancel_job mid by_admin s).2))
  /\ (forall alias i s',
        worker_start alias i s = Some s' -> positive_counters (pending_by_user s'))
  /\ (forall o s', exec o s = Some s' -> positive_counters (pending_by_user s'))
  /\ (forall u,
        0 < u ->
        pending_count_by_user (release_user_slot u s) u
        = Z.max 0 (pending_count_by_user s u - 1)
        /\ (pending_count_by_user s u <= 1 ->
            pending_by_user (release_user_slot u s) !! u = None)).
Proof.
  intros Hpos.
  assert (forall o s', exec o s = Some s' -> positive_counters (pending_by_user s')) as Hexec.
  { intros o s' He. destruct (exec_counters o s s' He).
    - done.
    - by apply positive_inc.
    - by apply positive_dec.
    - apply positive_empty. }
  split; [intros alias job; by apply (Hexec (Enqueue alias job))|].
  split; [intros alias job lim; by apply (Hexec (EnqueueLimited alias job lim))|].
  split; [intros alias job r; by apply (Hexec (EnqueueReserved alias job r))|].
  split; [intros u lim; by apply (Hexec (ReserveUserSlot u lim))|].
  split; [intros u; by apply (Hexec (ReleaseUserSlot u))|].
  split; [intros mid b; by apply (Hexec (CancelJob mid b))|].
  split; [intros alias i s' He; by apply (Hexec (WorkerStart alias i))|].
  split; [exact Hexec|].
  intros u Hu. unfold release_user_slot, pending_count_by_user.
  destruct (Z.leb_spec u 0); [lia|]. simpl. split; [by apply count_dec|].
  intros Hle. unfold _dec_pending. destruct (Z.leb_spec u 0); [lia|].
  destruct (Z.leb_spec (default 0 (pending_by_user s !! u)) 1); [|lia].
  apply lookup_delete_eq.
Qed.

Lemma pending_counters_stay_positive_witness :
  positive_counters (pending_by_user (cancel_job 100 false demo_state).2)
  /\ pending_by_user (release_user_slot 7 demo_state) !! 7 = None.
Proof.
  assert (positive_counters (pending_by_user demo_state)) as Hpos.
  { intros u c. vm_compute pending_by_user.
    change (({[7 := 1]} : gmap Z Z) !! u = Some c -> 0 < c).
    intros [_ <-]%lookup_singleton_Some. lia. }
  destruct (pending_counters_stay_positive demo_state Hpos)
    as (_ & _ & _ & _ & _ & H6 & _ & _ & H9).
  split; [apply H6|].
  destruct (H9 7 ltac:(lia)) as [_ H]. apply H. vm_compute. discriminate.
Defined.


(** *** A cancellation that comes while the worker waits for a permit

    The worker looks at [job.canceled] when it takes the job off the queue,
    not after it has acquired the global permit.  With one permit held by
    another topic, a job canceled in between is started all the same and
    its requester's counter goes down twice: here requester 7 still has job
    101 waiting while the counter is back at zero. *)
Definition race_ops : list op :=
  [SetProcessor;
   Enqueue "a" (mkJob 1 1 100 "first" 7 "a" false false false);
   Enqueue "a" (mkJob 1 1 101 "second" 7 "a" false false false);
   Enqueue "b" (mkJob 1 2 200 "other" 8 "b" false false false);
   WorkerGet "b" 0; WorkerStart "b" 0;
   WorkerGet "a" 0;
   CancelJob 100 false;
   WorkerFinish "b" 0;
   WorkerStart "a" 0].

Example cancel_while_acquiring :
  exists s,
    run race_ops (mkState ∅ ∅ 1 1 false false ∅ 0 1 ∅ ∅ ∅ O) = Some s
    /\ (started <$> get_job 100 s) = Some true
    /\ (canceled <$> get_job 100 s) = Some true
    /\ (started <$> get_job 101 s) = Some false
    /\ (canceled <$> get_job 101 s) = Some false
    /\ pending_count_by_user s 7 = 0.
Proof. eexists. split; [vm_compute; reflexivity|]. repeat split. Qed.

(** The jobs of a requester that the controller accepted and that are
    neither started nor canceled: the pending jobs of the specification.
    Every job object handed to the controller is in the store, under a
    reference below [next_ref]. *)
Definition is_pending_of (user : Z) (job : GenerateJob) : bool :=
  bool_decide (user_id job = user) && negb (started job) && negb (canceled job).

Definition pending_jobs (user : Z) (s : state) : list GenerateJob :=
  filter (fun job => is_pending_of user job = true)
    (omap (fun r => store s !! r) (seq 0 (next_ref s))).

(** The same race through the calls the bot makes, with a limit of one
    pending job per requester.  Topic "b" holds the one global permit;
    requester 7 cancels job 100 while the worker of topic "a" has it in
    hand and waits for the permit, and then submits job 101. *)
Definition late_cancel_ops : list op :=
  [SetProcessor;
   EnqueueLimited "b" (mkJob 1 2 200 "other" 8 "b" false false false) (Some 1);
   WorkerGet "b" 0; WorkerStart "b" 0;
   EnqueueLimited "a" (mkJob 1 1 100 "first" 7 "a" false false false) (Some 1);
   WorkerGet "a" 0;
   CancelJob 100 false;
   EnqueueLimited "a" (mkJob 1 1 101 "second" 7 "a" false false false) (Some 1);
   WorkerFinish "b" 0;
   WorkerStart "a" 0].

(** C1 does not hold of the code.  After [late_cancel_ops], on a
    controller built by [__init__ 1 1], requester 7 has one pending job
    (job 101) under a limit of one, and yet [can_enqueue 7 1] answers true
    and [enqueue_limited] accepts a further job: the requester then has two
    pending jobs.  The counter went down once when job 100 was canceled and
    once more when the worker started that same job. *)
Theorem late_cancel_frees_the_slot_twice :
  exists s0 s,
    __init__ 1 1 = Returned s0
    /\ run late_cancel_ops s0 = Some s
    /\ message_id <$> pending_jobs 7 s = [101]
    /\ pending_count_by_user s 7 = 0
    /\ can_enqueue 7 (Some 1) s = true
    /\ (let third := mkJob 1 1 102 "third" 7 "a" false false false in
        (enqueue_limited "a" third (Some 1) s).1 = Returned true
        /\ message_id <$> pending_jobs 7 (enqueue_limited "a" third (Some 1) s).2
           = [101; 102]).
Proof.
  do 2 eexists. split; [reflexivity|]. split; [vm_compute; reflexivity|].
  repeat split; vm_compute; reflexivity.
Qed.

End JobsQueueProps.

(* ===================================================================== *)
(** ** Properties of the protocol client                                 *)
(* ===================================================================== *)

Module ProtocolProps.
Import Protocol.

(** A round that neither trips the deadline nor ends the loop. *)
Definition passes (run_timeout : Z) (start_ts : time) (prompt_id : string)
    (it : iteration) : Prop :=
  in_time run_timeout start_ts it /\ ends_loop prompt_id (received it) = false.

(** What the start reading becomes over a stretch of rounds. *)
Definition start_after (prompt_id : string) (acc : option time) (its : list iteration)
    : option time :=
  match acc with
  | Some t => Some t
  | None => t_execStart prompt_id its
  end.

Lemma await_done rt st pid its : forall acc ts td,
  await_events rt st pid acc its = Done ts td ->
  t_execDone pid its = Some td /\ ts = start_after pid acc its.
Proof.
  induction its as [|it rest IH]; intros acc ts td; simpl; [done|].
  destruct (rt <? check_time it - st); [done|].
  unfold t_execDone, start_after in *. simpl.
  destruct (received it) as [| | |e] eqn:Er; simpl.
  - intros H. apply IH in H as [H1 ->]. split; [exact H1|by destruct acc].
  - intros H. apply IH in H as [H1 ->]. split; [exact H1|by destruct acc].
  - intros H. apply IH in H as [H1 ->]. split; [exact H1|by destruct acc].
  - destruct e as [p node|p msg|]; simpl.
    + destruct (bool_decide (p = Some pid)) eqn:Ep.
      * destruct node as [n|]; simpl.
        -- intros H. apply IH in H as [H1 ->]. split; [exact H1|by destruct acc].
        -- intros [= <- <-]. split; [done|by destruct acc].
      * destruct node as [n|]; simpl;
          intros H; apply IH in H as [H1 ->]; (split; [exact H1|by destruct acc]).
    + done.
    + intros H. apply IH in H as [H1 ->]. split; [exact H1|by destruct acc].
Qed.

Lemma completed_inv rt w res :
  submit_and_wait rt w = Completed res ->
  exists pid ts td m,
    connect_ok w = true /\ posted w = Some pid
    /\ await_events rt (start_ts w) pid None (iterations w) = Done ts td
    /\ history w = Some m
    /\ res = mkResult m (timings (t_queued w) ts td (final_time w)).1
               (timings (t_queued w) ts td (final_time w)).2.
Proof.
  unfold submit_and_wait.
  destruct (connect_ok w); [|done]. simpl.
  destruct (posted w) as [pid|]; [|done].
  destruct (await_events rt (start_ts w) pid None (iterations w)) as [ts td|f|] eqn:Ea;
    try done.
  destruct (history w) as [m|]; [|done].
  destruct (timings (t_queued w) ts td (final_time w)) as [q e] eqn:Et.
  intros [= <-]. exists pid, ts, td, m. by rewrite Et.
Qed.

(** C5: for a completed run, with [t_execStart] and [t_execDone] the clock
    readings taken at the first event that shows the tracked execution
    running and at its completion event: both durations are non-negative;
    and, the completion reading being a wall-clock value (not zero), the
    queue time is max(0, t_execStart - t_submitted) and the execution time
    max(0, t_execDone - t_execStart) when a start was observed, while the
    queue time is max(0, t_execDone - t_submitted) and the execution time
    zero when none was. *)
Theorem timings_of_completed_run (run_timeout : Z) (w : world) (res : GenerationResult) :
  submit_and_wait run_timeout w = Completed res ->
  exists prompt_id t_done,
    posted w = Some prompt_id
    /\ t_execDone prompt_id (iterations w) = Some t_done
    /\ 0 <= comfy_queue_s res /\ 0 <= comfy_exec_s res
    /\ (t_done <> 0 ->
        (forall t_start,
           t_execStart prompt_id (iterations w) = Some t_start ->
           comfy_queue_s res = Z.max 0 (t_start - t_queued w)
           /\ comfy_exec_s res = Z.max 0 (t_done - t_start))
        /\ (t_execStart prompt_id (iterations w) = None ->
            comfy_queue_s res = Z.max 0 (t_done - t_queued w)
            /\ comfy_exec_s res = 0)).
Proof.
  intros Hc. apply completed_inv in Hc as (pid & ts & td & m & _ & Hp & Ha & _ & ->).
  apply await_done in Ha as [Hd ->]. simpl.
  exists pid, td. split; [done|]. split; [done|].
  unfold timings.
  destruct (t_execStart pid (iterations w)) as [t0|]; simpl.
  - split; [lia|]. split; [lia|]. intros Hnz. unfold or_now.
    destruct (Z.eqb_spec td 0); [done|]. split; [|done].
    by intros t_start [= <-].
  - split; [lia|]. split; [lia|]. intros Hnz. unfold or_now.
    destruct (Z.eqb_spec td 0); [done|]. split; [done|]. done.
Qed.

(** Scenario D of the specification: a start event, then completion. *)
Definition scenario_D : world :=
  mkWorld 1000 true (Some "p1") 1002
    [mkIteration 1003 (Message (Executing (Some "p1") (Some "3"))) 1010;
     mkIteration 1011 Binary 1011;
     mkIteration 1012 (Message (Executing (Some "p1") None)) 1050]
    (Some [mkMediaURL "http://comfy/view?filename=a.png" "a.png" "" "image" "image/png"])
    1051.

Lemma timings_of_completed_run_witness :
  exists res,
    submit_and_wait 300 scenario_D = Completed res
    /\ comfy_queue_s res = 8 /\ comfy_exec_s res = 40.
Proof.
  eexists. split; [reflexivity|].
  destruct (timings_of_completed_run 300 scenario_D _ eq_refl)
    as (pid & td & Hp & Hd & _ & _ & H).
  injection Hp as <-. injection Hd as <-.
  destruct (H ltac:(lia)) as [H1 _].
  destruct (H1 1010 eq_refl) as [Hq He].
  split; [exact Hq|exact He].
Defined.

(** *** Execution errors *)

(** The loop runs through rounds that pass. *)
Lemma await_passes rt st pid pre : forall acc rest,
  Forall (passes rt st pid) pre ->
  exists acc',
    await_events rt st pid acc (pre ++ rest) = await_events rt st pid acc' rest.
Proof.
  induction pre as [|it pre IH]; intros acc rest Hall; simpl.
  - by exists acc.
  - apply Forall_cons in Hall as [[Hin Hend] Hall].
    unfold in_time in Hin. destruct (Z.ltb_spec rt (check_time it - st)); [lia|].
    unfold ends_loop in Hend. apply orb_false_iff in Hend as [Hc He].
    destruct (received it) as [| | |[p node|p msg|]]; simpl in *; try done;
      try (by apply IH).
    destruct (bool_decide (p = Some pid)); [|by apply IH].
    destruct node; [by apply IH|done].
Qed.

(** C7 as the specification words it: an execution error of the tracked
    execution, delivered before any completion event, fails the call with
    exactly the message the engine reported. *)
Definition error_surfaced_verbatim : Prop :=
  forall run_timeout w prompt_id pre it post msg,
    connect_ok w = true -> posted w = Some prompt_id ->
    iterations w = pre ++ it :: post ->
    received it = Message (ExecutionError (Some prompt_id) (Some msg)) ->
    Forall (passes run_timeout (start_ts w) prompt_id) pre ->
    in_time run_timeout (start_ts w) it ->
    submit_and_wait run_timeout w = Aborted (ProtocolError msg).

(** A node that fails with an exception without text. *)
Definition empty_error_world : world :=
  mkWorld 1000 true (Some "p1") 1002
    [mkIteration 1003 (Message (ExecutionError (Some "p1") (Some ""))) 1003]
    (Some []) 1004.

(** C7 does not hold as worded: an empty message is not surfaced as it is. *)
Lemma error_surfaced_verbatim_fails : ~ error_surfaced_verbatim.
Proof.
  intros H.
  specialize (H 300 empty_error_world "p1" []
                (mkIteration 1003 (Message (ExecutionError (Some "p1") (Some ""))) 1003)
                [] "" eq_refl eq_refl eq_refl eq_refl (Forall_nil_2 _)).
  assert (in_time 300 (start_ts empty_error_world)
            (mkIteration 1003 (Message (ExecutionError (Some "p1") (Some ""))) 1003)) as Hin.
  { unfold in_time. simpl. lia. }
  specialize (H Hin). vm_compute in H. discriminate H.
Qed.

(** C7, amended: when the first execution error that the await loop reads
    is the one of the tracked execution, and it is read before the
    completion event and before the deadline check trips, the call fails
    with the engine's message as it stands if that message is not empty,
    and with the fixed text "ComfyUI execution error" if it is empty or
    missing; no result, hence no artifact, is returned. *)
Theorem execution_error_surfaced (run_timeout : Z) (w : world) (prompt_id : string)
    (pre post : list iteration) (it : iteration) (msg : option string) :
  connect_ok w = true -> posted w = Some prompt_id ->
  iterations w = pre ++ it :: post ->
  received it = Message (ExecutionError (Some prompt_id) msg) ->
  Forall (passes run_timeout (start_ts w) prompt_id) pre ->
  in_time run_timeout (start_ts w) it ->
  submit_and_wait run_timeout w = Aborted (ProtocolError (reported_message msg))
  /\ (forall m, msg = Some m -> m <> "" -> reported_message msg = m)
  /\ (msg = None \/ msg = Some "" -> reported_message msg = "ComfyUI execution error")
  /\ (forall res, submit_and_wait run_timeout w <> Completed res).
Proof.
  intros Hc Hp Hits Hr Hpre Hin.
  assert (submit_and_wait run_timeout w = Aborted (ProtocolError (reported_message msg)))
    as Hrun.
  { unfold submit_and_wait. rewrite Hc, Hp, Hits. simpl.
    destruct (await_passes run_timeout (start_ts w) prompt_id pre None (it :: post) Hpre)
      as [acc' ->].
    simpl. unfold in_time in Hin.
    destruct (Z.ltb_spec run_timeout (check_time it - start_ts w)); [lia|].
    by rewrite Hr. }
  split; [exact Hrun|]. split; [|split].
  - intros m -> Hne. destruct m; [done|reflexivity].
  - intros [->| ->]; reflexivity.
  - intros res. rewrite Hrun. discriminate.
Qed.

(** Scenario E of the specification. *)
Definition scenario_E : world :=
  mkWorld 1000 true (Some "p1") 1002
    [mkIteration 1003 (Message (Executing (Some "p1") (Some "3"))) 1004;
     mkIteration 1005 (Message (ExecutionError (Some "p1") (Some "OOM"))) 1006]
    (Some []) 1007.

Lemma execution_error_surfaced_witness :
  submit_and_wait 300 scenario_E = Aborted (ProtocolError "OOM").
Proof.
  apply (execution_error_surfaced 300 scenario_E "p1"
           [mkIteration 1003 (Message (Executing (Some "p1") (Some "3"))) 1004] []
           (mkIteration 1005 (Message (ExecutionError (Some "p1") (Some "OOM"))) 1006)
           (Some "OOM")).
  - reflexivity.
  - reflexivity.
  - reflexivity.
  - reflexivity.
  - apply Forall_cons. split; [|apply Forall_nil_2].
    split; [unfold in_time; simpl; lia|reflexivity].
  - unfold in_time. simpl. lia.
Defined.

(** The same stream with an error of another execution in front: the loop
    does not compare the prompt id of an [execution_error] frame. *)
Example foreign_error_first :
  submit_and_wait 300
    (mkWorld 1000 true (Some "p1") 1002
       [mkIteration 1003 (Message (ExecutionError (Some "p2") (Some "X"))) 1004;
        mkIteration 1005 (Message (ExecutionError (Some "p1") (Some "OOM"))) 1006]
       (Some []) 1007)
  = Aborted (ProtocolError "X").
Proof. reflexivity. Qed.

(** *** The run timeout *)

Definition is_terminal_for (prompt_id : string) (f : frame) : bool :=
  is_completion prompt_id f || is_error_for prompt_id f.

(** C8 as the specification words it: the call fails with the timeout
    exactly when no terminal event of the tracked execution arrives within
    [run_timeout] of the submission of the graph. *)
Definition timeout_iff_no_terminal_event : Prop :=
  forall run_timeout w prompt_id,
    connect_ok w = true -> posted w = Some prompt_id ->
    (submit_and_wait run_timeout w = Aborted GenerationTimeout <->
     ~ exists it,
         it ∈ iterations w
         /\ is_terminal_for prompt_id (received it) = true
         /\ handle_time it - t_queued w <= run_timeout).

(** The deadline check passes at 299 s, the read then blocks, and the
    completion event comes in 400 s after the start. *)
Definition late_completion : world :=
  mkWorld 0 true (Some "p1") 1
    [mkIteration 299 (Message (Executing (Some "p1") None)) 400]
    (Some []) 401.

(** C8 does not hold as worded: the late completion ends the run normally. *)
Lemma timeout_iff_no_terminal_event_fails : ~ timeout_iff_no_terminal_event.
Proof.
  intros H. specialize (H 300 late_completion "p1" eq_refl eq_refl).
  destruct H as [_ H].
  assert (submit_and_wait 300 late_completion = Aborted GenerationTimeout) as Habs.
  { apply H. intros (it & Hin & _ & Hle).
    apply list_elem_of_singleton in Hin as ->. simpl in Hle. lia. }
  vm_compute in Habs. discriminate Habs.
Qed.

(** The deadline counts from the beginning of the call, not from the
    submission: here the graph is queued 100 s into the call and the loop
    gives up 250 s later, one second before the completion event. *)
Example deadline_counts_from_start :
  submit_and_wait 300
    (mkWorld 0 true (Some "p1") 100
       [mkIteration 350 (Message (Executing (Some "p1") None)) 351]
       (Some []) 352)
  = Aborted GenerationTimeout.
Proof. reflexivity. Qed.

Lemma await_timeout_iff rt st pid its : forall acc,
  await_events rt st pid acc its = Failed GenerationTimeout <->
  exists pre it post,
    its = pre ++ it :: post
    /\ Forall (passes rt st pid) pre
    /\ rt < check_time it - st.
Proof.
  induction its as [|it rest IH]; intros acc; simpl.
  - split; [done|]. intros (pre & it & post & H & _). by destruct pre.
  - destruct (Z.ltb_spec rt (check_time it - st)) as [Hlt|Hge].
    + split; [|done]. intros _. exists [], it, rest. split; [done|].
      split; [apply Forall_nil_2|done].
    + assert (forall acc',
                ends_loop pid (received it) = false ->
                await_events rt st pid acc' rest = Failed GenerationTimeout <->
                exists pre it0 post,
                  it :: rest = pre ++ it0 :: post
                  /\ Forall (passes rt st pid) pre /\ rt < check_time it0 - st) as Hgo.
      { intros acc' Hend. rewrite IH. split.
        - intros (pre & it0 & post & -> & Hall & Hlt).
          exists (it :: pre), it0, post. split; [done|]. split; [|done].
          apply Forall_cons. split; [|done]. split; [exact Hge|done].
        - intros (pre & it0 & post & Heq & Hall & Hlt).
          destruct pre as [|it1 pre]; simpl in Heq.
          + injection Heq as <- _. lia.
          + injection Heq as <- ->. apply Forall_cons in Hall as [_ Hall].
            by exists pre, it0, post. }
      assert (ends_loop pid (received it) = true ->
              ~ exists pre it0 post,
                  it :: rest = pre ++ it0 :: post
                  /\ Forall (passes rt st pid) pre /\ rt < check_time it0 - st) as Hstop.
      { intros Hend (pre & it0 & post & Heq & Hall & Hlt).
        destruct pre as [|it1 pre]; simpl in Heq.
        - injection Heq as <- _. lia.
        - injection Heq as <- ->. apply Forall_cons in Hall as [[_ Hn] _]. congruence. }
      unfold ends_loop in *.
      destruct (received it) as [| | |[p node|p msg|]]; simpl in *;
        try (by apply Hgo).
      * destruct node as [n|]; simpl in *.
        -- destruct (bool_decide (p = Some pid)); by apply Hgo.
        -- destruct (bool_decide (p = Some pid)); [|by apply Hgo].
           split; [done|]. intros H. by apply Hstop in H.
      * split; [done|]. intros H. by apply Hstop in H.
Qed.

(** C8, amended: the call fails with the timeout exactly when some round of
    the await loop starts with the clock more than [run_timeout] past
    [start_ts], the reading taken at the beginning of the call before the
    channel is opened and the graph submitted, and no earlier round read
    the completion event of the tracked execution or an execution error.
    The deadline is looked at between reads only. *)
Theorem timeout_iff_deadline_check_trips (run_timeout : Z) (w : world) :
  submit_and_wait run_timeout w = Aborted GenerationTimeout <->
  connect_ok w = true
  /\ exists prompt_id pre it post,
       posted w = Some prompt_id
       /\ iterations w = pre ++ it :: post
       /\ Forall (passes run_timeout (start_ts w) prompt_id) pre
       /\ run_timeout < check_time it - start_ts w.
Proof.
  unfold submit_and_wait.
  destruct (connect_ok w); simpl; [|split; [done|intros [[=] _]]].
  destruct (posted w) as [pid|]; [|split; [done|intros (_ & ? & ? & ? & ? & [=] & _)]].
  pose proof (await_timeout_iff run_timeout (start_ts w) pid (iterations w) None) as Hiff.
  destruct (await_events run_timeout (start_ts w) pid None (iterations w)) as [ts td|f|] eqn:Ea.
  - split.
    + destruct (history w); [|done].
      by destruct (timings (t_queued w) ts td (final_time w)).
    + intros (_ & pid' & pre & it & post & [= <-] & H).
      assert (Done ts td = Failed GenerationTimeout) as Habs; [|done].
      apply Hiff. by exists pre, it, post.
  - split.
    + intros [= ->]. split; [done|].
      destruct Hiff as [Hiff _]. destruct (Hiff eq_refl) as (pre & it & post & H).
      by exists pid, pre, it, post.
    + intros (_ & pid' & pre & it & post & [= <-] & H).
      f_equal. assert (Failed f = Failed GenerationTimeout) as Heq; [|by injection Heq].
      apply Hiff. by exists pre, it, post.
  - split; [done|].
    intros (_ & pid' & pre & it & post & [= <-] & H).
    assert (Starved = Failed GenerationTimeout) as Habs; [|done].
    apply Hiff. by exists pre, it, post.
Qed.

End ProtocolProps.

(* ===================================================================== *)
(** ** Properties of the templating engine                               *)
(* ===================================================================== *)

Module WorkflowProps.
Import Workflow.

(** *** Reading the graph *)

(** The node exists and owns an [inputs] object. *)
Definition writable (wf : workflow) (nid : string) : Prop :=
  exists nd ins, wf !! nid = Some nd /\ inputs nd = Some ins.

(** [wf[nid]["inputs"][k]], when all three exist. *)
Definition slot (wf : workflow) (nid k : string) : option value :=
  match wf !! nid with
  | Some nd =>
      match inputs nd with
      | Some ins => ins !! k
      | None => None
      end
  | None => None
  end.

(** No input of any node is an edge into one of [ids]. *)
Definition no_edge_into (ids : list string) (wf : workflow) : Prop :=
  forall nid k v, slot wf nid k = Some v -> is_edge_into ids v = false.

(** *** The primitive write *)

Lemma set_input_Some nid k v wf :
  writable wf nid -> exists wf', set_input nid k v wf = Some wf'.
Proof. intros (nd & ins & Hn & Hi). unfold set_input. rewrite Hn, Hi. eauto. Qed.

Lemma set_input_writable nid k v wf wf' :
  set_input nid k v wf = Some wf' -> writable wf nid.
Proof.
  unfold set_input, writable. destruct (wf !! nid) as [nd|]; [|done].
  destruct (inputs nd) as [ins|] eqn:E; [|done]. eauto.
Qed.

Lemma set_input_slot nid k v wf wf' nid' k' :
  set_input nid k v wf = Some wf' ->
  slot wf' nid' k' = if decide (nid' = nid /\ k' = k) then Some v else slot wf nid' k'.
Proof.
  unfold set_input, slot. destruct (wf !! nid) as [nd|] eqn:En; [|done].
  destruct (inputs nd) as [ins|] eqn:Ei; [|done]. intros [= <-].
  destruct (decide (nid' = nid)) as [->|Hne].
  - rewrite lookup_insert_eq. simpl. rewrite En, Ei.
    destruct (decide (k' = k)) as [->|Hk].
    + rewrite lookup_insert_eq. by rewrite decide_True.
    + rewrite lookup_insert_ne by done. rewrite decide_False; [done|]. by intros [_ ?].
  - rewrite lookup_insert_ne by done. rewrite decide_False; [done|]. by intros [? _].
Qed.

Lemma set_input_None nid k v wf wf' n :
  set_input nid k v wf = Some wf' -> wf' !! n = None <-> wf !! n = None.
Proof.
  unfold set_input. destruct (wf !! nid) as [nd|] eqn:En; [|done].
  destruct (inputs nd) as [ins|]; [|done]. intros [= <-].
  destruct (decide (nid = n)) as [->|Hne].
  - rewrite lookup_insert_eq, En. done.
  - by rewrite lookup_insert_ne.
Qed.

Lemma set_input_keeps_writable nid k v wf wf' n :
  set_input nid k v wf = Some wf' -> writable wf n -> writable wf' n.
Proof.
  unfold set_input, writable. destruct (wf !! nid) as [nd|] eqn:En; [|done].
  destruct (inputs nd) as [ins|] eqn:Ei; [|done]. intros [= <-] (nd' & ins' & Hn & Hi).
  destruct (decide (nid = n)) as [->|Hne].
  - rewrite lookup_insert_eq. eauto.
  - rewrite lookup_insert_ne by done. eauto.
Qed.

Lemma set_input_writable_back nid k v wf wf' n :
  set_input nid k v wf = Some wf' -> writable wf' n -> writable wf n.
Proof.
  unfold set_input, writable. destruct (wf !! nid) as [nd|] eqn:En; [|done].
  destruct (inputs nd) as [ins|] eqn:Ei; [|done]. intros [= <-] (nd' & ins' & Hn & Hi).
  destruct (decide (nid = n)) as [->|Hne].
  - eauto.
  - rewrite lookup_insert_ne in Hn by done. eauto.
Qed.

(** *** Unlinking and removing *)

Lemma is_edge_into_nil v : is_edge_into [] v = false.
Proof.
  destruct v as [| | | | |[|[] ?]|]; simpl; done.
Qed.

Lemma unlink_remove_lookup wf ids n :
  ids <> [] ->
  _unlink_and_remove_nodes wf ids !! n
  = if decide (n ∈ ids) then None else unlink_node ids <$> wf !! n.
Proof.
  intros Hne. unfold _unlink_and_remove_nodes.
  destruct ids as [|i ids]; [done|].
  destruct (decide (n ∈ i :: ids)) as [Hin|Hin].
  - by apply lookup_foldr_delete.
  - rewrite lookup_foldr_delete_not_elem_of by done. apply lookup_fmap.
Qed.

Lemma unlink_remove_None wf ids n :
  _unlink_and_remove_nodes wf ids !! n = None <-> n ∈ ids \/ wf !! n = None.
Proof.
  destruct ids as [|i ids].
  - simpl. split; [by right|]. intros [H|H]; [by apply elem_of_nil in H|done].
  - rewrite unlink_remove_lookup by done.
    destruct (decide (n ∈ i :: ids)); [by split; [left|]|].
    rewrite fmap_None. split; [by right|]. by intros [?|?].
Qed.

Lemma unlink_remove_slot wf ids n k :
  slot (_unlink_and_remove_nodes wf ids) n k
  = if decide (n ∈ ids) then None
    else
      match slot wf n k with
      | Some v => if is_edge_into ids v then None else Some v
      | None => None
      end.
Proof.
  destruct ids as [|i ids].
  - destruct (decide (n ∈ [])) as [H|_]; [by apply elem_of_nil in H|]. simpl.
    destruct (slot wf n k) as [v|]; [|done]. by rewrite is_edge_into_nil.
  - unfold slot. rewrite unlink_remove_lookup by done.
    destruct (decide (n ∈ i :: ids)); [done|].
    destruct (wf !! n) as [nd|]; simpl; [|done].
    destruct (inputs nd) as [ins|]; simpl; [|done].
    unfold unlink_inputs. rewrite lookup_omap.
    by destruct (ins !! k).
Qed.

Lemma unlink_remove_writable wf ids n :
  n ∉ ids -> writable wf n -> writable (_unlink_and_remove_nodes wf ids) n.
Proof.
  intros Hn (nd & ins & Hl & Hi). unfold writable.
  destruct ids as [|i ids]; [simpl; eauto|].
  rewrite unlink_remove_lookup by done. rewrite decide_False by done.
  rewrite Hl. simpl. eexists _, _. split; [done|]. simpl. by rewrite Hi.
Qed.

Lemma unlink_remove_no_edge wf ids : no_edge_into ids (_unlink_and_remove_nodes wf ids).
Proof.
  intros n k v. rewrite unlink_remove_slot.
  destruct (decide (n ∈ ids)); [done|].
  destruct (slot wf n k) as [v0|]; [|done].
  destruct (is_edge_into ids v0) eqn:E; [done|]. by intros [= <-].
Qed.

(** *** Loops of writes *)

Lemma write_all_slot nids k v : forall wf wf' nid' k',
  write_all nids k v wf = Some wf' ->
  slot wf' nid' k' = if decide (nid' ∈ nids /\ k' = k) then Some v else slot wf nid' k'.
Proof.
  induction nids as [|nid nids IH]; intros wf wf' nid' k'; cbn [write_all].
  - intros [= <-]. rewrite decide_False; [done|]. intros [H _]. by apply elem_of_nil in H.
  - destruct (set_input nid k v wf) as [wf1|] eqn:E; [|done]. intros Hw.
    rewrite (IH _ _ _ _ Hw), (set_input_slot _ _ _ _ _ _ _ E).
    destruct (decide (nid' ∈ nids /\ k' = k)) as [[Hin ->]|Hn].
    + rewrite decide_True; [done|]. split; [by right|done].
    + destruct (decide (nid' = nid /\ k' = k)) as [[-> ->]|Hn2].
      * rewrite decide_True; [done|]. split; [by left|done].
      * rewrite decide_False; [done|]. intros [Hin ->].
        apply elem_of_cons in Hin as [->|Hin]; [by apply Hn2|by apply Hn].
Qed.

Lemma write_all_None nids k v : forall wf wf' n,
  write_all nids k v wf = Some wf' -> wf' !! n = None <-> wf !! n = None.
Proof.
  induction nids as [|nid nids IH]; intros wf wf' n; simpl.
  - by intros [= <-].
  - destruct (set_input nid k v wf) as [wf1|] eqn:E; [|done]. intros Hw.
    rewrite (IH _ _ _ Hw). by eapply set_input_None.
Qed.

Lemma write_all_keeps_writable nids k v : forall wf wf' n,
  write_all nids k v wf = Some wf' -> writable wf n -> writable wf' n.
Proof.
  induction nids as [|nid nids IH]; intros wf wf' n; simpl.
  - by intros [= <-].
  - destruct (set_input nid k v wf) as [wf1|] eqn:E; [|done]. intros Hw Hn.
    apply (IH _ _ _ Hw). by eapply set_input_keeps_writable.
Qed.

Lemma write_all_Some nids k v : forall wf,
  Forall (writable wf) nids -> exists wf', write_all nids k v wf = Some wf'.
Proof.
  induction nids as [|nid nids IH]; intros wf Hall; simpl; [eauto|].
  apply Forall_cons in Hall as [Hn Hall].
  destruct (set_input_Some nid k v wf Hn) as [wf1 E]. rewrite E.
  apply IH. eapply Forall_impl; [exact Hall|]. intros n. by eapply set_input_keeps_writable.
Qed.

Lemma write_all_writable nids k v : forall wf wf',
  write_all nids k v wf = Some wf' -> Forall (writable wf) nids.
Proof.
  induction nids as [|nid nids IH]; intros wf wf'; simpl; [by constructor|].
  destruct (set_input nid k v wf) as [wf1|] eqn:E; [|done]. intros Hw.
  apply Forall_cons. split; [by eapply set_input_writable|].
  eapply Forall_impl; [exact (IH _ _ Hw)|]. intros n. by eapply set_input_writable_back.
Qed.

Lemma write_if_present_keeps_writable r ov wf wf' n :
  write_if_present r ov wf = Some wf' -> writable wf n -> writable wf' n.
Proof.
  unfold write_if_present.
  destruct ov as [v|]; [apply write_all_keeps_writable|by intros [= <-]].
Qed.

(** An invariant of the graph goes through a loop over the rules. *)
Lemma for_rules_invariant (P : workflow -> Prop) body (rules : list NodeRule) :
  (forall r wf wf', r ∈ rules -> P wf -> body r wf = Some wf' -> P wf') ->
  forall wf wf', P wf -> for_rules body rules wf = Some wf' -> P wf'.
Proof.
  induction rules as [|r rules IH]; intros Hbody wf wf' HP; simpl.
  - by intros [= <-].
  - destruct (body r wf) as [wf1|] eqn:E; [|done]. intros Hr.
    apply (IH (fun r0 w w' Hin => Hbody r0 w w' (list_elem_of_further _ _ _ Hin)) wf1);
      [|done].
    apply (Hbody r wf); [apply list_elem_of_here|done|done].
Qed.

Lemma for_rules_app body (l1 l2 : list NodeRule) wf :
  for_rules body (l1 ++ l2) wf
  = match for_rules body l1 wf with
    | Some wf1 => for_rules body l2 wf1
    | None => None
    end.
Proof.
  revert wf. induction l1 as [|r l1 IH]; intros wf; simpl; [done|].
  destruct (body r wf); [apply IH|done].
Qed.

(** *** The seed *)

Lemma effective_params_seeded params g seed :
  get_present params "seed" = Some seed -> effective_params params g = (params, g).
Proof. unfold effective_params. by intros ->. Qed.

Lemma effective_params_unseeded params g :
  get_present params "seed" = None ->
  effective_params params g
  = (<["seed" := VInt (0 + source g (draws g) `mod` (2 ^ 48 - 1 - 0 + 1))]> params,
     mkRng (S (draws g)) (source g)).
Proof. unfold effective_params. by intros ->. Qed.

Lemma get_present_effective params g k :
  k <> "seed" -> get_present (effective_params params g).1 k = get_present params k.
Proof.
  intros Hk. unfold effective_params.
  destruct (get_present params "seed"); [done|]. simpl.
  unfold get_present. by rewrite lookup_insert_ne.
Qed.

Lemma get_present_effective_seed params g v :
  get_present (effective_params params g).1 "seed" = Some v ->
  get_present params "seed" = Some v \/ exists z, v = VInt z /\ 0 <= z < 2 ^ 48.
Proof.
  unfold effective_params.
  destruct (get_present params "seed") as [s|] eqn:E; simpl.
  - rewrite E. by left.
  - unfold get_present. rewrite lookup_insert_eq. intros [= <-]. right.
    eexists. split; [done|].
    pose proof (Z.mod_pos_bound (source g (draws g)) (2 ^ 48 - 1 - 0 + 1)). lia.
Qed.

(** C4: with a seed in [params] the rendered graph does not depend on the
    state of the random generator, which is left untouched; in general one
    call draws once when [params] has no seed (or a null one) and never
    otherwise, and the drawn seed lies in the 48-bit range. *)
Theorem prepare_workflow_deterministic_with_seed (base_workflow : workflow)
    (nodes_map : NodesMap) (prompt : string) (params : gmap string value) :
  (forall seed,
     get_present params "seed" = Some seed ->
     forall g1 g2,
       (prepare_workflow base_workflow nodes_map prompt params g1).1
       = (prepare_workflow base_workflow nodes_map prompt params g2).1
       /\ (prepare_workflow base_workflow nodes_map prompt params g1).2 = g1)
  /\ (forall g,
        draws (prepare_workflow base_workflow nodes_map prompt params g).2
        = (draws g + match get_present params "seed" with Some _ => 0 | None => 1 end)%nat)
  /\ (forall g,
        get_present params "seed" = None ->
        exists z,
          0 <= z < 2 ^ 48
          /\ (prepare_workflow base_workflow nodes_map prompt params g).1
             = apply_rules (nodes nodes_map) prompt (<["seed" := VInt z]> params)
                 base_workflow).
Proof.
  unfold prepare_workflow. split; [|split].
  - intros seed Hs g1 g2. by rewrite !(effective_params_seeded _ _ _ Hs).
  - intros g. destruct (get_present params "seed") as [seed|] eqn:Hs.
    + rewrite (effective_params_seeded _ _ _ Hs). simpl. lia.
    + rewrite (effective_params_unseeded _ _ Hs). simpl. lia.
  - intros g Hs. rewrite (effective_params_unseeded _ _ Hs). simpl.
    eexists. split; [|reflexivity].
    pose proof (Z.mod_pos_bound (source g (draws g)) (2 ^ 48 - 1 - 0 + 1)). lia.
Qed.

(** *** Sequential assignment of images *)

Lemma assign_images_None nids k : forall vals wf n,
  assign_images nids k vals wf !! n = None <-> wf !! n = None.
Proof.
  induction nids as [|nid nids IH]; intros vals wf n; simpl; [done|].
  destruct vals as [|v vals]; [done|]. rewrite IH.
  destruct (set_input nid k v wf) as [wf1|] eqn:E; simpl; [|done].
  by eapply set_input_None.
Qed.

Lemma assign_images_keeps_writable nids k : forall vals wf n,
  writable wf n -> writable (assign_images nids k vals wf) n.
Proof.
  induction nids as [|nid nids IH]; intros vals wf n Hn; simpl; [done|].
  destruct vals as [|v vals]; [done|]. apply IH.
  destruct (set_input nid k v wf) as [wf1|] eqn:E; simpl; [|done].
  by eapply set_input_keeps_writable.
Qed.

(** Whatever an input holds after the assignment was there before or is
    one of the assigned values. *)
Lemma assign_images_slot_origin nids k : forall vals wf n k' v,
  slot (assign_images nids k vals wf) n k' = Some v ->
  slot wf n k' = Some v \/ (v ∈ vals /\ n ∈ nids /\ k' = k).
Proof.
  induction nids as [|nid nids IH]; intros vals wf n k' v; simpl; [by left|].
  destruct vals as [|v0 vals]; [by left|]. intros H. apply IH in H as [H|(Hv&Hn&Hk)].
  - destruct (set_input nid k v0 wf) as [wf1|] eqn:E; simpl in H; [|by left].
    rewrite (set_input_slot _ _ _ _ _ _ _ E) in H.
    destruct (decide (n = nid /\ k' = k)) as [[-> ->]|_]; [|by left].
    injection H as <-. right. split; [by left|]. split; [by left|done].
  - right. split; [by right|]. split; [by right|done].
Qed.

Lemma assign_images_slot_other nids k : forall vals wf n k',
  n ∉ nids -> slot (assign_images nids k vals wf) n k' = slot wf n k'.
Proof.
  induction nids as [|nid nids IH]; intros vals wf n k' Hn; simpl; [done|].
  destruct vals as [|v0 vals]; [done|].
  apply not_elem_of_cons in Hn as [Hne Hn]. rewrite IH by done.
  destruct (set_input nid k v0 wf) as [wf1|] eqn:E; simpl; [|done].
  rewrite (set_input_slot _ _ _ _ _ _ _ E). rewrite decide_False; [done|]. by intros [? _].
Qed.

Lemma assign_images_slot_at nids k : forall vals wf i nid v,
  NoDup nids -> Forall (writable wf) nids ->
  nids !! i = Some nid -> vals !! i = Some v ->
  slot (assign_images nids k vals wf) nid k = Some v.
Proof.
  induction nids as [|nid0 nids IH]; intros vals wf i nid v Hnd Hw Hi Hv; [done|].
  destruct vals as [|v0 vals]; [done|]. simpl.
  apply NoDup_cons in Hnd as [Hnotin Hnd]. apply Forall_cons in Hw as [Hw0 Hw].
  destruct (set_input_Some nid0 k v0 wf Hw0) as [wf1 E]. rewrite E. simpl.
  destruct i as [|i]; simpl in Hi, Hv.
  - injection Hi as <-. injection Hv as <-.
    rewrite assign_images_slot_other by done.
    rewrite (set_input_slot _ _ _ _ _ _ _ E). by rewrite decide_True.
  - apply (IH vals wf1 i); try done.
    eapply Forall_impl; [exact Hw|]. intros n. by eapply set_input_keeps_writable.
Qed.

(** *** The pass over [input_images] rules *)

Lemma supplied_images_effective params g :
  supplied_images (effective_params params g).1 = supplied_images params.
Proof. unfold supplied_images. by rewrite get_present_effective. Qed.

(** What the body does to the graph, in one formula. *)
Lemma input_images_body_eq eff r wf :
  rtype_of r = "input_images" ->
  input_images_body eff r wf
  = Some (_unlink_and_remove_nodes
            (assign_images (node_ids r) (key r) (supplied_images eff) wf)
            (drop (length (supplied_images eff)) (node_ids r))).
Proof.
  intros Hk. unfold input_images_body, supplied_images.
  rewrite (bool_decide_eq_true_2 _ Hk).
  destruct (get_present eff "input_images") as [[| | | | |[|v vs]|]|];
    try (destruct (node_ids r); reflexivity).
  set (vals := v :: vs).
  destruct (Nat.ltb_spec (Nat.min (length vals) (length (node_ids r)))
              (length (node_ids r))) as [Hlt|Hge].
  - by rewrite Nat.min_l by lia.
  - rewrite drop_ge by lia. reflexivity.
Qed.

Lemma input_images_body_other eff r wf :
  rtype_of r <> "input_images" -> input_images_body eff r wf = Some wf.
Proof. intros Hk. unfold input_images_body. by rewrite bool_decide_eq_false_2. Qed.

(** *** The pruning invariant *)

(** The targets [ids] of one rule after the images [files] were assigned
    and the surplus pruned: the first targets hold their file names, the
    others are gone, and nothing points at those. *)
Record pruned (ids : list string) (k : string) (files : list string)
    (wf : workflow) : Prop := mkPruned {
  pruned_used : forall i nid f,
    ids !! i = Some nid -> files !! i = Some f -> slot wf nid k = Some (VStr f);
  pruned_gone : forall i nid,
    ids !! i = Some nid -> (length files <= i)%nat -> wf !! nid = None;
  pruned_unlinked : no_edge_into (drop (length files) ids) wf
}.

Lemma used_not_surplus (ids : list string) (m i : nat) nid :
  NoDup ids -> ids !! i = Some nid -> (i < m)%nat -> nid ∉ drop m ids.
Proof.
  intros Hnd Hi Hlt Hin. apply list_elem_of_lookup in Hin as [j Hj].
  rewrite lookup_drop in Hj.
  pose proof (NoDup_lookup _ _ _ _ Hnd Hi Hj). lia.
Qed.

Lemma rule_pruned ids k files wf :
  NoDup ids -> Forall (writable wf) ids ->
  pruned ids k files
    (_unlink_and_remove_nodes (assign_images ids k (VStr <$> files) wf)
       (drop (length files) ids)).
Proof.
  intros Hnd Hw. split.
  - intros i nid f Hi Hf. rewrite unlink_remove_slot.
    rewrite decide_False.
    2:{ apply (used_not_surplus ids _ i); [done|done|]. by apply lookup_lt_Some in Hf. }
    rewrite (assign_images_slot_at ids k (VStr <$> files) wf i nid (VStr f)); try done.
    by rewrite list_lookup_fmap, Hf.
  - intros i nid Hi Hle. apply unlink_remove_None. left.
    apply list_elem_of_lookup. exists (i - length files)%nat.
    rewrite lookup_drop. by replace (length files + (i - length files))%nat with i by lia.
  - apply unlink_remove_no_edge.
Qed.

Lemma pruned_set_input ids k files wf wf' nid' k' v :
  pruned ids k files wf -> nid' ∉ ids ->
  is_edge_into (drop (length files) ids) v = false ->
  set_input nid' k' v wf = Some wf' -> pruned ids k files wf'.
Proof.
  intros [Hu Hg He] Hn Hv Hs. split.
  - intros i nid f Hi Hf. rewrite (set_input_slot _ _ _ _ _ _ _ Hs).
    rewrite decide_False; [by eapply Hu|].
    intros [-> _]. apply Hn. by eapply list_elem_of_lookup_2.
  - intros i nid Hi Hle. rewrite (set_input_None _ _ _ _ _ _ Hs). by eapply Hg.
  - intros n k0 v0. rewrite (set_input_slot _ _ _ _ _ _ _ Hs).
    destruct (decide (n = nid' /\ k0 = k')); [by intros [= <-]|apply He].
Qed.

Lemma pruned_write_all ids k files nids k' v : forall wf wf',
  pruned ids k files wf -> nids ## ids ->
  is_edge_into (drop (length files) ids) v = false ->
  write_all nids k' v wf = Some wf' -> pruned ids k files wf'.
Proof.
  induction nids as [|nid nids IH]; intros wf wf' Hp Hd Hv; simpl.
  - by intros [= <-].
  - destruct (set_input nid k' v wf) as [wf1|] eqn:E; [|done].
    apply IH; [|intros x Hx Hy; apply (Hd x); [by right|done]|done].
    eapply pruned_set_input; [done| |done|done].
    intros Hin. by apply (Hd nid); [left|].
Qed.

Lemma pruned_write_if_present ids k files r ov wf wf' :
  pruned ids k files wf -> node_ids r ## ids ->
  (forall v, ov = Some v -> is_edge_into (drop (length files) ids) v = false) ->
  write_if_present r ov wf = Some wf' -> pruned ids k files wf'.
Proof.
  intros Hp Hd Hv. unfold write_if_present. destruct ov as [v|]; [|by intros [= <-]].
  eapply pruned_write_all; eauto.
Qed.

Lemma pruned_assign_images ids k files nids k' vals wf :
  pruned ids k files wf -> nids ## ids ->
  Forall (fun v => is_edge_into (drop (length files) ids) v = false) vals ->
  pruned ids k files (assign_images nids k' vals wf).
Proof.
  intros [Hu Hg He] Hd Hv. split.
  - intros i nid f Hi Hf. rewrite assign_images_slot_other; [by eapply Hu|].
    intros Hin. apply (Hd nid); [done|]. by eapply list_elem_of_lookup_2.
  - intros i nid Hi Hle. rewrite assign_images_None. by eapply Hg.
  - intros n k0 v0 Hs. apply assign_images_slot_origin in Hs as [Hs|(Hin & _)].
    + by eapply He.
    + rewrite Forall_forall in Hv. by apply Hv.
Qed.

Lemma pruned_unlink_remove ids k files rem wf :
  pruned ids k files wf -> rem ## ids ->
  pruned ids k files (_unlink_and_remove_nodes wf rem).
Proof.
  intros [Hu Hg He] Hd. split.
  - intros i nid f Hi Hf. rewrite unlink_remove_slot.
    rewrite decide_False.
    2:{ intros Hin. apply (Hd nid); [done|]. by eapply list_elem_of_lookup_2. }
    by rewrite (Hu i nid f Hi Hf).
  - intros i nid Hi Hle. apply unlink_remove_None. right. by eapply Hg.
  - intros n k0 v0. rewrite unlink_remove_slot.
    destruct (decide (n ∈ rem)); [done|].
    destruct (slot wf n k0) as [v1|] eqn:Es; [|done].
    destruct (is_edge_into rem v1); [done|]. intros [= <-]. by eapply He.
Qed.

Lemma disjoint_drop (l ids : list string) n : l ## ids -> drop n l ## ids.
Proof.
  intros Hd x Hx. apply (Hd x). apply list_elem_of_lookup in Hx as [j Hj].
  rewrite lookup_drop in Hj. by eapply list_elem_of_lookup_2.
Qed.

Lemma pruned_images_body ids k files eff r wf wf' :
  pruned ids k files wf -> node_ids r ## ids ->
  Forall (fun v => is_edge_into (drop (length files) ids) v = false)
    (supplied_images eff) ->
  input_images_body eff r wf = Some wf' -> pruned ids k files wf'.
Proof.
  intros Hp Hd Hv.
  destruct (decide (rtype_of r = "input_images")) as [Hk|Hk].
  - rewrite input_images_body_eq by done. intros [= <-].
    apply pruned_unlink_remove; [|by apply disjoint_drop].
    by apply pruned_assign_images.
  - rewrite input_images_body_other by done. by intros [= <-].
Qed.

Lemma pruned_scalar_body ids k files eff r wf wf' :
  pruned ids k files wf ->
  rtype_of r = "input_images" \/ node_ids r ## ids ->
  (forall v,
     skipped_by_scalar_loop (rtype_of r) = false ->
     get_present eff (rtype_of r) = Some v ->
     is_edge_into (drop (length files) ids) v = false) ->
  scalar_body eff r wf = Some wf' -> pruned ids k files wf'.
Proof.
  intros Hp Hd Hv. unfold scalar_body.
  destruct (skipped_by_scalar_loop (rtype_of r)) eqn:Es; [by intros [= <-]|].
  destruct Hd as [Hk|Hd].
  - rewrite Hk in Es. done.
  - apply pruned_write_if_present; [done|done|]. intros v. by apply Hv.
Qed.

(** The targets stay writable through the earlier loops. *)
Lemma text_like_keeps_writable prompt eff r wf wf' n :
  text_like_body prompt eff r wf = Some wf' -> writable wf n -> writable wf' n.
Proof.
  unfold text_like_body.
  destruct (bool_decide (rtype_of r = "")); [by intros [= <-]|].
  destruct (bool_decide (rtype_of r = "prompt")); [apply write_all_keeps_writable|].
  destruct (bool_decide (rtype_of r = "negative_prompt"));
    [apply write_if_present_keeps_writable|].
  destruct (param_key_of r); [apply write_if_present_keeps_writable|by intros [= <-]].
Qed.

Lemma input_image_keeps_writable eff r wf wf' n :
  input_image_body eff r wf = Some wf' -> writable wf n -> writable wf' n.
Proof.
  unfold input_image_body.
  destruct (bool_decide (rtype_of r = "input_image"));
    [apply write_if_present_keeps_writable|by intros [= <-]].
Qed.

Lemma images_body_keeps_writable eff r wf wf' n :
  n ∉ node_ids r ->
  input_images_body eff r wf = Some wf' -> writable wf n -> writable wf' n.
Proof.
  intros Hn. destruct (decide (rtype_of r = "input_images")) as [Hk|Hk].
  - rewrite input_images_body_eq by done. intros [= <-] Hw.
    apply unlink_remove_writable; [|by apply assign_images_keeps_writable].
    intros Hin. apply Hn. apply list_elem_of_lookup in Hin as [j Hj].
    rewrite lookup_drop in Hj. by eapply list_elem_of_lookup_2.
  - rewrite input_images_body_other by done. by intros [= <-].
Qed.

Lemma bind_Some_inv {A B} (o : option A) (f : A -> option B) b :
  o ≫= f = Some b -> exists a, o = Some a /\ f a = Some b.
Proof. destruct o as [a|]; simpl; [eauto|done]. Qed.

(** The slot of a rendered graph, when the render returned. *)
Definition slot_of (o : option (gmap string node)) (nid k : string) : option value :=
  o ≫= fun wf => slot wf nid k.

(** C3 as the specification words it, with everything in its favour: the
    texts of the rules are ASCII, the k targets of the rule are pairwise
    distinct, exist in the template with an [inputs] object and are named
    by no other rule, and m < k file names are supplied.  Nothing is asked
    of the other parameters. *)
Definition pruning_leaves_no_dangling_edge : Prop :=
  forall (base_workflow : workflow) (nodes_map : NodesMap) (prompt : string)
         (params : gmap string value) (g : rng) (before after : list NodeRule)
         (rule : NodeRule) (files : list string) (wf' : workflow),
    nodes nodes_map = before ++ rule :: after ->
    ascii_rules (nodes nodes_map) = true ->
    rtype_of rule = "input_images" ->
    NoDup (node_ids rule) ->
    Forall (writable base_workflow) (node_ids rule) ->
    Forall (fun r => node_ids r ## node_ids rule) (before ++ after) ->
    supplied_images params = VStr <$> files ->
    (length files < length (node_ids rule))%nat ->
    (prepare_workflow base_workflow nodes_map prompt params g).1 = Some wf' ->
    (forall i nid f,
       node_ids rule !! i = Some nid -> files !! i = Some f ->
       exists nd ins,
         wf' !! nid = Some nd /\ inputs nd = Some ins
         /\ ins !! key rule = Some (VStr f))
    /\ (forall i nid,
          node_ids rule !! i = Some nid -> (length files <= i)%nat -> wf' !! nid = None)
    /\ (forall nid nd ins k v,
          wf' !! nid = Some nd -> inputs nd = Some ins -> ins !! k = Some v ->
          is_edge_into (drop (length files) (node_ids rule)) v = false).

(** Scenario B of the specification, with a sampler that reads the three
    image loaders and a prompt and a width rule besides. *)
Definition loader : node :=
  mkNode (Some (VStr "LoadImage")) (Some {["image" := VStr ""]}) [].

Definition scenario_B_graph : gmap string node :=
  <["10" := loader]> (<["11" := loader]> (<["12" := loader]>
  (<["5" := mkNode (Some (VStr "CLIPTextEncode")) (Some {["text" := VStr ""]}) []]>
  (<["20" := mkNode (Some (VStr "Sampler"))
               (Some (<["a" := VList [VStr "10"; VInt 0]]>
                     (<["b" := VList [VStr "11"; VInt 0]]>
                     (<["c" := VList [VStr "12"; VInt 0]]>
                     {["width" := VInt 512]})))) []]> ∅)))).

Definition images_rule : NodeRule := mkRule "input_images" ["10"; "11"; "12"] "image" None.

Definition no_draws : rng := mkRng 0 (fun _ => 0).

(** A catch-all rule whose parameter holds an edge: the last loop of the
    code runs after the pruning and writes the value into the sampler. *)
Definition edge_rules : NodesMap :=
  mkNodesMap
    [mkRule "prompt" ["5"] "text" None; images_rule; mkRule "c" ["20"] "c" None]
    ∅.

Definition edge_params : gmap string value :=
  <["input_images" := VList [VStr "a.png"]]>
  (<["c" := VList [VStr "12"; VInt 0]]> {["seed" := VInt 42]}).

(** C3 does not hold as worded: the sampler of the rendered graph reads
    loader 12, which the render removed. *)
Lemma pruning_leaves_no_dangling_edge_fails : ~ pruning_leaves_no_dangling_edge.
Proof.
  intros H.
  set (wf' := default ∅ (prepare_workflow scenario_B_graph edge_rules "a cat" edge_params
                           no_draws).1).
  destruct (H scenario_B_graph edge_rules "a cat" edge_params no_draws
              [mkRule "prompt" ["5"] "text" None] [mkRule "c" ["20"] "c" None]
              images_rule ["a.png"] wf') as (_ & _ & Hedge).
  - reflexivity.
  - reflexivity.
  - vm_compute. reflexivity.
  - apply (bool_decide_unpack _). vm_compute. exact I.
  - repeat (apply Forall_cons; split; [eexists _, _; split; vm_compute; reflexivity|]).
    apply Forall_nil_2.
  - simpl.
    repeat (apply Forall_cons; split;
            [intros x Hx Hy; apply list_elem_of_singleton in Hx; subst x;
             revert Hy; apply (bool_decide_unpack (_ ∉ _)); vm_compute; exact I|]).
    apply Forall_nil_2.
  - vm_compute. reflexivity.
  - simpl. lia.
  - vm_compute. reflexivity.
  - assert (slot wf' "20" "c" = Some (VList [VStr "12"; VInt 0])) as Hs
      by (vm_compute; reflexivity).
    unfold slot in Hs.
    destruct (wf' !! "20") as [nd|] eqn:En; [|discriminate Hs].
    destruct (inputs nd) as [ins|] eqn:Ei; [|discriminate Hs].
    specialize (Hedge "20" nd ins "c" _ En Ei Hs).
    vm_compute in Hedge. discriminate Hedge.
Qed.

(** The two other conditions of the amended statement are needed as
    well.  A target listed twice is both used and removed; and a catch-all
    rule that names a used target under the same key overwrites the file
    name. *)
Example repeated_target_is_removed :
  let rules := mkNodesMap [mkRule "input_images" ["10"; "10"] "image" None] ∅ in
  let params : gmap string value :=
    <["input_images" := VList [VStr "a.png"]]> {["seed" := VInt 42]} in
  (fun wf => wf !! "10") <$> (prepare_workflow scenario_B_graph rules "a cat" params no_draws).1
  = Some None.
Proof. vm_compute. reflexivity. Qed.

Example later_rule_overwrites_file_name :
  let rules :=
    mkNodesMap [images_rule; mkRule "width" ["10"] "image" None] ∅ in
  let params : gmap string value :=
    <["input_images" := VList [VStr "a.png"; VStr "b.png"]]>
    (<["width" := VInt 768]> {["seed" := VInt 42]}) in
  slot_of (prepare_workflow scenario_B_graph rules "a cat" params no_draws).1 "10" "image"
  = Some (VInt 768).
Proof. vm_compute. reflexivity. Qed.

(** C3, amended: take rules whose texts are ASCII, among them a rule of
    kind [input_images] with k pairwise distinct target ids that exist in
    the template and that no other rule of the list names, a list of m < k
    file names under [params["input_images"]] (m = 0 when the entry is
    absent, null, empty or not a list), and catch-all parameter values none
    of which is itself an edge into a surplus id.  Then the rendered graph
    holds the first m targets, each with its file name under the rule's
    key, holds none of the other k - m ids, and no input of any remaining
    node is an edge into one of them. *)
Theorem prepare_workflow_prunes_surplus_images (base_workflow : workflow)
    (nodes_map : NodesMap) (prompt : string) (params : gmap string value) (g : rng)
    (before after : list NodeRule) (rule : NodeRule) (files : list string)
    (wf' : workflow) :
  nodes nodes_map = before ++ rule :: after ->
  ascii_rules (nodes nodes_map) = true ->
  rtype_of rule = "input_images" ->
  NoDup (node_ids rule) ->
  Forall (writable base_workflow) (node_ids rule) ->
  Forall (fun r => node_ids r ## node_ids rule) (before ++ after) ->
  supplied_images params = VStr <$> files ->
  (length files < length (node_ids rule))%nat ->
  (forall r v,
     r ∈ nodes nodes_map -> skipped_by_scalar_loop (rtype_of r) = false ->
     get_present params (rtype_of r) = Some v ->
     is_edge_into (drop (length files) (node_ids rule)) v = false) ->
  (prepare_workflow base_workflow nodes_map prompt params g).1 = Some wf' ->
  (forall i nid f,
     node_ids rule !! i = Some nid -> files !! i = Some f ->
     exists nd ins,
       wf' !! nid = Some nd /\ inputs nd = Some ins
       /\ ins !! key rule = Some (VStr f))
  /\ (forall i nid,
        node_ids rule !! i = Some nid -> (length files <= i)%nat -> wf' !! nid = None)
  /\ (forall nid nd ins k v,
        wf' !! nid = Some nd -> inputs nd = Some ins -> ins !! k = Some v ->
        is_edge_into (drop (length files) (node_ids rule)) v = false).
Proof.
  intros Hrules _ Hkind Hnd Hw Hdisj Hfiles Hlt Hscalar Hret.
  unfold prepare_workflow in Hret.
  destruct (effective_params params g) as [eff g'] eqn:Eeff. simpl in Hret.
  assert (eff = (effective_params params g).1) as Heff by (by rewrite Eeff).
  assert (supplied_images eff = VStr <$> files) as Hsup.
  { rewrite Heff, supplied_images_effective. done. }
  unfold apply_rules in Hret. rewrite Hrules in Hret.
  apply bind_Some_inv in Hret as (wf1 & H1 & Hret).
  apply bind_Some_inv in Hret as (wf2 & H2 & Hret).
  apply bind_Some_inv in Hret as (wf3 & H3 & H4).
  set (ids := node_ids rule) in *. set (rules := before ++ rule :: after) in *.
  (* the targets are still writable when the images loop starts *)
  assert (Forall (writable wf1) ids) as Hw1.
  { revert H1. apply (for_rules_invariant (fun w => Forall (writable w) ids)); [|done].
    intros r w w' _ HP Hb. eapply Forall_impl; [exact HP|].
    intros n. by eapply text_like_keeps_writable. }
  assert (Forall (writable wf2) ids) as Hw2.
  { revert H2. apply (for_rules_invariant (fun w => Forall (writable w) ids)); [|done].
    intros r w w' _ HP Hb. eapply Forall_impl; [exact HP|].
    intros n. by eapply input_image_keeps_writable. }
  apply Forall_app in Hdisj as [Hdb Hda].
  (* the images loop: before the rule, the rule, after the rule *)
  unfold rules in H3. rewrite for_rules_app in H3.
  destruct (for_rules (input_images_body eff) before wf2) as [wa|] eqn:Ha; [|done].
  simpl in H3.
  rewrite input_images_body_eq in H3 by done. rewrite Hsup, length_fmap in H3.
  set (wb := _unlink_and_remove_nodes _ _) in H3.
  assert (Forall (writable wa) ids) as Hwa.
  { revert Ha. apply (for_rules_invariant (fun w => Forall (writable w) ids)); [|done].
    intros r w w' Hin HP Hb. rewrite Forall_forall in Hdb.
    apply Forall_forall. intros n Hn. eapply images_body_keeps_writable; [|done|].
    - intros Hin'. by apply (Hdb r Hin n).
    - rewrite Forall_forall in HP. by apply HP. }
  assert (pruned ids (key rule) files wb) as Hpb by (by apply rule_pruned).
  assert (Forall (fun v => is_edge_into (drop (length files) ids) v = false)
            (supplied_images eff)) as Hstr.
  { rewrite Hsup. apply Forall_fmap, Forall_forall. by intros f _. }
  assert (pruned ids (key rule) files wf3) as Hp3.
  { revert H3. apply (for_rules_invariant (pruned ids (key rule) files)); [|done].
    intros r w w' Hin HP Hb. rewrite Forall_forall in Hda.
    eapply pruned_images_body; [done|by apply Hda|done|done]. }
  (* the scalar loop *)
  assert (pruned ids (key rule) files wf') as [Hu Hg He].
  { revert H4. apply (for_rules_invariant (pruned ids (key rule) files)); [|done].
    intros r w w' Hin HP Hb. eapply pruned_scalar_body; [done| | |done].
    - unfold rules in Hin. apply elem_of_app in Hin as [Hin|Hin].
      + right. rewrite Forall_forall in Hdb. by apply Hdb.
      + apply elem_of_cons in Hin as [->|Hin]; [by left|].
        right. rewrite Forall_forall in Hda. by apply Hda.
    - intros v Hs Hv. destruct (decide (rtype_of r = "seed")) as [Hseed|Hseed].
      + rewrite Hseed, Heff in Hv.
        apply get_present_effective_seed in Hv as [Hv|(z & -> & _)]; [|done].
        apply (Hscalar r v); [by rewrite Hrules|done|by rewrite Hseed].
      + rewrite Heff, get_present_effective in Hv by done.
        apply (Hscalar r v); [by rewrite Hrules|done|done]. }
  split; [|split].
  - intros i nid f Hi Hf. specialize (Hu i nid f Hi Hf). unfold slot in Hu.
    destruct (wf' !! nid) as [nd|]; [|done].
    destruct (inputs nd) as [ins|] eqn:Ei; [|done]. by exists nd, ins.
  - exact Hg.
  - intros nid nd ins k v Hn Hi Hk. apply (He nid k v). unfold slot. by rewrite Hn, Hi.
Qed.

Definition scenario_B_rules : NodesMap :=
  mkNodesMap
    [mkRule "prompt" ["5"] "text" None; images_rule; mkRule "Width" ["20"] "width" None]
    ∅.

Definition scenario_B_params : gmap string value :=
  <["input_images" := VList [VStr "a.png"; VStr "b.png"]]>
  (<["width" := VInt 768]> {["seed" := VInt 42]}).

Lemma prepare_workflow_prunes_surplus_images_witness :
  exists wf',
    (prepare_workflow scenario_B_graph scenario_B_rules "a cat" scenario_B_params
       no_draws).1 = Some wf'
    /\ slot wf' "10" "image" = Some (VStr "a.png")
    /\ slot wf' "11" "image" = Some (VStr "b.png")
    /\ wf' !! "12" = None
    /\ (forall k v, slot wf' "20" k = Some v -> is_edge_into ["12"] v = false).
Proof.
  destruct (prepare_workflow scenario_B_graph scenario_B_rules "a cat" scenario_B_params
              no_draws).1 as [wf'|] eqn:E; [|vm_compute in E; discriminate E].
  exists wf'. split; [reflexivity|].
  destruct (prepare_workflow_prunes_surplus_images scenario_B_graph scenario_B_rules
              "a cat" scenario_B_params no_draws
              [mkRule "prompt" ["5"] "text" None] [mkRule "Width" ["20"] "width" None]
              images_rule ["a.png"; "b.png"] wf') as (Hused & Hgone & Hedge).
  - reflexivity.
  - reflexivity.
  - vm_compute. reflexivity.
  - apply (bool_decide_unpack _). vm_compute. exact I.
  - repeat (apply Forall_cons; split; [eexists _, _; split; vm_compute; reflexivity|]).
    apply Forall_nil_2.
  - simpl.
    repeat (apply Forall_cons; split;
            [intros x Hx Hy; apply list_elem_of_singleton in Hx; subst x;
             revert Hy; apply (bool_decide_unpack (_ ∉ _)); vm_compute; exact I|]).
    apply Forall_nil_2.
  - vm_compute. reflexivity.
  - simpl. lia.
  - intros r v Hin Hs Hv. simpl in Hin.
    repeat (apply elem_of_cons in Hin as [->|Hin];
            [vm_compute in Hs; try discriminate Hs;
             vm_compute in Hv; injection Hv as <-; reflexivity|]).
    by apply elem_of_nil in Hin.
  - exact E.
  - destruct (Hused 0%nat "10" "a.png" eq_refl eq_refl) as (n0 & i0 & Hn0 & Hi0 & Hk0).
    destruct (Hused 1%nat "11" "b.png" eq_refl eq_refl) as (n1 & i1 & Hn1 & Hi1 & Hk1).
    pose proof (Hgone 2%nat "12" eq_refl ltac:(simpl; lia)) as H12.
    split; [unfold slot; by rewrite Hn0, Hi0|].
    split; [unfold slot; by rewrite Hn1, Hi1|].
    split; [exact H12|].
    intros k v Hs. unfold slot in Hs.
    destruct (wf' !! "20") as [nd|] eqn:En; [|done].
    destruct (inputs nd) as [ins|] eqn:Ei; [|done].
    by apply (Hedge "20" nd ins k v).
Defined.

(** *** Writes that commute *)

Definition commute (f g : gmap string node -> option (gmap string node)) : Prop :=
  forall wf, f wf ≫= g = g wf ≫= f.

Lemma commute_sym f g : commute f g -> commute g f.
Proof. intros H wf. symmetry. apply H. Qed.

Lemma commute_Some f : commute f Some.
Proof. intros wf. simpl. by destruct (f wf). Qed.

Lemma commute_seq f g1 g2 :
  commute f g1 -> commute f g2 -> commute f (fun wf => g1 wf ≫= g2).
Proof.
  intros H1 H2 wf. simpl.
  destruct (f wf) as [a|] eqn:Ef; simpl.
  - specialize (H1 wf). rewrite Ef in H1. simpl in H1.
    destruct (g1 wf) as [b|] eqn:Eg; simpl in *.
    + destruct (g1 a) as [c|] eqn:Ega; simpl.
      * specialize (H2 b). rewrite <- H1 in H2. simpl in H2. done.
      * specialize (H2 b). rewrite <- H1 in H2. simpl in H2. done.
    + by rewrite H1.
  - specialize (H1 wf). rewrite Ef in H1. simpl in H1.
    destruct (g1 wf) as [b|] eqn:Eg; simpl in *; [|done].
    specialize (H2 b). rewrite <- H1 in H2. simpl in H2. done.
Qed.

(** Swapping two steps in front of a continuation. *)
Lemma commute_swap f g (h : gmap string node -> option (gmap string node)) wf :
  commute f g ->
  (f wf ≫= fun w => g w ≫= h) = (g wf ≫= fun w => f w ≫= h).
Proof.
  intros H. specialize (H wf).
  destruct (f wf) as [a|], (g wf) as [b|]; simpl in *; try done.
  - by rewrite H.
  - by rewrite H.
  - by rewrite <- H.
Qed.

Lemma commute_set_input n1 k1 v1 n2 k2 v2 :
  n1 <> n2 \/ k1 <> k2 -> commute (set_input n1 k1 v1) (set_input n2 k2 v2).
Proof.
  intros Hne wf. unfold set_input.
  destruct (decide (n1 = n2)) as [->|Hn].
  - destruct Hne as [?|Hk]; [done|].
    destruct (wf !! n2) as [nd|] eqn:En; simpl; [|done].
    destruct (inputs nd) as [ins|] eqn:Ei; simpl; [|done].
    rewrite !lookup_insert_eq. simpl. rewrite !insert_insert_eq.
    by rewrite (insert_insert_ne ins k1 k2) by done.
  - destruct (wf !! n1) as [nd1|] eqn:E1, (wf !! n2) as [nd2|] eqn:E2; simpl;
      try done.
    + destruct (inputs nd1) as [ins1|] eqn:Ei1, (inputs nd2) as [ins2|] eqn:Ei2; simpl;
        rewrite ?lookup_insert_ne by done; rewrite ?E1, ?E2; simpl;
        rewrite ?Ei1, ?Ei2; try done.
      by rewrite insert_insert_ne by done.
    + destruct (inputs nd1) as [ins1|] eqn:Ei1; simpl; [|done].
      rewrite lookup_insert_ne by done. by rewrite E2.
    + destruct (inputs nd2) as [ins2|] eqn:Ei2; simpl; [|done].
      rewrite lookup_insert_ne by done. by rewrite E1.
Qed.

Lemma commute_write_all_r f nids k v :
  (forall n, n ∈ nids -> commute f (set_input n k v)) ->
  commute f (write_all nids k v).
Proof.
  induction nids as [|n nids IH]; intros H.
  - apply commute_Some.
  - change (write_all (n :: nids) k v)
      with (fun wf => set_input n k v wf ≫= write_all nids k v).
    apply commute_seq; [apply H; by left|].
    apply IH. intros n' Hn'. apply H. by right.
Qed.

(** Two rules write different slots. *)
Definition apart (r1 r2 : NodeRule) : Prop :=
  key r1 <> key r2 \/ node_ids r1 ## node_ids r2.

Lemma commute_write_all r1 r2 v1 v2 :
  apart r1 r2 ->
  commute (write_all (node_ids r1) (key r1) v1) (write_all (node_ids r2) (key r2) v2).
Proof.
  intros Ha. apply commute_write_all_r. intros n2 Hn2.
  apply commute_sym, commute_write_all_r. intros n1 Hn1.
  apply commute_set_input. destruct Ha as [Hk|Hd].
  - right. congruence.
  - left. intros ->. by apply (Hd n1).
Qed.

Lemma commute_write_if_present r1 r2 ov1 ov2 :
  (is_Some ov1 -> is_Some ov2 -> apart r1 r2) ->
  commute (write_if_present r1 ov1) (write_if_present r2 ov2).
Proof.
  intros Ha. destruct ov1 as [v1|], ov2 as [v2|]; simpl.
  - apply commute_write_all. apply Ha; eauto.
  - apply commute_Some.
  - apply commute_sym, commute_Some.
  - apply commute_Some.
Qed.

(** A loop that writes, for every rule, the value [sel] picks for it. *)
Definition writes (sel : NodeRule -> option value) (rules : list NodeRule)
    (wf : gmap string node) : option (gmap string node) :=
  for_rules (fun r w => write_if_present r (sel r) w) rules wf.

Lemma commute_writes r ov sel rules :
  (forall r', r' ∈ rules -> is_Some ov -> is_Some (sel r') -> apart r r') ->
  commute (write_if_present r ov) (writes sel rules).
Proof.
  induction rules as [|r' rules IH]; intros H.
  - apply commute_Some.
  - change (writes sel (r' :: rules))
      with (fun wf => write_if_present r' (sel r') wf ≫= writes sel rules).
    apply commute_seq.
    + apply commute_write_if_present. apply H. by left.
    + apply IH. intros r0 Hr0. apply H. by right.
Qed.

Lemma for_rules_ext body1 body2 (rules : list NodeRule) :
  (forall r wf, r ∈ rules -> body1 r wf = body2 r wf) ->
  forall wf, for_rules body1 rules wf = for_rules body2 rules wf.
Proof.
  induction rules as [|r rules IH]; intros H wf; simpl; [done|].
  rewrite (H r wf) by (by left).
  destruct (body2 r wf) as [wf1|]; [|done].
  apply IH. intros r0 w Hr0. apply H. by right.
Qed.

(** *** Kinds of rules *)

Lemma prefix_app (p1 p2 : string) : forall s,
  String.prefix (String.append p1 p2) s = true -> String.prefix p1 s = true.
Proof.
  induction p1 as [|a p1 IH]; intros s.
  - intros _. by destruct s.
  - change (String.append (String a p1) p2) with (String a (String.append p1 p2)).
    destruct s as [|b s]; cbn [String.prefix]; [done|].
    destruct (ascii_dec a b); [apply IH|done].
Qed.

Lemma startswith_text s : startswith s "text:" = true -> startswith s "text" = true.
Proof. apply (prefix_app "text" ":"). Qed.

Lemma startswith_string s : startswith s "string:" = true -> startswith s "string" = true.
Proof. apply (prefix_app "string" ":"). Qed.

(** The value the text-like loop writes for a rule, if any. *)
Definition text_value (prompt : string) (eff : gmap string value) (r : NodeRule)
    : option value :=
  match kind_of r with
  | KPrompt => Some (VStr prompt)
  | KNegativePrompt => get_present eff "negative_prompt"
  | KText => param_key_of r ≫= get_present eff
  | _ => None
  end.

(** [sel] restricted to the rules of one kind. *)
Definition only (k : rule_kind) (sel : NodeRule -> option value) (r : NodeRule)
    : option value :=
  if is_kind (kind_of r) k then sel r else None.

Definition textish (t : string) : bool :=
  bool_decide (t = "text") || bool_decide (t = "string")
  || startswith t "text:" || startswith t "string:".

Lemma kind_of_cases r :
  (rtype_of r = "prompt" /\ kind_of r = KPrompt)
  \/ (rtype_of r = "negative_prompt" /\ kind_of r = KNegativePrompt)
  \/ (rtype_of r <> "prompt" /\ rtype_of r <> "negative_prompt"
      /\ textish (rtype_of r) = true /\ kind_of r = KText)
  \/ (rtype_of r <> "prompt" /\ rtype_of r <> "negative_prompt"
      /\ textish (rtype_of r) = false /\ is_text_like (kind_of r) = false).
Proof.
  unfold kind_of, textish. generalize (rtype_of r). intros t.
  destruct (decide (t = "prompt")) as [->|E1]; [by left|].
  destruct (decide (t = "negative_prompt")) as [->|E2]; [by right; left|].
  rewrite (bool_decide_eq_false_2 _ E1), (bool_decide_eq_false_2 _ E2).
  right. right.
  destruct (bool_decide (t = "text") || bool_decide (t = "string")
            || startswith t "text:" || startswith t "string:").
  - by left.
  - right. repeat split; try done.
    destruct (bool_decide (t = "input_image")); [done|].
    by destruct (bool_decide (t = "input_images")).
Qed.

Lemma param_key_not_textish r : textish (rtype_of r) = false -> param_key_of r = None.
Proof.
  unfold textish, param_key_of. generalize (rtype_of r). intros t Ht.
  apply orb_false_iff in Ht as [Ht H4]. apply orb_false_iff in Ht as [Ht H3].
  apply orb_false_iff in Ht as [H1 H2]. by rewrite H1, H2, H3, H4.
Qed.

Lemma text_like_body_writes prompt eff r wf :
  text_like_body prompt eff r wf = write_if_present r (text_value prompt eff r) wf.
Proof.
  unfold text_like_body, text_value.
  destruct (kind_of_cases r) as [[E ->]|[[E ->]|[(E1 & E2 & Ht & ->)|(E1 & E2 & Ht & Hk)]]].
  - by rewrite E.
  - by rewrite E.
  - rewrite (bool_decide_eq_false_2 _ E1), (bool_decide_eq_false_2 _ E2).
    destruct (decide (rtype_of r = "")) as [E0|E0].
    { rewrite E0 in Ht. done. }
    rewrite (bool_decide_eq_false_2 _ E0). by destruct (param_key_of r).
  - rewrite (bool_decide_eq_false_2 _ E1), (bool_decide_eq_false_2 _ E2).
    rewrite (param_key_not_textish r Ht).
    destruct (bool_decide (rtype_of r = "")); by destruct (kind_of r).
Qed.

Lemma not_scalar_skipped r :
  kind_of r <> KScalar -> skipped_by_scalar_loop (rtype_of r) = true.
Proof.
  unfold kind_of, skipped_by_scalar_loop. generalize (rtype_of r). intros t.
  destruct (bool_decide (t = "prompt")); [done|].
  destruct (bool_decide (t = "negative_prompt")); [done|]. simpl.
  destruct (decide (t = "text")) as [->|Et]; [done|].
  destruct (decide (t = "string")) as [->|Es]; [done|].
  rewrite (bool_decide_eq_false_2 _ Et), (bool_decide_eq_false_2 _ Es). simpl.
  destruct (startswith t "text:") eqn:E1.
  { intros _. rewrite (startswith_text _ E1). by rewrite !orb_true_r. }
  destruct (startswith t "string:") eqn:E2.
  { intros _. rewrite (startswith_string _ E2). by rewrite !orb_true_r. }
  simpl.
  destruct (bool_decide (t = "input_image")); [done|].
  destruct (bool_decide (t = "input_images")); [done|]. done.
Qed.

Lemma kind_input_image r :
  bool_decide (rtype_of r = "input_image") = is_kind (kind_of r) KInputImage.
Proof.
  unfold kind_of. generalize (rtype_of r). intros t.
  destruct (decide (t = "input_image")) as [->|E]; [reflexivity|].
  rewrite (bool_decide_eq_false_2 _ E).
  repeat match goal with
         | |- context [if ?x then _ else _] => destruct x; simpl
         end; reflexivity.
Qed.

Lemma kind_input_images r :
  bool_decide (rtype_of r = "input_images") = is_kind (kind_of r) KInputImages.
Proof.
  unfold kind_of. generalize (rtype_of r). intros t.
  destruct (decide (t = "input_images")) as [->|E]; [reflexivity|].
  rewrite (bool_decide_eq_false_2 _ E).
  repeat match goal with
         | |- context [if ?x then _ else _] => destruct x; simpl
         end; reflexivity.
Qed.

(** *** The passes of the specification against the loops of the code *)

Lemma unlink_node_nil nd : unlink_node [] nd = nd.
Proof.
  destruct nd as [ct ins oth]. unfold unlink_node. simpl. f_equal.
  destruct ins as [ins|]; simpl; [|done]. f_equal.
  apply map_eq. intros k. unfold unlink_inputs. rewrite lookup_omap.
  destruct (ins !! k) as [v|]; simpl; [|done]. by rewrite is_edge_into_nil.
Qed.

Lemma filter_kept_lookup (ids : list string) (wf : gmap string node) n :
  filter (fun kv => kv.1 ∉ ids) wf !! n = if decide (n ∈ ids) then None else wf !! n.
Proof.
  destruct (decide (n ∈ ids)) as [Hin|Hin].
  - apply map_lookup_filter_None_2. right. intros x _ HP. by apply HP.
  - destruct (wf !! n) as [nd|] eqn:E.
    + by apply map_lookup_filter_Some_2.
    + apply map_lookup_filter_None_2. by left.
Qed.

Lemma spec_prune_unlink ids wf : spec_prune ids wf = _unlink_and_remove_nodes wf ids.
Proof.
  apply map_eq. intros n. unfold spec_prune. rewrite lookup_fmap, filter_kept_lookup.
  destruct ids as [|i ids].
  - destruct (decide (n ∈ [])) as [Hin|_]; [by apply elem_of_nil in Hin|].
    simpl. destruct (wf !! n) as [nd|]; simpl; [|done]. by rewrite unlink_node_nil.
  - rewrite unlink_remove_lookup by done. by destruct (decide (n ∈ i :: ids)).
Qed.

Lemma images_pass_agrees eff r wf :
  input_images_body eff r wf
  = if is_kind (kind_of r) KInputImages then spec_input_images_act eff r wf else Some wf.
Proof.
  rewrite <- kind_input_images.
  destruct (decide (rtype_of r = "input_images")) as [E|E].
  - rewrite (bool_decide_eq_true_2 _ E), input_images_body_eq by done.
    unfold spec_input_images_act.
    destruct (Nat.ltb_spec (length (supplied_images eff)) (length (node_ids r))).
    + by rewrite spec_prune_unlink.
    + by rewrite drop_ge by lia.
  - rewrite (bool_decide_eq_false_2 _ E). by apply input_images_body_other.
Qed.

Lemma image_pass_agrees eff r wf :
  (kind_of r = KInputImage -> (length (node_ids r) <= 1)%nat) ->
  input_image_body eff r wf
  = if is_kind (kind_of r) KInputImage then spec_input_image_act eff r wf else Some wf.
Proof.
  intros Hone. unfold input_image_body. rewrite kind_input_image.
  destruct (kind_of r) eqn:K; simpl; try done.
  specialize (Hone eq_refl). unfold spec_input_image_act, write_if_present.
  destruct (get_present eff "input_image") as [v|]; [|done].
  destruct (node_ids r) as [|nid [|nid2 rest]]; simpl in *; [done| |lia].
  by destruct (set_input nid (key r) v wf).
Qed.

Lemma scalar_pass_agrees eff r wf :
  (kind_of r = KScalar -> skipped_by_scalar_loop (rtype_of r) = false) ->
  scalar_body eff r wf
  = if is_kind (kind_of r) KScalar then spec_scalar_act eff r wf else Some wf.
Proof.
  intros Hs. unfold scalar_body.
  destruct (kind_of r) eqn:K; simpl;
    try (rewrite not_scalar_skipped; [done|by rewrite K]).
  by rewrite (Hs eq_refl).
Qed.

Lemma spec_pass_writes prompt eff k act rules wf :
  is_text_like k = true ->
  (forall r w, kind_of r = k -> act r w = write_if_present r (text_value prompt eff r) w) ->
  spec_pass k act rules wf = writes (only k (text_value prompt eff)) rules wf.
Proof.
  intros _ Hact. unfold spec_pass, writes. apply for_rules_ext. intros r w _.
  unfold only. destruct (is_kind (kind_of r) k) eqn:E; [|done].
  apply Hact. by destruct (kind_of r), k.
Qed.

(** *** The text-like loop as three passes *)

(** Rules of different kinds among prompt, negative prompt and generic
    text write different slots. *)
Definition text_passes_apart (rules : list NodeRule) : Prop :=
  forall r1 r2,
    r1 ∈ rules -> r2 ∈ rules ->
    is_text_like (kind_of r1) = true -> is_text_like (kind_of r2) = true ->
    kind_of r1 <> kind_of r2 -> apart r1 r2.

Lemma only_Some k sel r : is_Some (only k sel r) -> kind_of r = k.
Proof.
  unfold only. destruct (is_kind (kind_of r) k) eqn:E; [|by intros [? ?]].
  intros _. by destruct (kind_of r), k.
Qed.

Lemma only_eq k sel r :
  only k sel r = if is_kind (kind_of r) k then sel r else None.
Proof. reflexivity. Qed.

Lemma text_value_Some prompt eff r :
  is_Some (text_value prompt eff r) -> is_text_like (kind_of r) = true.
Proof. unfold text_value. destruct (kind_of r); try done; by intros [? ?]. Qed.

Lemma bind_ext {A B} (o : option A) (f g : A -> option B) :
  (forall a, f a = g a) -> o ≫= f = o ≫= g.
Proof. intros H. destruct o; simpl; [apply H|done]. Qed.

Lemma writes_cons sel r rules wf :
  writes sel (r :: rules) wf = write_if_present r (sel r) wf ≫= writes sel rules.
Proof. reflexivity. Qed.

Lemma text_loop_split prompt eff rules :
  text_passes_apart rules ->
  forall wf,
    writes (text_value prompt eff) rules wf
    = (w1 ← writes (only KPrompt (text_value prompt eff)) rules wf;
       w2 ← writes (only KNegativePrompt (text_value prompt eff)) rules w1;
       writes (only KText (text_value prompt eff)) rules w2).
Proof.
  set (tv := text_value prompt eff).
  induction rules as [|r rules IH]; intros Hap wf; [done|].
  assert (text_passes_apart rules) as Hap'.
  { intros r1 r2 H1 H2. apply Hap; by right. }
  specialize (IH Hap').
  assert (forall k,
            k <> kind_of r -> is_text_like k = true ->
            commute (write_if_present r (tv r)) (writes (only k tv) rules)) as Hcom.
  { intros k Hk Htl. apply commute_writes. intros r' Hr' Hs Hs'.
    apply only_Some in Hs'. apply Hap; [by left|by right| |by rewrite Hs'|congruence].
    by apply (text_value_Some prompt eff). }
  change
    (write_if_present r (tv r) wf ≫= writes tv rules
     = (w1 ← (write_if_present r (only KPrompt tv r) wf
              ≫= writes (only KPrompt tv) rules);
        w2 ← (write_if_present r (only KNegativePrompt tv r) w1
              ≫= writes (only KNegativePrompt tv) rules);
        write_if_present r (only KText tv r) w2 ≫= writes (only KText tv) rules)).
  pose proof (only_eq KPrompt tv r) as E1.
  pose proof (only_eq KNegativePrompt tv r) as E2.
  pose proof (only_eq KText tv r) as E3.
  destruct (kind_of r) eqn:K; simpl in E1, E2, E3; revert E1 E2 E3;
    generalize (only KPrompt tv r), (only KNegativePrompt tv r), (only KText tv r);
    intros o1 o2 o3 -> -> ->; simpl.
  - (* prompt *)
    destruct (write_if_present r (tv r) wf) as [a|]; simpl; [apply IH|done].
  - (* negative prompt *)
    rewrite (bind_ext _ _ _ IH).
    rewrite (commute_swap _ _ _ wf (Hcom KPrompt ltac:(done) eq_refl)).
    apply bind_ext. intros w1. by destruct (write_if_present r (tv r) w1).
  - (* generic text *)
    rewrite (bind_ext _ _ _ IH).
    rewrite (commute_swap _ _ _ wf (Hcom KPrompt ltac:(done) eq_refl)).
    apply bind_ext. intros w1.
    rewrite (commute_swap _ _ _ w1 (Hcom KNegativePrompt ltac:(done) eq_refl)).
    apply bind_ext. intros w2. by destruct (write_if_present r (tv r) w2).
  - assert (tv r = None) as -> by (unfold tv, text_value; by rewrite K). apply IH.
  - assert (tv r = None) as -> by (unfold tv, text_value; by rewrite K). apply IH.
  - assert (tv r = None) as -> by (unfold tv, text_value; by rewrite K). apply IH.
Qed.

(** C6 as the specification words it: the render of the code is the
    six-pass render, whatever the template, the rules and the parameters. *)
Definition render_is_six_passes : Prop :=
  forall template rules prompt params g,
    prepare_workflow template rules prompt params g
    = render_spec template rules prompt params g.

(** A negative-prompt rule listed before a prompt rule on the same slot. *)
Definition clip_graph : gmap string node :=
  {["5" := mkNode (Some (VStr "CLIPTextEncode")) (Some {["text" := VStr ""]}) []]}.

Definition clash_rules : NodesMap :=
  mkNodesMap
    [mkRule "negative_prompt" ["5"] "text" None; mkRule "prompt" ["5"] "text" None] ∅.

Definition clash_params : gmap string value :=
  <["negative_prompt" := VStr "blurry"]> {["seed" := VInt 1]}.

Example clash_in_code :
  slot_of (prepare_workflow clip_graph clash_rules "a cat" clash_params no_draws).1
    "5" "text" = Some (VStr "a cat").
Proof. vm_compute. reflexivity. Qed.

Example clash_in_spec :
  slot_of (render_spec clip_graph clash_rules "a cat" clash_params no_draws).1
    "5" "text" = Some (VStr "blurry").
Proof. vm_compute. reflexivity. Qed.

(** C6 does not hold as worded: the two renders differ on the clash. *)
Lemma render_is_six_passes_fails : ~ render_is_six_passes.
Proof.
  intros H. specialize (H clip_graph clash_rules "a cat" clash_params no_draws).
  apply (f_equal (fun p => slot_of p.1 "5" "text")) in H.
  vm_compute in H. discriminate H.
Qed.

(** C6, amended: the render of the code equals the six-pass render of the
    specification, in whatever order the rules are listed, provided that
    the texts of the rules are ASCII, that rules of different kinds among
    prompt, negative prompt and generic text never write the same input of
    the same node (the code handles these three kinds in one loop, in list
    order), that a single-image rule names at most one node, and that no
    other kind merely starts with "text" or "string" (the last loop of the
    code skips those). *)
Theorem prepare_workflow_equals_six_passes (template : gmap string node)
    (rules : NodesMap) (prompt : string) (params : gmap string value) (g : rng) :
  ascii_rules (nodes rules) = true ->
  text_passes_apart (nodes rules) ->
  (forall r, r ∈ nodes rules -> kind_of r = KInputImage -> (length (node_ids r) <= 1)%nat) ->
  (forall r, r ∈ nodes rules -> kind_of r = KScalar ->
             startswith (rtype_of r) "text" = false
             /\ startswith (rtype_of r) "string" = false) ->
  prepare_workflow template rules prompt params g
  = render_spec template rules prompt params g.
Proof.
  intros _ Hap Hone Hpre. unfold prepare_workflow, render_spec.
  destruct (effective_params params g) as [eff g']. f_equal.
  unfold apply_rules, render_spec_rules.
  assert (forall wf,
            for_rules (text_like_body prompt eff) (nodes rules) wf
            = writes (text_value prompt eff) (nodes rules) wf) as E1.
  { intros wf. apply for_rules_ext. intros r w _. apply text_like_body_writes. }
  assert (forall wf,
            spec_pass KPrompt (spec_prompt_act prompt) (nodes rules) wf
            = writes (only KPrompt (text_value prompt eff)) (nodes rules) wf) as S1.
  { intros wf. apply spec_pass_writes; [done|]. intros r w K.
    unfold text_value. by rewrite K. }
  assert (forall wf,
            spec_pass KNegativePrompt (spec_negative_act eff) (nodes rules) wf
            = writes (only KNegativePrompt (text_value prompt eff)) (nodes rules) wf) as S2.
  { intros wf. apply spec_pass_writes; [done|]. intros r w K.
    unfold text_value. by rewrite K. }
  assert (forall wf,
            spec_pass KText (spec_text_act eff) (nodes rules) wf
            = writes (only KText (text_value prompt eff)) (nodes rules) wf) as S3.
  { intros wf. apply spec_pass_writes; [done|]. intros r w K.
    unfold text_value, spec_text_act. rewrite K. by destruct (param_key_of r). }
  assert (forall wf,
            for_rules (input_image_body eff) (nodes rules) wf
            = spec_pass KInputImage (spec_input_image_act eff) (nodes rules) wf) as E2.
  { intros wf. apply for_rules_ext. intros r w Hr. apply image_pass_agrees. by apply Hone. }
  assert (forall wf,
            for_rules (input_images_body eff) (nodes rules) wf
            = spec_pass KInputImages (spec_input_images_act eff) (nodes rules) wf) as E3.
  { intros wf. apply for_rules_ext. intros r w Hr. apply images_pass_agrees. }
  assert (forall wf,
            for_rules (scalar_body eff) (nodes rules) wf
            = spec_pass KScalar (spec_scalar_act eff) (nodes rules) wf) as E4.
  { intros wf. apply for_rules_ext. intros r w Hr. apply scalar_pass_agrees.
    intros K. destruct (Hpre r Hr K) as [Ht Hs].
    unfold skipped_by_scalar_loop. rewrite Ht, Hs. revert K. unfold kind_of.
    destruct (bool_decide (rtype_of r = "prompt")); [done|].
    destruct (bool_decide (rtype_of r = "negative_prompt")); [done|].
    destruct (_ || _ || _ || _); [done|].
    destruct (bool_decide (rtype_of r = "input_image")); [done|].
    by destruct (bool_decide (rtype_of r = "input_images")). }
  rewrite E1, (text_loop_split prompt eff (nodes rules) Hap), S1.
  destruct (writes (only KPrompt (text_value prompt eff)) (nodes rules) template)
    as [w1|]; simpl; [|done].
  rewrite S2.
  destruct (writes (only KNegativePrompt (text_value prompt eff)) (nodes rules) w1)
    as [w2|]; simpl; [|done].
  rewrite S3.
  destruct (writes (only KText (text_value prompt eff)) (nodes rules) w2)
    as [w3|]; simpl; [|done].
  rewrite E2.
  destruct (spec_pass KInputImage (spec_input_image_act eff) (nodes rules) w3)
    as [w4|]; simpl; [|done].
  rewrite E3.
  destruct (spec_pass KInputImages (spec_input_images_act eff) (nodes rules) w4)
    as [w5|]; simpl; [|done].
  apply E4.
Qed.

(** Two text encoders, the prompt rule on one and the negative-prompt rule
    on the other, listed after a scalar rule. *)
Definition two_clip_graph : gmap string node :=
  {[ "5" := mkNode (Some (VStr "CLIPTextEncode")) (Some {["text" := VStr ""]}) [] ;
     "6" := mkNode (Some (VStr "CLIPTextEncode")) (Some {["text" := VStr ""]}) [] ]}.

Definition ordered_rules : NodesMap :=
  mkNodesMap
    [mkRule "Width" ["5"] "width" None; mkRule "negative_prompt" ["6"] "text" None;
     mkRule "prompt" ["5"] "text" None] ∅.

Definition ordered_params : gmap string value := <["width" := VInt 768]> clash_params.

Lemma prepare_workflow_equals_six_passes_witness :
  prepare_workflow two_clip_graph ordered_rules "a cat" ordered_params no_draws
  = render_spec two_clip_graph ordered_rules "a cat" ordered_params no_draws
  /\ slot_of (render_spec two_clip_graph ordered_rules "a cat" ordered_params no_draws).1
       "5" "text" = Some (VStr "a cat")
  /\ slot_of (render_spec two_clip_graph ordered_rules "a cat" ordered_params no_draws).1
       "6" "text" = Some (VStr "blurry")
  /\ slot_of (render_spec two_clip_graph ordered_rules "a cat" ordered_params no_draws).1
       "5" "width" = Some (VInt 768).
Proof.
  split; [|repeat split; vm_compute; reflexivity].
  apply prepare_workflow_equals_six_passes.
  - reflexivity.
  - intros r1 r2 H1 H2 T1 T2 Hne. simpl in H1, H2.
    repeat (apply elem_of_cons in H1 as [->|H1]; [|]);
      try (by apply elem_of_nil in H1);
      repeat (apply elem_of_cons in H2 as [->|H2]; [|]);
      try (by apply elem_of_nil in H2);
      try (vm_compute in T1; discriminate T1);
      try (vm_compute in T2; discriminate T2);
      try (exfalso; apply Hne; reflexivity);
      (right; intros x Hx Hy; simpl in Hx, Hy;
       apply list_elem_of_singleton in Hx; apply list_elem_of_singleton in Hy;
       subst x; discriminate Hy).
  - intros r Hr K. simpl in Hr.
    repeat (apply elem_of_cons in Hr as [->|Hr]; [simpl; lia|]).
    by apply elem_of_nil in Hr.
  - intros r Hr K. simpl in Hr.
    repeat (apply elem_of_cons in Hr as [->|Hr];
            [first [by split; vm_compute | vm_compute in K; discriminate K]|]).
    by apply elem_of_nil in Hr.
Defined.

End WorkflowProps.

(* ===================================================================== *)
(** ** Further laws of the admission and scheduling controller           *)
(* ===================================================================== *)

Module JobsQueueLaws.
Import JobsQueue JobsQueueProps.

(** *** Reservations

    [_send_and_enqueue] of [app/tg/bot.py] admits a job in two steps,
    [reserve_user_slot] and then [enqueue_reserved] with [reserved=True],
    and gives the slot back with [release_user_slot] when the placeholder
    cannot be sent or the controller refuses the job. *)

Lemma dec_inc_pending (u : Z) (p : gmap Z Z) :
  positive_counters p -> _dec_pending u (_inc_pending u p) = p.
Proof.
  intros Hp. unfold _dec_pending, _inc_pending.
  destruct (Z.leb_spec u 0); [done|]. rewrite lookup_insert_eq. simpl.
  destruct (p !! u) as [c|] eqn:E; simpl.
  - apply Hp in E as Hc. destruct (Z.leb_spec (c + 1) 1); [lia|].
    rewrite insert_insert_eq. replace (c + 1 - 1) with c by lia. by apply insert_id.
  - by apply delete_insert_id.
Qed.

Lemma ensure_set_pending (f : gmap Z Z -> gmap Z Z) alias s :
  _ensure_workers alias (set_pending f s) = set_pending f (_ensure_workers alias s).
Proof.
  unfold _ensure_workers. simpl.
  destruct (workers s !! alias) as [[|w pool]|]; destruct (queues s !! alias); done.
Qed.

Lemma reserve_refused_same (u : Z) (lim : option Z) (s : state) :
  (reserve_user_slot u lim s).1 = false -> (reserve_user_slot u lim s).2 = s.
Proof.
  unfold reserve_user_slot. destruct (u <=? 0); [done|].
  destruct (limit_enabled lim) as [l|]; [|done].
  by destruct (l <=? pending_count_by_user s u).
Qed.

(** X4: a reservation that succeeded and is then released leaves the
    controller exactly as it was, and a reservation that failed changed
    nothing. *)
Theorem reserve_release_round_trip (u : Z) (lim : option Z) (s : state) :
  positive_counters (pending_by_user s) ->
  ((reserve_user_slot u lim s).1 = true ->
     release_user_slot u (reserve_user_slot u lim s).2 = s)
  /\ ((reserve_user_slot u lim s).1 = false -> (reserve_user_slot u lim s).2 = s).
Proof.
  intros Hp. unfold reserve_user_slot, release_user_slot.
  destruct (Z.leb_spec u 0) as [Hu|Hu]; [done|].
  destruct (limit_enabled lim) as [l|]; [|done].
  destruct (l <=? pending_count_by_user s u); [done|]. simpl.
  destruct (Z.leb_spec u 0); [lia|]. split; [|done]. intros _.
  destruct s. unfold set_pending. simpl in *. f_equal. by apply dec_inc_pending.
Qed.

Lemma reserve_release_round_trip_witness :
  release_user_slot 7 (reserve_user_slot 7 (Some 2) demo_state).2 = demo_state.
Proof.
  assert (positive_counters (pending_by_user demo_state)) as Hpos.
  { intros u c. vm_compute pending_by_user.
    change (({[7 := 1]} : gmap Z Z) !! u = Some c -> 0 < c).
    intros [_ <-]%lookup_singleton_Some. lia. }
  apply (reserve_release_round_trip 7 (Some 2) demo_state Hpos).
  vm_compute. reflexivity.
Defined.

(** X3: on an open controller, reserving a slot and then enqueueing with
    [reserved=True] gives the very result and state of one call of
    [enqueue_limited]; when the reservation is refused, [enqueue_limited]
    refuses as well. *)
Theorem reserve_then_enqueue_is_enqueue_limited
    (alias : string) (job : GenerateJob) (L : Z) (s : state) :
  closed s = false -> processor s = true -> 0 < user_id job -> 0 < L ->
  ((reserve_user_slot (user_id job) (Some L) s).1 = true ->
     enqueue_reserved alias job true (reserve_user_slot (user_id job) (Some L) s).2
     = enqueue_limited alias job (Some L) s)
  /\ ((reserve_user_slot (user_id job) (Some L) s).1 = false ->
      (enqueue_limited alias job (Some L) s).1 = Returned false).
Proof.
  intros Hc Hp Hu HL.
  unfold reserve_user_slot, enqueue_limited, enqueue_reserved, limit_enabled.
  destruct (Z.leb_spec (user_id job) 0); [lia|]. destruct (Z.ltb_spec 0 L); [|lia].
  destruct (Z.eqb_spec (user_id job) 0) as [?|Hne]; [lia|].
  replace (pending_count_by_user (_ensure_workers alias s) (user_id job))
    with (pending_count_by_user s (user_id job))
    by (unfold pending_count_by_user; by rewrite ensure_pending).
  rewrite Hc, Hp. simpl.
  destruct (L <=? pending_count_by_user s (user_id job)); simpl; [done|].
  rewrite Hc, Hp. simpl.
  split; [|done]. intros _. rewrite ensure_set_pending.
  unfold inc_pending_of, put. destruct (Z.eqb_spec (user_id job) 0); [lia|]. simpl.
  destruct (queues (_ensure_workers alias s) !! alias); reflexivity.
Qed.

Lemma reserve_then_enqueue_is_enqueue_limited_witness :
  enqueue_reserved "flux" demo_job true (reserve_user_slot 7 (Some 2) demo_state).2
  = enqueue_limited "flux" demo_job (Some 2) demo_state.
Proof.
  apply (reserve_then_enqueue_is_enqueue_limited "flux" demo_job 2 demo_state);
    [vm_compute; reflexivity|vm_compute; reflexivity|simpl; lia|lia|vm_compute; reflexivity].
Defined.

(** *** The registry *)

Lemma ensure_registry alias s :
  registry (_ensure_workers alias s) = registry s
  /\ store (_ensure_workers alias s) = store s
  /\ next_ref (_ensure_workers alias s) = next_ref s.
Proof.
  unfold _ensure_workers.
  destruct (workers s !! alias) as [[|? ?]|]; destruct (queues s !! alias); done.
Qed.

(** X8: a job that [enqueue_limited] accepted is found by [get_job] under
    its message id, as it was handed in; once the worker that processed it
    is done, [get_job] no longer finds it. *)
Theorem get_job_follows_registry (s : state) :
  (forall alias job lim s1,
     enqueue_limited alias job lim s = (Returned true, s1) ->
     get_job (message_id job) s1 = Some job)
  /\ (forall alias i r job s1,
        task_at alias i s = Some (Processing r) -> store s !! r = Some job ->
        worker_finish alias i s = Some s1 ->
        get_job (message_id job) s1 = None).
Proof.
  split.
  - intros alias job lim s1. unfold enqueue_limited.
    destruct (closed s || negb (processor s)); [done|].
    match goal with
    | |- context [if (match ?l with Some _ => _ | None => false end) then _ else _] =>
        destruct (match l with Some _ => _ | None => false end)
    end; [done|].
    simpl. unfold put, inc_pending_of.
    destruct (user_id job =? 0); simpl;
      destruct (queues (_ensure_workers alias s) !! alias); intros [= <-];
      unfold get_job; simpl; rewrite lookup_insert_eq; simpl;
      by rewrite lookup_insert_eq.
  - intros alias i r job s1 Ht Hj. unfold worker_finish. rewrite Ht, Hj.
    intros [= <-]. unfold get_job. simpl. by rewrite lookup_delete_eq.
Qed.

Lemma get_job_follows_registry_witness :
  get_job 100
    (enqueue_limited "flux" demo_job None
       (set_processor (mkState ∅ ∅ 2 1 false false ∅ 0 2 ∅ ∅ ∅ O))).2
  = Some demo_job.
Proof.
  destruct (get_job_follows_registry
              (set_processor (mkState ∅ ∅ 2 1 false false ∅ 0 2 ∅ ∅ ∅ O))) as [H _].
  apply (H "flux" demo_job None). vm_compute. reflexivity.
Defined.

(** *** Shutdown *)

Lemma exec_closed o s s' :
  exec o s = Some s' ->
  closed s = true -> closed s' = true /\ registry s' ⊆ registry s.
Proof.
  destruct o as [|alias job|alias job lim|alias job reserved|u lim|u|alias|mid b
                |alias i|alias i|alias i| |]; simpl; intros He Hc; open_ops;
    rewrite ?Hc in *; split_body;
    (split; [done|]);
    first [ done | apply delete_subseteq | apply map_empty_subseteq ].
Qed.

(** X5: once [shutdown] has closed the controller it stays closed: in
    every later state [enqueue] raises, [enqueue_limited] and
    [enqueue_reserved] return false, all three leave the state as it is,
    and the registry holds no job that it did not hold at the time of
    closing. *)
Theorem closed_controller_accepts_nothing (os : list op) (s s' : state) :
  closed s = true -> run os s = Some s' ->
  closed s' = true
  /\ registry s' ⊆ registry s
  /\ (forall alias job, enqueue alias job s' = (Raised "JobsQueue is closed", s'))
  /\ (forall alias job lim, enqueue_limited alias job lim s' = (Returned false, s'))
  /\ (forall alias job reserved,
        enqueue_reserved alias job reserved s' = (Returned false, s')).
Proof.
  intros Hc Hrun.
  assert (closed s' = true /\ registry s' ⊆ registry s) as [Hc' Hreg].
  { revert Hrun.
    apply (run_invariant (fun t => closed t = true /\ registry t ⊆ registry s)); [|done].
    intros o s1 s2 [H1 H2] He. destruct (exec_closed o s1 s2 He H1) as [H3 H4].
    split; [done|]. by etrans. }
  split; [done|]. split; [done|].
  unfold enqueue, enqueue_limited, enqueue_reserved. rewrite Hc'. done.
Qed.

Lemma closed_controller_accepts_nothing_witness :
  enqueue_limited "flux" demo_job (Some 3) (shutdown_begin demo_state)
  = (Returned false, shutdown_begin demo_state).
Proof.
  assert (closed (shutdown_begin demo_state) = true) as Hc by reflexivity.
  destruct (closed_controller_accepts_nothing [] _ _ Hc eq_refl) as (_ & _ & _ & H & _).
  apply H.
Defined.

(** X6: [shutdown] appends to the queue of every topic one poison pill
    per worker of its pool, behind the jobs already queued, so every worker
    has an item to take; and on a closed controller a worker that takes an
    item, pill or job, leaves its loop without touching the registry, the
    counters or the job. *)
Theorem shutdown_stops_every_worker (mw ptl : Z) (s : state) :
  reachable mw ptl s ->
  (forall alias pool,
     workers s !! alias = Some pool ->
     exists q,
       queues s !! alias = Some q
       /\ queues (shutdown_begin s) !! alias = Some (q ++ replicate (length pool) None)
       /\ workers (shutdown_begin s) !! alias = Some pool)
  /\ (forall alias i s',
        closed s = true -> worker_get alias i s = Some s' ->
        task_at alias i s' = Some Stopped
        /\ registry s' = registry s /\ pending_by_user s' = pending_by_user s
        /\ store s' = store s).
Proof.
  intros Hr. split.
  - intros alias pool Hw.
    pose proof (reachable_queues_ready _ _ _ Hr) as Hq.
    pose proof (reachable_pools _ _ _ Hr alias pool Hw) as Hlen.
    pose proof (reachable_limit _ _ _ Hr) as Hl.
    assert (is_Some (queues s !! alias)) as [q Eq].
    { apply elem_of_dom, Hq. by apply elem_of_dom_2 in Hw. }
    exists q. split; [done|]. split; [|done].
    unfold shutdown_begin. simpl. rewrite map_lookup_imap, Eq. simpl.
    unfold poison. rewrite Hw. destruct pool as [|w pool]; [|done].
    simpl in Hlen. lia.
  - intros alias i s' Hc. unfold worker_get.
    destruct (task_at alias i s) as [[| | |]|] eqn:Et; try done.
    destruct (queues s !! alias) as [[|item rest]|]; try done.
    simpl. rewrite Hc.
    assert (task_at alias i
              (set_task alias i Stopped (set_queues (insert alias rest) s))
            = Some Stopped) as Hs.
    { unfold task_at in *. simpl. rewrite lookup_alter_eq.
      destruct (workers s !! alias) as [pool|]; [|done]. simpl in *.
      apply list_lookup_insert_eq. by apply lookup_lt_Some in Et. }
    destruct item; intros [= <-]; done.
Qed.

Lemma shutdown_stops_every_worker_witness :
  queues (shutdown_begin demo_state) !! "flux" = Some [Some 0%nat; None].
Proof.
  assert (reachable 2 1 demo_state) as Hr.
  { exists demo_init, demo_ops. split; vm_compute; reflexivity. }
  destruct (shutdown_stops_every_worker 2 1 demo_state Hr) as [H _].
  destruct (H "flux" [Waiting]) as (q & Hq & Hq' & _); [vm_compute; reflexivity|].
  assert (q = [Some 0%nat]) as ->.
  { apply (inj Some). rewrite <- Hq. vm_compute. reflexivity. }
  exact Hq'.
Defined.

End JobsQueueLaws.

(* ===================================================================== *)
(** ** Concurrency limits of the controller                              *)
(* ===================================================================== *)

Module JobsQueueSched.
Import JobsQueue JobsQueueProps.

(** The workers that are inside [await processor(job)]. *)
Definition is_processing (t : task) : bool :=
  match t with Processing _ => true | _ => false end.

Definition weight (t : task) : nat := if is_processing t then 1 else 0.

Fixpoint busy (pool : list task) : nat :=
  match pool with
  | [] => 0
  | t :: rest => weight t + busy rest
  end.

Definition total (ws : gmap string (list task)) : nat :=
  sum_list_with (fun kv => busy kv.2) (map_to_list ws).

(** Jobs of one topic, and of all topics, being processed. *)
Definition running_in (alias : string) (s : state) : nat :=
  busy (default [] (workers s !! alias)).

Definition running (s : state) : nat := total (workers s).

Lemma busy_replicate n : busy (replicate n Waiting) = 0%nat.
Proof. induction n as [|n IH]; simpl; [done|]. by rewrite IH. Qed.

Lemma busy_le pool : (busy pool <= length pool)%nat.
Proof.
  induction pool as [|t pool IH]; simpl; [lia|].
  unfold weight. destruct (is_processing t); lia.
Qed.

Lemma busy_insert pool : forall i t0 t,
  pool !! i = Some t0 ->
  (busy (<[i := t]> pool) + weight t0 = busy pool + weight t)%nat.
Proof.
  induction pool as [|x pool IH]; intros [|i] t0 t; simpl; try done.
  - intros [= ->]. lia.
  - intros H. specialize (IH i t0 t H). lia.
Qed.

Lemma busy_stopped pool :
  forallb (fun t => match t with Stopped => true | _ => false end) pool = true ->
  busy pool = 0%nat.
Proof.
  induction pool as [|t pool IH]; simpl; [done|].
  destruct t; simpl; done.
Qed.

Lemma total_empty : total ∅ = 0%nat.
Proof. unfold total. by rewrite map_to_list_empty. Qed.

Lemma total_fresh ws alias pool :
  ws !! alias = None -> total (<[alias := pool]> ws) = (busy pool + total ws)%nat.
Proof. intros H. unfold total. by rewrite (map_to_list_insert _ _ _ H). Qed.

Lemma total_delete ws alias pool :
  ws !! alias = Some pool -> total ws = (busy pool + total (delete alias ws))%nat.
Proof. intros H. unfold total. by rewrite <- (map_to_list_delete _ _ _ H). Qed.

Lemma total_insert ws alias pool0 pool :
  ws !! alias = Some pool0 ->
  (total (<[alias := pool]> ws) + busy pool0 = total ws + busy pool)%nat.
Proof.
  intros H. rewrite <- (insert_delete_eq ws), total_fresh by apply lookup_delete_eq.
  rewrite (total_delete ws alias pool0 H). lia.
Qed.

Lemma total_ge ws alias pool : ws !! alias = Some pool -> (busy pool <= total ws)%nat.
Proof. intros H. rewrite (total_delete ws alias pool H). lia. Qed.

Lemma total_alter ws alias pool i t0 t :
  ws !! alias = Some pool -> pool !! i = Some t0 ->
  (total (alter (fun pool => <[i := t]> pool) alias ws) + weight t0
   = total ws + weight t)%nat.
Proof.
  intros Hw Hi. rewrite (alter_alt_Some _ _ _ _ Hw).
  pose proof (total_insert ws alias pool (<[i := t]> pool) Hw).
  pose proof (busy_insert pool i t0 t Hi). lia.
Qed.

Lemma all_stopped_busy s alias pool :
  all_stopped s = true -> workers s !! alias = Some pool -> busy pool = 0%nat.
Proof.
  unfold all_stopped. intros H Hw.
  apply Is_true_true_2, forallb_True in H. rewrite Forall_forall in H.
  apply elem_of_map_to_list in Hw. specialize (H _ Hw). simpl in H.
  apply busy_stopped. by apply Is_true_true_1.
Qed.

Lemma all_stopped_total s : all_stopped s = true -> total (workers s) = 0%nat.
Proof.
  intros H. unfold total.
  assert (Forall (fun kv : string * list task => busy kv.2 = 0%nat)
            (map_to_list (workers s))) as Hall.
  { apply Forall_forall. intros [a pool] Hin. simpl.
    apply elem_of_map_to_list in Hin. by eapply all_stopped_busy. }
  induction Hall as [|kv l Hkv _ IH]; simpl; [done|]. by rewrite Hkv, IH.
Qed.

Lemma at_task alias i s t :
  task_at alias i s = Some t ->
  exists pool, workers s !! alias = Some pool /\ pool !! i = Some t.
Proof.
  unfold task_at. destruct (workers s !! alias) as [pool|]; [|done]. simpl. eauto.
Qed.

(** How one operation moves the workers, the two active counters and the
    global semaphore. *)
Inductive sched_step (s s' : state) : Prop :=
  | sched_same :
      workers s' = workers s -> active_per_topic s' = active_per_topic s ->
      active_global s' = active_global s -> global_sema s' = global_sema s ->
      sched_step s s'
  | sched_created alias :
      workers s !! alias = None \/ workers s !! alias = Some [] ->
      workers s' = <[alias := replicate (Z.to_nat (per_topic_limit s)) Waiting]> (workers s) ->
      active_per_topic s' = active_per_topic s ->
      active_global s' = active_global s -> global_sema s' = global_sema s ->
      sched_step s s'
  | sched_idle alias i t :
      task_at alias i s = Some Waiting -> is_processing t = false ->
      workers s' = alter (fun pool => <[i := t]> pool) alias (workers s) ->
      active_per_topic s' = active_per_topic s ->
      active_global s' = active_global s -> global_sema s' = global_sema s ->
      sched_step s s'
  | sched_start alias i r :
      task_at alias i s = Some (Acquiring r) -> 0 < global_sema s ->
      workers s' = alter (fun pool => <[i := Processing r]> pool) alias (workers s) ->
      active_per_topic s'
      = <[alias := default 0 (active_per_topic s !! alias) + 1]> (active_per_topic s) ->
      active_global s' = active_global s + 1 -> global_sema s' = global_sema s - 1 ->
      sched_step s s'
  | sched_finish alias i r :
      task_at alias i s = Some (Processing r) ->
      workers s' = alter (fun pool => <[i := Waiting]> pool) alias (workers s) ->
      active_per_topic s'
      = <[alias := Z.max 0 (default 1 (active_per_topic s !! alias) - 1)]>
          (active_per_topic s) ->
      active_global s' = Z.max 0 (active_global s - 1) ->
      global_sema s' = global_sema s + 1 ->
      sched_step s s'
  | sched_cleared :
      all_stopped s = true -> workers s' = ∅ ->
      active_per_topic s' = active_per_topic s ->
      active_global s' = active_global s -> global_sema s' = global_sema s ->
      sched_step s s'.

Lemma exec_sched o s s' :
  exec o s = Some s' -> max_workers s' = max_workers s /\ sched_step s s'.
Proof.
  destruct o as [|alias job|alias job lim|alias job reserved|u lim|u|alias|mid b
                |alias i|alias i|alias i| |]; simpl; intros He; open_ops;
    split_body; (split; [done|]);
    first [ by apply sched_same
          | by (eapply sched_created; eauto)
          | by (eapply sched_idle; eauto)
          | by (eapply sched_start; eauto; by apply Z.ltb_lt)
          | by (eapply sched_finish; eauto)
          | by (eapply sched_cleared; eauto;
                match goal with H : _ && _ = true |- _ => by apply andb_true_iff in H as [_ ?] end) ].
Qed.

(** The counters agree with the workers, and the semaphore with the
    global counter. *)
Record balanced (s : state) : Prop := mkBalanced {
  bal_topic :
    forall alias, default 0 (active_per_topic s !! alias) = Z.of_nat (running_in alias s);
  bal_global : active_global s = Z.of_nat (running s);
  bal_sema : global_sema s + active_global s = max_workers s;
  bal_free : 0 <= global_sema s
}.

Lemma running_in_alter alias i t a s pool t0 :
  workers s !! alias = Some pool -> pool !! i = Some t0 ->
  busy (default [] (alter (fun pool => <[i := t]> pool) alias (workers s) !! a))
  = if decide (alias = a) then (busy pool + weight t - weight t0)%nat
    else busy (default [] (workers s !! a)).
Proof.
  intros Hw Hi. destruct (decide (alias = a)) as [<-|Hne].
  - rewrite lookup_alter_eq, Hw. simpl.
    pose proof (busy_insert pool i t0 t Hi). lia.
  - by rewrite lookup_alter_ne.
Qed.

Lemma balanced_step s s' :
  max_workers s' = max_workers s -> sched_step s s' -> balanced s -> balanced s'.
Proof.
  intros Hm Hstep [Ht Hg Hs Hf]. unfold running_in, running in *.
  destruct Hstep as [Hw Ha Hag Hsm|alias Hnew Hw Ha Hag Hsm|alias i t Hat Hnp Hw Ha Hag Hsm
                    |alias i r Hat Hpos Hw Ha Hag Hsm|alias i r Hat Hw Ha Hag Hsm
                    |Hall Hw Ha Hag Hsm].
  - split; unfold running_in, running; rewrite ?Hw, ?Ha, ?Hag, ?Hsm, ?Hm; auto.
  - split; unfold running_in, running; rewrite ?Hw, ?Ha, ?Hag, ?Hsm, ?Hm; auto.
    + intros a. rewrite Ht. destruct (decide (alias = a)) as [<-|Hne].
      * rewrite lookup_insert_eq. simpl. rewrite busy_replicate.
        by destruct Hnew as [-> | ->].
      * by rewrite lookup_insert_ne.
    + rewrite Hg. f_equal. destruct Hnew as [Hn|Hn].
      * rewrite total_fresh by done. by rewrite busy_replicate.
      * pose proof (total_insert (workers s) alias []
                      (replicate (Z.to_nat (per_topic_limit s)) Waiting) Hn) as H.
        rewrite busy_replicate in H. simpl in H. lia.
  - apply at_task in Hat as (pool & Hp & Hi).
    assert (weight t = 0%nat) as Hwt by (unfold weight; by rewrite Hnp).
    split; unfold running_in, running; rewrite ?Hw, ?Ha, ?Hag, ?Hsm, ?Hm; auto.
    + intros a. rewrite (running_in_alter alias i t a s pool Waiting Hp Hi), Ht.
      destruct (decide (alias = a)) as [<-|Hne]; [|done].
      rewrite Hp, Hwt. unfold weight. simpl. f_equal. lia.
    + rewrite Hg. f_equal.
      pose proof (total_alter (workers s) alias pool i Waiting t Hp Hi) as H.
      rewrite Hwt in H. unfold weight in H. simpl in H. lia.
  - apply at_task in Hat as (pool & Hp & Hi).
    split; unfold running_in, running; rewrite ?Hw, ?Ha, ?Hag, ?Hsm, ?Hm; try lia.
    + intros a. rewrite (running_in_alter alias i _ a s pool (Acquiring r) Hp Hi).
      destruct (decide (alias = a)) as [<-|Hne].
      * rewrite lookup_insert_eq. simpl. rewrite Ht, Hp. unfold weight. simpl. lia.
      * rewrite lookup_insert_ne by done. apply Ht.
    + pose proof (total_alter (workers s) alias pool i (Acquiring r) (Processing r) Hp Hi) as H.
      unfold weight in H. simpl in H. lia.
  - apply at_task in Hat as (pool & Hp & Hi).
    pose proof (busy_insert pool i (Processing r) Waiting Hi) as Hb.
    unfold weight in Hb. simpl in Hb.
    pose proof (total_ge (workers s) alias pool Hp) as Hge.
    pose proof (Ht alias) as Hta. rewrite Hp in Hta. simpl in Hta.
    split; unfold running_in, running; rewrite ?Hw, ?Ha, ?Hag, ?Hsm, ?Hm; try lia.
    + intros a. rewrite (running_in_alter alias i _ a s pool (Processing r) Hp Hi).
      destruct (decide (alias = a)) as [<-|Hne].
      * rewrite lookup_insert_eq. unfold weight. simpl.
        destruct (active_per_topic s !! alias) as [c|]; simpl in *; lia.
      * rewrite lookup_insert_ne by done. apply Ht.
    + pose proof (total_alter (workers s) alias pool i (Processing r) Waiting Hp Hi) as H.
      unfold weight in H. simpl in H. lia.
  - split; unfold running_in, running; rewrite ?Hw, ?Ha, ?Hag, ?Hsm, ?Hm; auto.
    + intros a. rewrite Ht, lookup_empty. simpl.
      destruct (workers s !! a) as [pool|] eqn:E; simpl; [|done].
      by rewrite (all_stopped_busy s a pool Hall E).
    + rewrite Hg, total_empty. by rewrite all_stopped_total.
Qed.

Lemma reachable_balanced mw ptl s :
  reachable mw ptl s -> balanced s /\ max_workers s = mw.
Proof.
  intros (s0 & os & H0 & Hr).
  assert (0 <= mw) as Hmw.
  { unfold __init__ in H0. destruct (Z.ltb_spec mw 0); [done|lia]. }
  apply init_state in H0 as ->.
  revert Hr. apply (run_invariant (fun s => balanced s /\ max_workers s = mw)).
  - intros o s1 s2 [Hb Hm] He. apply exec_sched in He as [Hm' Hstep].
    split; [by eapply balanced_step|congruence].
  - split; [|done]. split; simpl;
      [ intros alias; unfold running_in; simpl; by rewrite !lookup_empty
      | unfold running; simpl; by rewrite total_empty
      | lia | lia ].
Qed.

(** X1: in every state of a controller built with [max_workers], the
    number of jobs being processed is what [_active_global] says, the free
    permits of the semaphore are [max_workers] less that number, and so at
    most [max_workers] jobs are processed at the same time, over all
    topics. *)
Theorem global_limit_holds (mw ptl : Z) (s : state) :
  reachable mw ptl s ->
  active_global s = Z.of_nat (running s)
  /\ global_sema s = mw - Z.of_nat (running s)
  /\ Z.of_nat (running s) <= mw.
Proof.
  intros Hr. destruct (reachable_balanced _ _ _ Hr) as [[Ht Hg Hs Hf] Hm]. lia.
Qed.

(** A controller with one permit: topic "b" runs a job, and the worker of
    topic "a" holds a job and waits for the permit. *)
Definition full_ops : list op :=
  [SetProcessor;
   Enqueue "a" (mkJob 1 1 100 "first" 7 "a" false false false);
   Enqueue "b" (mkJob 1 2 200 "other" 8 "b" false false false);
   WorkerGet "b" 0; WorkerStart "b" 0;
   WorkerGet "a" 0].

Definition full_init : state := mkState ∅ ∅ 1 1 false false ∅ 0 1 ∅ ∅ ∅ O.

Definition full_state : state := default full_init (run full_ops full_init).

Lemma full_state_reachable : reachable 1 1 full_state.
Proof. exists full_init, full_ops. split; vm_compute; reflexivity. Qed.

Lemma global_limit_holds_witness :
  running full_state = 1%nat
  /\ active_global full_state = 1
  /\ global_sema full_state = 0
  /\ task_at "a" 0 full_state = Some (Acquiring 0%nat).
Proof.
  destruct (global_limit_holds 1 1 full_state full_state_reachable) as (Ha & Hs & _).
  assert (running full_state = 1%nat) as Hrun by (vm_compute; reflexivity).
  rewrite Hrun in Ha, Hs. split; [exact Hrun|]. split; [exact Ha|]. split; [exact Hs|].
  vm_compute. reflexivity.
Defined.

(** X2: in every state, the number of jobs of one topic being processed
    is what [_active_per_topic] says for the topic, and it is at most
    [max 1 per_topic_limit]. *)
Theorem per_topic_limit_holds (mw ptl : Z) (s : state) (alias : string) :
  reachable mw ptl s ->
  default 0 (active_per_topic s !! alias) = Z.of_nat (running_in alias s)
  /\ Z.of_nat (running_in alias s) <= Z.max 1 ptl.
Proof.
  intros Hr. destruct (reachable_balanced _ _ _ Hr) as [[Ht Hg Hs Hf] Hm].
  split; [apply Ht|]. unfold running_in.
  destruct (workers s !! alias) as [pool|] eqn:E; simpl; [|lia].
  pose proof (reachable_pools _ _ _ Hr alias pool E) as Hlen.
  rewrite (reachable_limit _ _ _ Hr) in Hlen.
  pose proof (busy_le pool). lia.
Qed.

Lemma per_topic_limit_holds_witness :
  running_in "b" full_state = 1%nat
  /\ default 0 (active_per_topic full_state !! "b") = 1
  /\ Z.of_nat (running_in "b" full_state) <= Z.max 1 1.
Proof.
  destruct (per_topic_limit_holds 1 1 full_state "b" full_state_reachable) as (Ha & Hle).
  assert (running_in "b" full_state = 1%nat) as Hrun by (vm_compute; reflexivity).
  split; [exact Hrun|]. split; [|exact Hle]. rewrite Ha, Hrun. reflexivity.
Defined.

Lemma ensure_sched alias s :
  running_in alias (_ensure_workers alias s) = running_in alias s
  /\ active_per_topic (_ensure_workers alias s) = active_per_topic s
  /\ active_global (_ensure_workers alias s) = active_global s
  /\ max_workers (_ensure_workers alias s) = max_workers s
  /\ per_topic_limit (_ensure_workers alias s) = per_topic_limit s
  /\ default [] (queues (_ensure_workers alias s) !! alias) = default [] (queues s !! alias).
Proof.
  unfold _ensure_workers, running_in.
  destruct (workers s !! alias) as [[|w pool]|] eqn:Ew; rewrite ?Ew;
    destruct (queues s !! alias) eqn:Eq; simpl;
    rewrite ?lookup_insert_eq, ?Eq, ?Ew; simpl; rewrite ?busy_replicate; done.
Qed.

(** X9: in every state, [will_queue] returns (it does not raise), and it
    answers true exactly when the queue of the topic holds an item, or the
    topic has [max 1 per_topic_limit] jobs being processed, or
    [max_workers] jobs are being processed over all topics; its only
    effect is that of [_ensure_workers]. *)
Theorem will_queue_reads_the_load (mw ptl : Z) (s : state) (alias : string) :
  reachable mw ptl s ->
  will_queue alias s =
    (Returned
       (bool_decide
          (default [] (queues s !! alias) <> []
           \/ Z.max 1 ptl <= Z.of_nat (running_in alias s)
           \/ mw <= Z.of_nat (running s))),
     _ensure_workers alias s).
Proof.
  intros Hr. destruct (reachable_balanced _ _ _ Hr) as [[Ht Hg Hs Hf] Hm].
  pose proof (reachable_limit _ _ _ Hr) as Hl.
  destruct (ensure_has_queue alias s (reachable_queues_ready _ _ _ Hr)) as [q Hq].
  destruct (ensure_sched alias s) as (_ & Ea & Eg & Em & El & Eq).
  unfold will_queue. rewrite Hq, Ea, Eg, Em, El. rewrite Hq in Eq. simpl in Eq.
  rewrite <- Eq, Ht, Hg, Hm, Hl.
  destruct q as [|x q]; simpl.
  - destruct (Z.leb_spec (Z.max 1 ptl) (Z.of_nat (running_in alias s))).
    + do 2 f_equal. symmetry. apply bool_decide_eq_true_2. auto.
    + destruct (Z.leb_spec (Z.max 0 (mw - Z.of_nat (running s))) 0).
      * do 2 f_equal. symmetry. apply bool_decide_eq_true_2. right. right. lia.
      * do 2 f_equal. symmetry. apply bool_decide_eq_false_2.
        intros [?|[?|?]]; [done|lia|lia].
  - do 2 f_equal; try (symmetry; apply bool_decide_eq_true_2; by left).
Qed.

Lemma will_queue_reads_the_load_witness :
  (will_queue "flux" demo_state).1 = Returned true.
Proof.
  assert (reachable 2 1 demo_state) as Hr.
  { exists demo_init, demo_ops. split; vm_compute; reflexivity. }
  rewrite (will_queue_reads_the_load 2 1 demo_state "flux" Hr). simpl. f_equal.
Defined.

End JobsQueueSched.

(* ===================================================================== *)
(** ** Order of service and cancellation of queued jobs                  *)
(* ===================================================================== *)

Module JobsQueueOrder.
Import JobsQueue JobsQueueProps.

(** *** First in, first out *)

Lemma enqueue_limited_queue alias job lim s s1 :
  enqueue_limited alias job lim s = (Returned true, s1) ->
  queues s1 !! alias = Some (default [] (queues s !! alias) ++ [Some (next_ref s)])
  /\ store s1 = <[next_ref s := job]> (store s)
  /\ next_ref s1 = S (next_ref s).
Proof.
  unfold enqueue_limited.
  destruct (closed s || negb (processor s)); [done|].
  match goal with
  | |- context [if (match ?l with Some _ => _ | None => false end) then _ else _] =>
      destruct (match l with Some _ => _ | None => false end)
  end; [done|].
  simpl. unfold put, inc_pending_of, _ensure_workers.
  destruct (user_id job =? 0); simpl;
    destruct (workers s !! alias) as [[|w pool]|]; simpl;
    destruct (queues s !! alias) as [q|] eqn:Eq; simpl;
    rewrite ?lookup_insert_eq, ?Eq; simpl; intros [= <-]; simpl;
    by rewrite lookup_insert_eq.
Qed.

Lemma accept_all_queue alias lim jobs : forall s s',
  accept_all alias lim jobs s = (true, s') ->
  queues s' !! alias
  = (if jobs is [] then queues s !! alias
     else Some (default [] (queues s !! alias)
                ++ (@Some ref <$> seq (next_ref s) (length jobs))))
  /\ next_ref s' = (next_ref s + length jobs)%nat
  /\ (forall r, (r < next_ref s)%nat -> store s' !! r = store s !! r)
  /\ (forall k job, jobs !! k = Some job -> store s' !! (next_ref s + k)%nat = Some job).
Proof.
  induction jobs as [|job rest IH]; intros s s'; simpl.
  - intros [= <-]. split; [done|]. split; [lia|]. split; [done|]. by intros k job.
  - destruct (enqueue_limited alias job lim s) as [[[|]|msg] s1] eqn:E; try done.
    intros Ha. destruct (enqueue_limited_queue _ _ _ _ _ E) as (Hq & Hst & Hn).
    destruct (IH s1 s' Ha) as (Hq' & Hn' & Hlow & Hjobs).
    split; [|split; [lia|split]].
    + rewrite Hq'. destruct rest as [|j2 rest]; [done|].
      rewrite Hq, Hn. simpl. by rewrite <- app_assoc.
    + intros r Hr. rewrite Hlow by lia. rewrite Hst. apply lookup_insert_ne. lia.
    + intros [|k] j Hk; simpl in Hk.
      * injection Hk as <-. rewrite Nat.add_0_r, Hlow by lia.
        rewrite Hst. apply lookup_insert_eq.
      * replace (next_ref s + S k)%nat with (next_ref s1 + k)%nat by lia. by apply Hjobs.
Qed.

(** X7: the jobs of a batch that [enqueue_limited] accepted sit in the
    queue of the topic behind what was there, in the order of acceptance,
    each as it was handed in; and a worker takes the head of the queue and
    leaves the rest in order. *)
Theorem topic_queue_is_fifo (alias : string) (lim : option Z)
    (jobs : list GenerateJob) (s s' : state) :
  accept_all alias lim jobs s = (true, s') -> jobs <> [] ->
  queues s' !! alias
  = Some (default [] (queues s !! alias) ++ (@Some ref <$> seq (next_ref s) (length jobs)))
  /\ (forall k job, jobs !! k = Some job -> store s' !! (next_ref s + k)%nat = Some job)
  /\ (forall i item rest s2,
        queues s' !! alias = Some (item :: rest) ->
        worker_get alias i s' = Some s2 -> queues s2 !! alias = Some rest).
Proof.
  intros Ha Hne. destruct (accept_all_queue alias lim jobs s s' Ha) as (Hq & _ & _ & Hj).
  split; [by destruct jobs|]. split; [done|].
  intros i item rest s2 Hq2. unfold worker_get. rewrite Hq2.
  destruct (task_at alias i s') as [[| | |]|]; try done. simpl.
  destruct item as [r|]; [|intros [= <-]; simpl; apply lookup_insert_eq].
  destruct (closed s'); [intros [= <-]; simpl; apply lookup_insert_eq|].
  destruct (store s' !! r) as [job|]; [|done].
  destruct (canceled job); intros [= <-]; simpl; apply lookup_insert_eq.
Qed.

Definition second_job : GenerateJob := mkJob 1 1 101 "a dog" 7 "flux" false false false.

Lemma topic_queue_is_fifo_witness :
  queues (accept_all "flux" None [demo_job; second_job] (set_processor demo_init)).2 !! "flux"
  = Some [Some 0%nat; Some 1%nat].
Proof.
  destruct (topic_queue_is_fifo "flux" None [demo_job; second_job]
              (set_processor demo_init)
              (accept_all "flux" None [demo_job; second_job] (set_processor demo_init)).2)
    as (H & _); [vm_compute; reflexivity|done|].
  exact H.
Defined.

(** *** A job canceled while it is queued *)

(** The job a worker has in hand. *)
Definition holds (r : ref) (t : task) : bool :=
  match t with
  | Acquiring j | Processing j => bool_decide (j = r)
  | _ => false
  end.

Definition in_no_hand (r : ref) (s : state) : Prop :=
  forall alias i t, task_at alias i s = Some t -> holds r t = false.

(** What a worker can be moved to by one operation. *)
Definition allowed (s : state) (alias : string) (i : nat) (t : task) : Prop :=
  t = Waiting \/ t = Stopped
  \/ (exists r job, t = Acquiring r /\ store s !! r = Some job /\ canceled job = false)
  \/ (exists r, t = Processing r /\ task_at alias i s = Some (Acquiring r)).

Inductive hand_step (s s' : state) : Prop :=
  | hand_same : workers s' = workers s -> hand_step s s'
  | hand_created alias n :
      workers s' = <[alias := replicate n Waiting]> (workers s) -> hand_step s s'
  | hand_set alias i t :
      allowed s alias i t ->
      workers s' = alter (fun pool => <[i := t]> pool) alias (workers s) ->
      hand_step s s'
  | hand_cleared : workers s' = ∅ -> hand_step s s'.

Ltac hand_case :=
  lazymatch goal with
  | |- hand_step ?s ?s' =>
      let w := eval simpl in (workers s') in
      lazymatch w with
      | workers s => apply hand_same; reflexivity
      | <[_ := replicate _ Waiting]> (workers s) => eapply hand_created; reflexivity
      | alter (fun pool => <[_ := Waiting]> pool) _ _ =>
          eapply hand_set; [left; reflexivity|reflexivity]
      | alter (fun pool => <[_ := Stopped]> pool) _ _ =>
          eapply hand_set; [right; left; reflexivity|reflexivity]
      | alter (fun pool => <[_ := Acquiring _]> pool) _ _ =>
          eapply hand_set;
            [right; right; left; do 2 eexists; split; [reflexivity|split; eassumption]
            |reflexivity]
      | alter (fun pool => <[_ := Processing _]> pool) _ _ =>
          eapply hand_set;
            [right; right; right; eexists; split; [reflexivity|eassumption]|reflexivity]
      | ∅ => apply hand_cleared; reflexivity
      end
  end.

Lemma exec_hand o s s' : exec o s = Some s' -> hand_step s s'.
Proof.
  destruct o as [|alias job|alias job lim|alias job reserved|u lim|u|alias|mid b
                |alias i|alias i|alias i| |]; simpl; intros He; open_ops;
    split_body; hand_case.
Qed.

(** A job is marked started only by the worker that holds it. *)
Inductive start_step (s s' : state) : Prop :=
  | start_same :
      store s' = store s -> next_ref s' = next_ref s -> start_step s s'
  | start_alloc job :
      store s' = <[next_ref s := job]> (store s) -> start_step s s'
  | start_cancel r job b :
      store s !! r = Some job ->
      store s' = <[r := mark_canceled b job]> (store s) -> start_step s s'
  | start_start alias i r job :
      task_at alias i s = Some (Acquiring r) ->
      store s !! r = Some job ->
      store s' = <[r := mark_started job]> (store s) -> start_step s s'.

Lemma exec_start o s s' : exec o s = Some s' -> start_step s s'.
Proof.
  destruct o as [|alias job|alias job lim|alias job reserved|u lim|u|alias|mid b
                |alias i|alias i|alias i| |]; simpl; intros He; open_ops;
    split_body;
    first [ by apply start_same
          | by eapply start_alloc
          | by eapply start_cancel
          | by (eapply start_start; eauto) ].
Qed.

Lemma task_after_set (ws : gmap string (list task)) alias i t a k t' :
  (alter (fun pool => <[i := t]> pool) alias ws !! a) ≫= (fun pool => pool !! k) = Some t' ->
  (a = alias /\ k = i /\ t' = t) \/ (ws !! a) ≫= (fun pool => pool !! k) = Some t'.
Proof.
  destruct (decide (alias = a)) as [<-|Hne].
  - rewrite lookup_alter_eq. destruct (ws !! alias) as [pool|]; simpl; [|done].
    destruct (decide (i = k)) as [<-|Hik].
    + intros H. left. apply list_lookup_insert_Some in H as [(_ & <- & _)|(? & _)]; done.
    + rewrite list_lookup_insert_ne by done. auto.
  - rewrite lookup_alter_ne by done. auto.
Qed.

(** The invariant: the job is canceled, not started, and in no hand. *)
Definition dropped (r : ref) (s : state) : Prop :=
  store_ok s
  /\ (exists job, store s !! r = Some job /\ canceled job = true /\ started job = false)
  /\ in_no_hand r s.

Lemma dropped_step r o s s' : dropped r s -> exec o s = Some s' -> dropped r s'.
Proof.
  intros (Hok & (job & Hj & Hc & Hs) & Hh) He.
  split; [by eapply exec_store_ok|]. split.
  - destruct (exec_start _ _ _ He) as [-> _ | j -> | r0 j b Hr0 -> | alias i r0 j Hat Hr0 ->].
    + by exists job.
    + exists job. rewrite lookup_insert_ne; [done|]. apply Hok in Hj. lia.
    + destruct (decide (r0 = r)) as [->|Hne].
      * rewrite lookup_insert_eq. eexists. split; [done|]. simpl.
        rewrite Hj in Hr0. by injection Hr0 as <-.
      * rewrite lookup_insert_ne by done. by exists job.
    + destruct (decide (r0 = r)) as [->|Hne].
      * apply Hh in Hat. simpl in Hat. by rewrite bool_decide_eq_true_2 in Hat.
      * rewrite lookup_insert_ne by done. by exists job.
  - intros a k t'. unfold task_at.
    destruct (exec_hand _ _ _ He) as [-> | alias n -> | alias i t Hal -> | ->].
    + apply Hh.
    + destruct (decide (alias = a)) as [<-|Hne].
      * rewrite lookup_insert_eq. simpl. intros Hl.
        apply lookup_replicate in Hl as [-> _]. done.
      * rewrite lookup_insert_ne by done. apply Hh.
    + intros [(-> & -> & ->)|Hold]%task_after_set; [|by apply (Hh a k)].
      destruct Hal as [->|[->|[(r0 & j & -> & Hr0 & Hc0)|(r0 & -> & Hat)]]]; try done.
      * simpl. apply bool_decide_eq_false_2. intros ->. congruence.
      * apply Hh in Hat. exact Hat.
    + by rewrite lookup_empty.
Qed.

Lemma cancel_keeps_workers mid b s : workers (cancel_job mid b s).2 = workers s.
Proof.
  unfold cancel_job. destruct (registry s !! mid) as [r|]; [|done].
  destruct (store s !! r) as [job|]; [|done].
  destruct (started job); [done|]. destruct (canceled job); [done|].
  simpl. unfold dec_pending_of. by destruct (user_id job =? 0).
Qed.

(** X12: a job whose cancellation succeeded while no worker had it in hand
    (it was still in its queue) is never started: in every later state it
    is canceled and not started, and no worker holds it. *)
Theorem job_canceled_in_queue_never_starts (mw ptl mid : Z) (by_admin : bool)
    (r : ref) (os : list op) (s s' : state) :
  reachable mw ptl s ->
  registry s !! mid = Some r ->
  (cancel_job mid by_admin s).1 = true ->
  in_no_hand r s ->
  run os (cancel_job mid by_admin s).2 = Some s' ->
  (exists job, store s' !! r = Some job /\ canceled job = true /\ started job = false)
  /\ in_no_hand r s'.
Proof.
  intros Hr Hreg Htrue Hh Hrun.
  assert (dropped r s') as (_ & H1 & H2); [|done].
  revert Hrun. apply (run_invariant (dropped r)); [intros o s1 s2; apply dropped_step|].
  pose proof (reachable_store_ok _ _ _ Hr) as Hok.
  apply cancel_true_iff in Htrue as (r' & job & Hreg' & Hj & Hs & Hc).
  rewrite Hreg in Hreg'. injection Hreg' as <-.
  destruct (cancel_effect mid by_admin s r job Hreg Hj Hs Hc) as (Hst & _ & _).
  split; [|split].
  - apply (exec_store_ok (CancelJob mid by_admin) s); [done|reflexivity].
  - exists (mark_canceled by_admin job). rewrite Hst, lookup_insert_eq. done.
  - intros alias i t. unfold task_at. rewrite cancel_keeps_workers. apply Hh.
Qed.

Lemma job_canceled_in_queue_never_starts_witness :
  exists s' job,
    run [WorkerGet "flux" 0%nat] (cancel_job 100 false demo_state).2 = Some s'
    /\ store s' !! 0%nat = Some job /\ started job = false.
Proof.
  assert (reachable 2 1 demo_state) as Hr.
  { exists demo_init, demo_ops. split; vm_compute; reflexivity. }
  assert (in_no_hand 0%nat demo_state) as Hh.
  { intros alias i t. unfold task_at. vm_compute workers.
    change ((({["flux" := [Waiting]]} : gmap string (list task)) !! alias)
              ≫= (fun pool => pool !! i) = Some t -> holds 0%nat t = false).
    intros H. apply bind_Some in H as (pool & [_ <-]%lookup_singleton_Some & Hi).
    destruct i as [|i]; simpl in Hi; [by injection Hi as <-|done]. }
  eexists.
  destruct (job_canceled_in_queue_never_starts 2 1 100 false 0%nat
              [WorkerGet "flux" 0%nat] demo_state _ Hr
              ltac:(vm_compute; reflexivity) ltac:(vm_compute; reflexivity) Hh
              ltac:(vm_compute; reflexivity)) as [(job & Hj & _ & Hs) _].
  exists job. split; [reflexivity|]. split; [exact Hj|exact Hs].
Defined.

End JobsQueueOrder.

(* ===================================================================== *)
(** ** Draining the queues                                               *)
(* ===================================================================== *)

(** Whether the workers of a topic can empty its queue.  A worker takes a
    job off the queue, waits for a permit of the global semaphore, runs the
    processor and comes back for the next job; the model lets the processor
    return whenever it is scheduled to. *)
Module JobsQueueDrain.
Import JobsQueue JobsQueueProps JobsQueueLaws JobsQueueSched JobsQueueOrder.




(** *** How one operation changes a queue and a task *)








(** *** What an open controller looks like *)







(** *** The steps of a worker *)










(** *** Every worker comes back to its queue *)




(** *** A controller without permits *)




(** No permit is free, no job is being processed, the one worker of topic
    "a" holds the first job and the second job heads the queue. *)
Record stuck (s : state) : Prop := mkStuck {
  stuck_sema : global_sema s = 0;
  stuck_idle : forall alias i t, task_at alias i s = Some t -> is_processing t = false;
  stuck_pool : workers s !! "a" = Some [Acquiring 0%nat];
  stuck_head : exists rest : list (option ref), queues s !! "a" = Some (@Some ref 1%nat :: rest)
}.


Lemma stuck_no_waiting s i : stuck s -> task_at "a" i s <> Some Waiting.
Proof.
  intros [_ _ Hp _]. unfold task_at. rewrite Hp. simpl.
  destruct i as [|i]; simpl; [done|by destruct i].
Qed.









End JobsQueueDrain.

(* ===================================================================== *)
(** ** Admission of a request by the bot                                 *)
(* ===================================================================== *)

(** [_send_and_enqueue] of [app/tg/bot.py], the one caller of the
    reservation calls of the controller.  What it sends to the chat is left
    out, but for the placeholder message: [placeholder] is the id of the
    message that [send_placeholder] returned, or [None] when sending
    raised.  The calls are run one after the other, no other task stepping
    in between them. *)
Module Admission.
Import JobsQueue JobsQueueProps JobsQueueLaws.

(** [if reserved and user_id > 0: await jobs_queue.release_user_slot(user_id)] *)
Definition rollback (reserved : bool) (user_id : Z) (s : state) : state :=
  if reserved && (0 <? user_id) then release_user_slot user_id s else s.

(** From the placeholder on: build the job and enqueue it. *)
Definition enqueue_placeholder (alias : string) (chat_id thread_id user_id : Z)
    (prompt : string) (reserved : bool) (placeholder : option Z) (s : state)
    : outcome bool * state :=
  match will_queue alias s with
  | (Raised _, s1) => (Returned false, rollback reserved user_id s1)
  | (Returned will_wait, s1) =>
      match placeholder with
      | None => (Returned false, rollback reserved user_id s1)
      | Some placeholder_msg_id =>
          let job :=
            mkJob chat_id thread_id placeholder_msg_id prompt user_id alias
              false false false in
          match enqueue_reserved alias job reserved s1 with
          | (Returned true, s2) => (Returned true, s2)
          | (Returned false, s2) => (Returned false, rollback reserved user_id s2)
          | (Raised msg, s2) => (Raised msg, s2)
          end
      end
  end.

Definition _send_and_enqueue (per_user_limit : Z) (alias : string)
    (chat_id thread_id user_id : Z) (prompt : string) (placeholder : option Z)
    (s : state) : outcome bool * state :=
  if (0 <? per_user_limit) && (0 <? user_id) then
    if can_enqueue user_id (Some per_user_limit) s then
      match reserve_user_slot user_id (Some per_user_limit) s with
      | (true, s1) =>
          enqueue_placeholder alias chat_id thread_id user_id prompt true placeholder s1
      | (false, s1) => (Returned false, s1)
      end
    else (Returned false, s)
  else enqueue_placeholder alias chat_id thread_id user_id prompt false placeholder s.

(** *** What a refused request leaves behind *)

(** The same jobs, the same counters and the same queue contents. *)
Definition same_load (s s' : state) : Prop :=
  pending_by_user s' = pending_by_user s
  /\ registry s' = registry s
  /\ store s' = store s
  /\ forall a, default [] (queues s' !! a) = default [] (queues s !! a).

Lemma ensure_same_queue alias s a :
  default [] (queues (_ensure_workers alias s) !! a) = default [] (queues s !! a).
Proof.
  unfold _ensure_workers.
  destruct (workers s !! alias) as [[|w pool]|]; try done;
    destruct (queues s !! alias) eqn:Eq; simpl; try done;
    (destruct (decide (alias = a)) as [<-|Hne];
     [by rewrite lookup_insert_eq, Eq|by rewrite lookup_insert_ne]).
Qed.

Lemma will_queue_state alias s : (will_queue alias s).2 = _ensure_workers alias s.
Proof.
  unfold will_queue. destruct (queues (_ensure_workers alias s) !! alias); [|done].
  repeat match goal with |- context [if ?c then _ else _] => destruct c end; done.
Qed.

Lemma ensure_same_load alias s : same_load s (_ensure_workers alias s).
Proof.
  destruct (ensure_registry alias s) as (Hr & Hs & _).
  split; [apply ensure_pending|]. split; [done|]. split; [done|].
  apply ensure_same_queue.
Qed.

(** After a reservation, the rollback undoes it, pools or no pools. *)
Lemma rollback_reserved alias u L s :
  positive_counters (pending_by_user s) -> 0 < u ->
  (reserve_user_slot u (Some L) s).1 = true ->
  same_load s (rollback true u (_ensure_workers alias (reserve_user_slot u (Some L) s).2)).
Proof.
  intros Hp Hu. unfold reserve_user_slot, rollback, release_user_slot.
  destruct (Z.leb_spec u 0); [lia|]. destruct (Z.ltb_spec 0 u); [|lia].
  destruct (limit_enabled (Some L)) as [l|]; [|done].
  destruct (l <=? pending_count_by_user s u); [done|]. simpl. intros _.
  rewrite ensure_set_pending.
  destruct (ensure_same_load alias s) as (H1 & H2 & H3 & H4).
  split; [|by repeat split]. simpl. rewrite H1. by apply dec_inc_pending.
Qed.

Lemma enqueue_reserved_false alias job reserved s s' :
  enqueue_reserved alias job reserved s = (Returned false, s') -> s' = s.
Proof.
  unfold enqueue_reserved. destruct (closed s || negb (processor s)); [by intros [= <-]|].
  simpl. destruct (put _ _ _); done.
Qed.

(** X23: a request that [_send_and_enqueue] turns down, for the limit, a
    placeholder that could not be sent or a closed controller, leaves the
    controller with the same pending counters, the same registry and the
    same queue contents as before: a slot reserved on the way is given
    back. *)
Theorem refused_request_leaves_no_trace (per_user_limit : Z) (alias : string)
    (chat_id thread_id user_id : Z) (prompt : string) (placeholder : option Z)
    (s s' : state) :
  positive_counters (pending_by_user s) ->
  _send_and_enqueue per_user_limit alias chat_id thread_id user_id prompt placeholder s
  = (Returned false, s') ->
  same_load s s'.
Proof.
  intros Hp. unfold _send_and_enqueue.
  assert (forall s0, same_load s0 s0) as Hrefl by (intros s0; by repeat split).
  destruct ((0 <? per_user_limit) && (0 <? user_id)) eqn:El.
  - apply andb_true_iff in El as [HL Hu]. apply Z.ltb_lt in HL, Hu.
    destruct (can_enqueue user_id (Some per_user_limit) s); [|by intros [= <-]].
    destruct (reserve_user_slot user_id (Some per_user_limit) s) as [[|] s1] eqn:Er.
    + assert ((reserve_user_slot user_id (Some per_user_limit) s).1 = true) as Ht
        by (by rewrite Er).
      pose proof (rollback_reserved alias user_id per_user_limit s Hp Hu Ht) as Hrb.
      rewrite Er in Hrb. simpl in Hrb.
      unfold enqueue_placeholder.
      pose proof (will_queue_state alias s1) as Hw.
      destruct (will_queue alias s1) as [[b|msg] s2]; simpl in Hw; subst s2;
        [|by intros [= <-]].
      destruct placeholder as [mid|]; [|by intros [= <-]].
      destruct (enqueue_reserved alias _ true (_ensure_workers alias s1))
        as [[[|]|msg] s3] eqn:Ee; try done.
      apply enqueue_reserved_false in Ee as ->. by intros [= <-].
    + intros [= <-].
      assert (s1 = s) as ->; [|done].
      pose proof (reserve_refused_same user_id (Some per_user_limit) s) as H.
      rewrite Er in H. by apply H.
  - unfold enqueue_placeholder, rollback. simpl.
    pose proof (will_queue_state alias s) as Hw.
    destruct (will_queue alias s) as [[b|msg] s2]; simpl in Hw; subst s2;
      [|intros [= <-]; apply ensure_same_load].
    destruct placeholder as [mid|]; [|intros [= <-]; apply ensure_same_load].
    destruct (enqueue_reserved alias _ false (_ensure_workers alias s))
      as [[[|]|msg] s3] eqn:Ee; try done.
    apply enqueue_reserved_false in Ee as ->. intros [= <-]. apply ensure_same_load.
Qed.

Lemma refused_request_leaves_no_trace_witness :
  same_load demo_state
    (_send_and_enqueue 3 "flux" 1 1 7 "a dog" None demo_state).2.
Proof.
  assert (positive_counters (pending_by_user demo_state)) as Hpos.
  { intros u c. vm_compute pending_by_user.
    change (({[7 := 1]} : gmap Z Z) !! u = Some c -> 0 < c).
    intros [_ <-]%lookup_singleton_Some. lia. }
  apply (refused_request_leaves_no_trace 3 "flux" 1 1 7 "a dog" None demo_state _ Hpos).
  vm_compute. reflexivity.
Defined.

(** *** What an accepted request leaves behind *)

Lemma enqueue_reserved_true alias job reserved s s' :
  enqueue_reserved alias job reserved s = (Returned true, s') ->
  get_job (message_id job) s' = Some job
  /\ pending_by_user s'
     = (if reserved then pending_by_user s
        else pending_by_user (inc_pending_of (user_id job) s))
  /\ queues s' !! alias
     = Some (default [] (queues s !! alias) ++ [Some (next_ref s)])
  /\ store s' !! next_ref s = Some job.
Proof.
  unfold enqueue_reserved. destruct (closed s || negb (processor s)); [done|].
  simpl. unfold put, _ensure_workers.
  destruct reserved; unfold inc_pending_of; destruct (user_id job =? 0); simpl;
    destruct (workers s !! alias) as [[|w pool]|]; simpl;
    destruct (queues s !! alias) as [q|] eqn:Eq; simpl;
    rewrite ?lookup_insert_eq, ?Eq; simpl; intros [= <-]; unfold get_job; simpl;
    rewrite ?lookup_insert_eq; simpl; rewrite ?lookup_insert_eq; done.
Qed.

(** X24: a request that [_send_and_enqueue] accepts is registered under
    the id of its placeholder message and sits last in the queue of its
    topic; its requester's pending counter has gone up by one; and with a
    limit in force the counter was below the limit before, so that it does
    not exceed the limit after. *)
Theorem accepted_request_is_counted_once (per_user_limit : Z) (alias : string)
    (chat_id thread_id user_id : Z) (prompt : string) (placeholder : option Z)
    (s s' : state) :
  0 < user_id ->
  _send_and_enqueue per_user_limit alias chat_id thread_id user_id prompt placeholder s
  = (Returned true, s') ->
  exists placeholder_msg_id job,
    placeholder = Some placeholder_msg_id
    /\ get_job placeholder_msg_id s' = Some job
    /\ user_id = JobsQueue.user_id job /\ canceled job = false /\ started job = false
    /\ queues s' !! alias = Some (default [] (queues s !! alias) ++ [Some (next_ref s)])
    /\ store s' !! next_ref s = Some job
    /\ pending_count_by_user s' user_id = pending_count_by_user s user_id + 1
    /\ (0 < per_user_limit -> pending_count_by_user s' user_id <= per_user_limit).
Proof.
  intros Hu. unfold _send_and_enqueue. destruct (Z.ltb_spec 0 user_id); [|lia].
  assert (forall reserved s1,
            enqueue_placeholder alias chat_id thread_id user_id prompt reserved placeholder s1
            = (Returned true, s') ->
            exists mid job,
              placeholder = Some mid /\ get_job mid s' = Some job
              /\ user_id = JobsQueue.user_id job /\ canceled job = false
              /\ started job = false
              /\ queues s' !! alias
                 = Some (default [] (queues s1 !! alias) ++ [Some (next_ref s1)])
              /\ store s' !! next_ref s1 = Some job
              /\ pending_by_user s'
                 = (if reserved then pending_by_user s1
                    else _inc_pending user_id (pending_by_user s1))) as Hplace.
  { intros reserved s1. unfold enqueue_placeholder.
    pose proof (will_queue_state alias s1) as Hw.
    destruct (will_queue alias s1) as [[b|msg] s2]; simpl in Hw; subst s2; [|done].
    destruct placeholder as [mid|]; [|done].
    destruct (enqueue_reserved alias _ reserved (_ensure_workers alias s1))
      as [[[|]|msg] s3] eqn:Ee; try done.
    intros [= <-]. apply enqueue_reserved_true in Ee as (Hg & Hp & Hq & Hs).
    simpl in *. destruct (ensure_registry alias s1) as (_ & _ & Hn).
    rewrite Hn in Hq, Hs. rewrite ensure_same_queue in Hq.
    eexists mid, _. repeat split; try done.
    rewrite Hp. unfold inc_pending_of. destruct (Z.eqb_spec user_id 0); [lia|].
    destruct reserved; simpl; by rewrite ensure_pending. }
  simpl. rewrite andb_true_r.
  destruct (Z.ltb_spec 0 per_user_limit) as [HL|HL].
  - destruct (can_enqueue user_id (Some per_user_limit) s); [|done].
    unfold reserve_user_slot, limit_enabled.
    destruct (Z.leb_spec user_id 0); [lia|]. destruct (Z.ltb_spec 0 per_user_limit); [|lia].
    destruct (Z.leb_spec per_user_limit (pending_count_by_user s user_id)); [done|].
    intros He. apply Hplace in He as (mid & job & Hm & Hg & Hj & Hc & Hst & Hq & Hs & Hp).
    simpl in *. exists mid, job. repeat split; try done.
    + unfold pending_count_by_user in *. rewrite Hp. by apply count_inc.
    + intros _. unfold pending_count_by_user in *. rewrite Hp, count_inc by done. lia.
  - intros He. apply Hplace in He as (mid & job & Hm & Hg & Hj & Hc & Hst & Hq & Hs & Hp).
    exists mid, job. repeat split; try done; [|lia].
    unfold pending_count_by_user. rewrite Hp. by apply count_inc.
Qed.

Lemma accepted_request_is_counted_once_witness :
  pending_count_by_user
    (_send_and_enqueue 3 "flux" 1 1 7 "a dog" (Some 101) demo_state).2 7
  = 2.
Proof.
  destruct (accepted_request_is_counted_once 3 "flux" 1 1 7 "a dog" (Some 101)
              demo_state
              (_send_and_enqueue 3 "flux" 1 1 7 "a dog" (Some 101) demo_state).2
              ltac:(lia) ltac:(vm_compute; reflexivity))
    as (mid & job & _ & _ & _ & _ & _ & _ & _ & Hn & _).
  rewrite Hn. vm_compute. reflexivity.
Defined.

End Admission.

(* ===================================================================== *)
(** ** The artifacts of a completed run                                  *)
(* ===================================================================== *)

(** The second half of [ComfyClient.submit_and_wait]: the outputs of the
    history entry are classified into videos, images and audio, and every
    file becomes a [MediaURL] that points at [GET /view].  The [history]
    field of a [Protocol.world] stands for the result of [collect_media] on
    the entry the engine returns. *)
Module Media.
Import Workflow Protocol.

(** [str.endswith] *)
Fixpoint endswith (s suffix : string) : bool :=
  String.eqb s suffix
  || match s with
     | EmptyString => false
     | String _ r => endswith r suffix
     end.

(** *** MIME types by extension *)

Definition _guess_audio_mime (filename : string) : string :=
  let fn := lower filename in
  if endswith fn ".flac" then "audio/flac"
  else if endswith fn ".wav" then "audio/wav"
  else if endswith fn ".mp3" then "audio/mpeg"
  else if endswith fn ".m4a" || endswith fn ".aac" then "audio/aac"
  else if endswith fn ".ogg" || endswith fn ".oga" then "audio/ogg"
  else "application/octet-stream".

Definition _guess_video_mime (filename : string) : string :=
  let fn := lower filename in
  if endswith fn ".mp4" || endswith fn ".m4v" then "video/mp4"
  else if endswith fn ".webm" then "video/webm"
  else if endswith fn ".mov" then "video/quicktime"
  else if endswith fn ".mkv" then "video/x-matroska"
  else if endswith fn ".gif" then "image/gif"
  else "application/octet-stream".

Definition _guess_image_mime (filename : string) : string :=
  let fn := lower filename in
  if endswith fn ".png" then "image/png"
  else if endswith fn ".jpg" || endswith fn ".jpeg" then "image/jpeg"
  else if endswith fn ".webp" then "image/webp"
  else if endswith fn ".bmp" then "image/bmp"
  else if endswith fn ".tiff" || endswith fn ".tif" then "image/tiff"
  else "application/octet-stream".

(** *** [urllib.parse.urlencode]

    [quote_plus] works on the bytes of the string: letters, digits and
    [_.-~] stay, a space becomes [+], every other byte becomes [%XX] with
    upper-case hexadecimal digits. *)

Definition always_safe (c : ascii) : bool :=
  let n := nat_of_ascii c in
  ((65 <=? n)%nat && (n <=? 90)%nat) || ((97 <=? n)%nat && (n <=? 122)%nat)
  || ((48 <=? n)%nat && (n <=? 57)%nat)
  || Ascii.eqb c "_" || Ascii.eqb c "." || Ascii.eqb c "-" || Ascii.eqb c "~".

Definition hex_digit (n : nat) : ascii :=
  if (n <? 10)%nat then ascii_of_nat (48 + n) else ascii_of_nat (55 + n).

Definition quote_char (c : ascii) : string :=
  if always_safe c then String c EmptyString
  else if Ascii.eqb c " " then "+"
  else
    String "%"
      (String (hex_digit (nat_of_ascii c / 16))
         (String (hex_digit (nat_of_ascii c mod 16)) EmptyString)).

Fixpoint quote_plus (s : string) : string :=
  match s with
  | EmptyString => EmptyString
  | String c r => quote_char c +:+ quote_plus r
  end.

(** ['&'.join(...)] *)
Fixpoint join_amp (l : list string) : string :=
  match l with
  | [] => EmptyString
  | [x] => x
  | x :: rest => x +:+ "&" +:+ join_amp rest
  end.

Definition urlencode (query : list (string * string)) : string :=
  join_amp ((fun kv => quote_plus kv.1 +:+ "=" +:+ quote_plus kv.2) <$> query).

(** [f"{self.base_url}/view?{params}"] *)
Definition view_url (base_url filename subfolder type : string) : string :=
  base_url +:+ "/view?"
  +:+ urlencode [("filename", filename); ("subfolder", subfolder); ("type", type)].

(** *** The history entry *)

(** A file of an output list, as ComfyUI writes it in a history entry: a
    JSON object that holds strings under the keys [filename], [subfolder]
    and [type]; [None] is a missing key.  Entries of another shape (a list
    that is null, a file that is not an object, a name that is not a
    string) are outside this type, and the statements on the collection
    say nothing of them. *)
Record file : Type := mkFile {
  file_filename : option string;
  file_subfolder : option string;
  file_type : option string
}.

(** The outputs of one node: the lists under the four keys the code looks
    at ([None] is a missing key) and the truth value of [animated]. *)
Record node_out : Type := mkNodeOut {
  videos : option (list file);
  images : option (list file);
  audio : option (list file);
  audios : option (list file);
  animated : bool
}.

(** [entry.get("outputs", {})], in the order of the JSON object. *)
Definition outputs : Type := list (string * node_out).

(** [MediaURL(url=..., filename=v["filename"], ...)]; a missing key raises
    [KeyError]. *)
Definition media_of (base_url kind : string) (mime : string -> string) (f : file)
    : option MediaURL :=
  fn ← file_filename f;
  sub ← file_subfolder f;
  ty ← file_type f;
  Some (mkMediaURL (view_url base_url fn sub ty) fn sub kind (mime fn)).

(** [{nid for nid, node in workflow.items() if node.get("class_type") == cls}] *)
Definition is_class (cls : string) (nd : node) : bool :=
  match class_type nd with
  | Some (VStr c) => String.eqb c cls
  | _ => false
  end.

Definition nodes_of_class (cls : string) (wf : workflow) : gset string :=
  dom (filter (fun kv => is_class cls kv.2 = true) wf).

Definition saveimage_nodes : workflow -> gset string := nodes_of_class "SaveImage".
Definition savevideo_nodes : workflow -> gset string := nodes_of_class "SaveVideo".

Definition is_video_node (wf : workflow) (node_id : string) (node_out : node_out) : bool :=
  bool_decide (node_id ∈ savevideo_nodes wf) || animated node_out.

(** A loop over the nodes of the outputs that appends to [media]. *)
Fixpoint for_nodes (body : string -> node_out -> option (list MediaURL))
    (outs : outputs) : option (list MediaURL) :=
  match outs with
  | [] => Some []
  | (node_id, node_out) :: rest =>
      m ← body node_id node_out;
      ms ← for_nodes body rest;
      Some (m ++ ms)
  end.

(** 1) Videos *)
Definition video_body (wf : workflow) (base_url : string)
    (node_id : string) (node_out : node_out) : option (list MediaURL) :=
  if negb (is_video_node wf node_id node_out) then Some []
  else
    match (match videos node_out with Some fs => Some fs | None => images node_out end) with
    | None => Some []
    | Some files => mapM (media_of base_url "video" _guess_video_mime) files
    end.

(** 2) Images *)
Definition image_body (wf : workflow) (base_url : string)
    (node_id : string) (node_out : node_out) : option (list MediaURL) :=
  if is_video_node wf node_id node_out then Some []
  else
    match images node_out with
    | None => Some []
    | Some files =>
        if bool_decide (saveimage_nodes wf <> ∅)
           && negb (bool_decide (node_id ∈ saveimage_nodes wf))
        then Some []
        else mapM (media_of base_url "image" _guess_image_mime) files
    end.

(** 3) Audio *)
Definition audio_body (base_url : string)
    (node_id : string) (node_out : node_out) : option (list MediaURL) :=
  match (match audio node_out with Some fs => Some fs | None => audios node_out end) with
  | None => Some []
  | Some files => mapM (media_of base_url "audio" _guess_audio_mime) files
  end.

(** 4) Fallback: every file under the four keys, in the order
    [("videos", "images", "audio", "audios")]. *)
Definition fallback_key (base_url : string) (node_out : node_out)
    (is_videos is_audio : bool) (files : option (list file)) : option (list MediaURL) :=
  match files with
  | None => Some []
  | Some fs =>
      if is_videos || animated node_out
      then mapM (media_of base_url "video" _guess_video_mime) fs
      else if is_audio
      then mapM (media_of base_url "audio" _guess_audio_mime) fs
      else mapM (media_of base_url "image" _guess_image_mime) fs
  end.

Definition fallback_body (base_url : string)
    (node_id : string) (node_out : node_out) : option (list MediaURL) :=
  m1 ← fallback_key base_url node_out true false (videos node_out);
  m2 ← fallback_key base_url node_out false false (images node_out);
  m3 ← fallback_key base_url node_out false true (audio node_out);
  m4 ← fallback_key base_url node_out false true (audios node_out);
  Some (m1 ++ m2 ++ m3 ++ m4).

(** The three passes that go by the kind of the node. *)
Definition primary_media (wf : workflow) (base_url : string) (outs : outputs)
    : option (list MediaURL) :=
  m1 ← for_nodes (video_body wf base_url) outs;
  m2 ← for_nodes (image_body wf base_url) outs;
  m3 ← for_nodes (audio_body base_url) outs;
  Some (m1 ++ m2 ++ m3).

(** From [media: List[MediaURL] = []] to the end of the fallback. *)
Definition collect_media (wf : workflow) (base_url : string) (outs : outputs)
    : option (list MediaURL) :=
  media ← primary_media wf base_url outs;
  match media with
  | [] => for_nodes (fallback_body base_url) outs
  | _ => Some media
  end.

End Media.

(* ===================================================================== *)
(** ** Properties of the artifact collection                             *)
(* ===================================================================== *)

Module MediaProps.
Import Workflow Protocol Media.

(** Every file under one of the four keys of a node, and of all nodes. *)
Definition files_of (o : node_out) : list file :=
  default [] (videos o) ++ default [] (images o)
  ++ default [] (audio o) ++ default [] (audios o).

Definition all_files (outs : outputs) : list file :=
  concat ((fun kv => files_of kv.2) <$> outs).

Definition well_formed (f : file) : Prop :=
  is_Some (file_filename f) /\ is_Some (file_subfolder f) /\ is_Some (file_type f).

Definition guess_mime (kind : string) : string -> string :=
  if String.eqb kind "video" then _guess_video_mime
  else if String.eqb kind "audio" then _guess_audio_mime
  else _guess_image_mime.

(** An artifact made of a file of the outputs, with one of the three kinds
    and the MIME type guessed for that kind. *)
Definition made_of (base_url : string) (files : list file) (m : MediaURL) : Prop :=
  exists f k,
    f ∈ files /\ k ∈ ["video"; "image"; "audio"]
    /\ media_of base_url k (guess_mime k) f = Some m.

Lemma made_of_mono base fs1 fs2 m :
  fs1 ⊆ fs2 -> made_of base fs1 m -> made_of base fs2 m.
Proof. intros Hs (f & k & Hf & Hk & Hm). exists f, k. auto. Qed.

Lemma mapM_made_of base k files ms :
  k ∈ ["video"; "image"; "audio"] ->
  mapM (media_of base k (guess_mime k)) files = Some ms ->
  Forall (made_of base files) ms.
Proof.
  intros Hk H. apply mapM_Some_1 in H.
  induction H as [|f m files ms Hf _ IH]; [done|].
  apply Forall_cons. split.
  - exists f, k. split; [apply list_elem_of_here|done].
  - eapply Forall_impl; [exact IH|]. intros m'. apply made_of_mono.
    intros x Hx. by apply list_elem_of_further.
Qed.

Lemma video_kind : "video" ∈ ["video"; "image"; "audio"].
Proof. apply list_elem_of_here. Qed.

Lemma image_kind : "image" ∈ ["video"; "image"; "audio"].
Proof. apply list_elem_of_further, list_elem_of_here. Qed.

Lemma audio_kind : "audio" ∈ ["video"; "image"; "audio"].
Proof. do 2 apply list_elem_of_further. apply list_elem_of_here. Qed.

Lemma videos_sub o fs : videos o = Some fs -> fs ⊆ files_of o.
Proof. intros H x Hx. unfold files_of. rewrite H. simpl. rewrite !elem_of_app. auto. Qed.

Lemma images_sub o fs : images o = Some fs -> fs ⊆ files_of o.
Proof. intros H x Hx. unfold files_of. rewrite H. simpl. rewrite !elem_of_app. auto. Qed.

Lemma audio_sub o fs : audio o = Some fs -> fs ⊆ files_of o.
Proof. intros H x Hx. unfold files_of. rewrite H. simpl. rewrite !elem_of_app. auto. Qed.

Lemma audios_sub o fs : audios o = Some fs -> fs ⊆ files_of o.
Proof. intros H x Hx. unfold files_of. rewrite H. simpl. rewrite !elem_of_app. auto. Qed.

Lemma video_body_made wf base nid o ms :
  video_body wf base nid o = Some ms -> Forall (made_of base (files_of o)) ms.
Proof.
  unfold video_body. destruct (negb _); [by intros [= <-]|].
  destruct (videos o) as [fs|] eqn:Ev; [|destruct (images o) as [fs|] eqn:Ei].
  - intros H%(mapM_made_of base "video" fs ms video_kind).
    eapply Forall_impl; [exact H|]. intros m. apply made_of_mono. by apply videos_sub.
  - intros H%(mapM_made_of base "video" fs ms video_kind).
    eapply Forall_impl; [exact H|]. intros m. apply made_of_mono. by apply images_sub.
  - by intros [= <-].
Qed.

Lemma image_body_made wf base nid o ms :
  image_body wf base nid o = Some ms -> Forall (made_of base (files_of o)) ms.
Proof.
  unfold image_body. destruct (is_video_node wf nid o); [by intros [= <-]|].
  destruct (images o) as [fs|] eqn:Ei; [|by intros [= <-]].
  destruct (_ && _); [by intros [= <-]|].
  intros H%(mapM_made_of base "image" fs ms image_kind).
  eapply Forall_impl; [exact H|]. intros m. apply made_of_mono. by apply images_sub.
Qed.

Lemma audio_body_made base nid o ms :
  audio_body base nid o = Some ms -> Forall (made_of base (files_of o)) ms.
Proof.
  unfold audio_body.
  destruct (audio o) as [fs|] eqn:Ev; [|destruct (audios o) as [fs|] eqn:Ei].
  - intros H%(mapM_made_of base "audio" fs ms audio_kind).
    eapply Forall_impl; [exact H|]. intros m. apply made_of_mono. by apply audio_sub.
  - intros H%(mapM_made_of base "audio" fs ms audio_kind).
    eapply Forall_impl; [exact H|]. intros m. apply made_of_mono. by apply audios_sub.
  - by intros [= <-].
Qed.

Lemma fallback_key_made base o v a files fs ms :
  files = Some fs -> fs ⊆ files_of o ->
  fallback_key base o v a files = Some ms -> Forall (made_of base (files_of o)) ms.
Proof.
  intros -> Hs. unfold fallback_key.
  destruct (v || animated o); [|destruct a].
  - intros H%(mapM_made_of base "video" fs ms video_kind).
    eapply Forall_impl; [exact H|]. intros m. by apply made_of_mono.
  - intros H%(mapM_made_of base "audio" fs ms audio_kind).
    eapply Forall_impl; [exact H|]. intros m. by apply made_of_mono.
  - intros H%(mapM_made_of base "image" fs ms image_kind).
    eapply Forall_impl; [exact H|]. intros m. by apply made_of_mono.
Qed.

Lemma fallback_key_made' base o v a files ms :
  (forall fs, files = Some fs -> fs ⊆ files_of o) ->
  fallback_key base o v a files = Some ms -> Forall (made_of base (files_of o)) ms.
Proof.
  intros Hs. destruct files as [fs|] eqn:E.
  - apply (fallback_key_made base o v a (Some fs) fs); [done|by apply Hs].
  - simpl. by intros [= <-].
Qed.

Lemma fallback_body_made base nid o ms :
  fallback_body base nid o = Some ms -> Forall (made_of base (files_of o)) ms.
Proof.
  unfold fallback_body. intros H.
  apply bind_Some in H as (m1 & H1 & H). apply bind_Some in H as (m2 & H2 & H).
  apply bind_Some in H as (m3 & H3 & H). apply bind_Some in H as (m4 & H4 & H).
  injection H as <-. rewrite !Forall_app. repeat split.
  - eapply fallback_key_made'; [|exact H1]. intros fs. apply videos_sub.
  - eapply fallback_key_made'; [|exact H2]. intros fs. apply images_sub.
  - eapply fallback_key_made'; [|exact H3]. intros fs. apply audio_sub.
  - eapply fallback_key_made'; [|exact H4]. intros fs. apply audios_sub.
Qed.

Lemma for_nodes_made base body (outs : outputs) :
  (forall nid o ms, body nid o = Some ms -> Forall (made_of base (files_of o)) ms) ->
  forall ms, for_nodes body outs = Some ms -> Forall (made_of base (all_files outs)) ms.
Proof.
  intros Hb. induction outs as [|[nid o] outs IH]; intros ms; simpl.
  - by intros [= <-].
  - intros H. apply bind_Some in H as (m & Hm & H). apply bind_Some in H as (ms' & Hms & H).
    injection H as <-. apply Forall_app. split.
    + eapply Forall_impl; [exact (Hb _ _ _ Hm)|]. intros x. apply made_of_mono.
      unfold all_files. simpl. intros y Hy. apply elem_of_app. by left.
    + eapply Forall_impl; [exact (IH _ Hms)|]. intros x. apply made_of_mono.
      unfold all_files. simpl. intros y Hy. apply elem_of_app. by right.
Qed.

Lemma collect_cases wf base outs media :
  collect_media wf base outs = Some media ->
  exists m1 m2 m3,
    for_nodes (video_body wf base) outs = Some m1
    /\ for_nodes (image_body wf base) outs = Some m2
    /\ for_nodes (audio_body base) outs = Some m3
    /\ ((m1 ++ m2 ++ m3 <> [] /\ media = m1 ++ m2 ++ m3)
        \/ (m1 ++ m2 ++ m3 = [] /\ for_nodes (fallback_body base) outs = Some media)).
Proof.
  unfold collect_media, primary_media. intros H.
  apply bind_Some in H as (m & Hp & H).
  apply bind_Some in Hp as (m1 & H1 & Hp). apply bind_Some in Hp as (m2 & H2 & Hp).
  apply bind_Some in Hp as (m3 & H3 & Hp). injection Hp as <-.
  exists m1, m2, m3. split; [done|]. split; [done|]. split; [done|].
  destruct (m1 ++ m2 ++ m3) as [|x l] eqn:E.
  - right. done.
  - left. injection H as <-. done.
Qed.

(** The name of the file, when it has one, is ASCII: the MIME type is
    guessed from the lower-cased name. *)
Definition ascii_name (f : file) : bool := from_option isascii true (file_filename f).

(** X13: when the file names of the outputs are ASCII, every artifact that
    the collection returns is made of a file found under [videos],
    [images], [audio] or [audios] of some node of the outputs: it carries
    that file's name and subfolder and its [/view] URL, its kind is video,
    image or audio, and its MIME type is the one guessed for that kind from
    the file name. *)
Theorem artifacts_come_from_output_files (wf : workflow) (base_url : string)
    (outs : outputs) (media : list MediaURL) :
  forallb ascii_name (all_files outs) = true ->
  collect_media wf base_url outs = Some media ->
  Forall (made_of base_url (all_files outs)) media.
Proof.
  intros _ H. apply collect_cases in H as (m1 & m2 & m3 & H1 & H2 & H3 & [[_ ->]|[_ Hf]]).
  - rewrite !Forall_app. repeat split.
    + eapply for_nodes_made; [|exact H1]. apply video_body_made.
    + eapply for_nodes_made; [|exact H2]. apply image_body_made.
    + eapply for_nodes_made; [|exact H3]. apply audio_body_made.
  - eapply for_nodes_made; [|exact Hf]. apply fallback_body_made.
Qed.

Definition png_file : file := mkFile (Some "out 1.png") (Some "") (Some "output").

Definition one_image : outputs := [("9", mkNodeOut None (Some [png_file]) None None false)].

Lemma artifacts_come_from_output_files_witness :
  Forall (made_of "http://comfy" [png_file])
    [mkMediaURL "http://comfy/view?filename=out+1.png&subfolder=&type=output"
       "out 1.png" "" "image" "image/png"].
Proof.
  apply (artifacts_come_from_output_files ∅ "http://comfy" one_image).
  - reflexivity.
  - vm_compute. reflexivity.
Defined.

(** *** Files that have their keys *)

Lemma media_of_total base k mime f : well_formed f -> is_Some (media_of base k mime f).
Proof.
  intros ([fn Hf] & [sub Hs] & [ty Ht]). unfold media_of. rewrite Hf, Hs, Ht. simpl. eauto.
Qed.

(** *** Preview images *)

(** The outputs without the [images] of the nodes that are neither video
    nodes nor [SaveImage] nodes. *)
Definition without_previews (wf : workflow) (outs : outputs) : outputs :=
  (fun kv : string * node_out =>
     if is_video_node wf kv.1 kv.2 || bool_decide (kv.1 ∈ saveimage_nodes wf)
     then kv
     else (kv.1, mkNodeOut (videos kv.2) None (audio kv.2) (audios kv.2) (animated kv.2)))
  <$> outs.

Lemma primary_without_previews wf base (outs : outputs) :
  saveimage_nodes wf <> ∅ ->
  primary_media wf base (without_previews wf outs) = primary_media wf base outs.
Proof.
  intros Hne. unfold primary_media.
  assert (forall body,
            (forall nid o,
               is_video_node wf nid o || bool_decide (nid ∈ saveimage_nodes wf) = false ->
               body nid (mkNodeOut (videos o) None (audio o) (audios o) (animated o))
               = body nid o) ->
            for_nodes body (without_previews wf outs) = for_nodes body outs) as Hsame.
  { intros body Hb. induction outs as [|[nid o] outs IH]; simpl; [done|].
    rewrite IH.
    destruct (is_video_node wf nid o || bool_decide (nid ∈ saveimage_nodes wf)) eqn:E;
      simpl; [done|]. by rewrite Hb. }
  rewrite !Hsame; [done| | |].
  - intros nid o [Hv _]%orb_false_iff. unfold video_body, is_video_node in *. simpl.
    by rewrite Hv.
  - intros nid o [Hv Hs]%orb_false_iff. unfold image_body, is_video_node in *. simpl.
    rewrite Hv, Hs. rewrite (bool_decide_eq_true_2 _ Hne). simpl.
    by destruct (images o).
  - intros nid o _. done.
Qed.

Lemma for_nodes_nonempty body (outs : outputs) nid o m ms :
  (nid, o) ∈ outs -> body nid o = Some m -> m <> [] ->
  for_nodes body outs = Some ms -> ms <> [].
Proof.
  intros Hin Hb Hne. revert ms.
  induction outs as [|[nid' o'] outs IH]; intros ms; simpl; [by apply elem_of_nil in Hin|].
  intros H. apply bind_Some in H as (m' & Hm & H). apply bind_Some in H as (ms' & Hms & H).
  injection H as <-. apply elem_of_cons in Hin as [[= <- <-]|Hin].
  - rewrite Hb in Hm. injection Hm as <-. by destruct m.
  - specialize (IH Hin _ Hms). destruct m'; [done|done].
Qed.

(** X16: when a [SaveImage] node of the workflow has delivered an image,
    the images of the other nodes (previews) are not reported: the result
    is the same as if those nodes had no [images] at all. *)
Theorem previews_are_not_reported (wf : workflow) (base_url : string) (outs : outputs)
    (node_id : string) (o : node_out) (f : file) (fs : list file) :
  (node_id, o) ∈ outs ->
  node_id ∈ saveimage_nodes wf ->
  is_video_node wf node_id o = false ->
  images o = Some (f :: fs) ->
  collect_media wf base_url outs = collect_media wf base_url (without_previews wf outs).
Proof.
  intros Hin Hsave Hnv Him.
  assert (saveimage_nodes wf <> ∅) as Hne.
  { intros E. rewrite E in Hsave. by apply elem_of_empty in Hsave. }
  unfold collect_media. rewrite (primary_without_previews wf base_url outs Hne).
  destruct (primary_media wf base_url outs) as [media|] eqn:Ep; simpl; [|done].
  destruct media as [|m media]; [|done]. exfalso.
  unfold primary_media in Ep.
  apply bind_Some in Ep as (m1 & H1 & Ep). apply bind_Some in Ep as (m2 & H2 & Ep).
  apply bind_Some in Ep as (m3 & H3 & Ep). injection Ep as Ep.
  apply app_eq_nil in Ep as [_ Ep]. apply app_eq_nil in Ep as [E2 _]. subst m2.
  assert (exists m, image_body wf base_url node_id o = Some m /\ m <> []) as (m & Hm & Hmne).
  { destruct (image_body wf base_url node_id o) as [m|] eqn:E.
    - exists m. split; [done|]. revert E. unfold image_body. rewrite Hnv, Him.
      rewrite (bool_decide_eq_true_2 _ Hsave). rewrite andb_false_r.
      intros E%length_mapM. destruct m; [done|done].
    - exfalso. clear -E H2 Hin.
      induction outs as [|[nid' o'] outs IH]; [by apply elem_of_nil in Hin|].
      simpl in H2. apply bind_Some in H2 as (a & Ha & H2).
      apply bind_Some in H2 as (b & Hb & H2). injection H2 as H2.
      apply app_eq_nil in H2 as [-> ->].
      apply elem_of_cons in Hin as [[= <- <-]|Hin]; [congruence|]. by apply IH. }
  by apply (for_nodes_nonempty _ _ _ _ _ _ Hin Hm Hmne H2).
Qed.

Definition save_graph : workflow :=
  {[ "9" := mkNode (Some (VStr "SaveImage")) (Some ∅) [] ;
     "5" := mkNode (Some (VStr "PreviewImage")) (Some ∅) [] ]}.

Definition with_preview : outputs :=
  [("5", mkNodeOut None (Some [mkFile (Some "tmp.png") (Some "") (Some "temp")]) None None false);
   ("9", mkNodeOut None (Some [png_file]) None None false)].

Lemma previews_are_not_reported_witness :
  collect_media save_graph "http://comfy" with_preview
  = collect_media save_graph "http://comfy" (without_previews save_graph with_preview).
Proof.
  apply (previews_are_not_reported save_graph "http://comfy" with_preview "9"
           (mkNodeOut None (Some [png_file]) None None false) png_file []).
  - apply list_elem_of_further, list_elem_of_here.
  - apply (bool_decide_unpack (_ ∈ _)). vm_compute. exact I.
  - vm_compute. reflexivity.
  - reflexivity.
Defined.

End MediaProps.

(* ===================================================================== *)
(** ** The files that the artifact collection reads                      *)
(* ===================================================================== *)

Module MediaReads.
Import Workflow Protocol Media MediaProps.

(** The list that each of the three passes iterates over at one node. *)
Definition video_files (wf : workflow) (node_id : string) (o : node_out) : list file :=
  if is_video_node wf node_id o
  then default [] (match videos o with Some fs => Some fs | None => images o end)
  else [].

Definition image_files (wf : workflow) (node_id : string) (o : node_out) : list file :=
  if is_video_node wf node_id o then []
  else
    match images o with
    | None => []
    | Some fs =>
        if bool_decide (saveimage_nodes wf <> ∅)
           && negb (bool_decide (node_id ∈ saveimage_nodes wf))
        then []
        else fs
    end.

Definition audio_files (o : node_out) : list file :=
  default [] (match audio o with Some fs => Some fs | None => audios o end).

Definition read_by (pick : string -> node_out -> list file) (outs : outputs) : list file :=
  concat ((fun kv => pick kv.1 kv.2) <$> outs).

Definition primary_files (wf : workflow) (outs : outputs) : list file :=
  read_by (video_files wf) outs ++ read_by (image_files wf) outs
  ++ read_by (fun _ => audio_files) outs.

(** The files the collection reads: those of the three passes and, when
    these found none, every file under the four keys. *)
Definition files_read (wf : workflow) (outs : outputs) : list file :=
  match primary_files wf outs with
  | [] => all_files outs
  | fs => fs
  end.

(** An artifact that carries the name, the subfolder and the download
    link of a file. *)
Definition reports (base_url : string) (f : file) (m : MediaURL) : Prop :=
  exists ty,
    f = mkFile (Some (filename m)) (Some (subfolder m)) (Some ty)
    /\ url m = view_url base_url (filename m) (subfolder m) ty.

(** *** The passes as maps over the lists they read *)

Lemma mapM_app {A B} (f : A -> option B) (l1 l2 : list A) :
  mapM f (l1 ++ l2) = m1 ← mapM f l1; m2 ← mapM f l2; Some (m1 ++ m2).
Proof.
  induction l1 as [|x l1 IH]; simpl.
  - by destruct (mapM f l2).
  - destruct (f x) as [y|]; simpl; [|done]. rewrite IH.
    destruct (mapM f l1) as [m1|]; simpl; [|done]. by destruct (mapM f l2).
Qed.

Lemma for_nodes_mapM (f : file -> option MediaURL) pick (outs : outputs) :
  for_nodes (fun node_id o => mapM f (pick node_id o)) outs = mapM f (read_by pick outs).
Proof.
  unfold read_by. induction outs as [|[nid o] outs IH]; [done|].
  cbn [for_nodes fmap list_fmap concat fst snd]. by rewrite mapM_app, IH.
Qed.

Lemma for_nodes_ext body1 body2 (outs : outputs) :
  (forall nid o, body1 nid o = body2 nid o) -> for_nodes body1 outs = for_nodes body2 outs.
Proof.
  intros H. induction outs as [|[nid o] outs IH]; [done|]. simpl. by rewrite H, IH.
Qed.

Lemma video_body_eq wf base nid o :
  video_body wf base nid o
  = mapM (media_of base "video" _guess_video_mime) (video_files wf nid o).
Proof.
  unfold video_body, video_files. destruct (is_video_node wf nid o); simpl; [|done].
  destruct (videos o); [done|]. by destruct (images o).
Qed.

Lemma image_body_eq wf base nid o :
  image_body wf base nid o
  = mapM (media_of base "image" _guess_image_mime) (image_files wf nid o).
Proof.
  unfold image_body, image_files. destruct (is_video_node wf nid o); [done|].
  destruct (images o); [|done]. by destruct (_ && _).
Qed.

Lemma audio_body_eq base nid o :
  audio_body base nid o = mapM (media_of base "audio" _guess_audio_mime) (audio_files o).
Proof.
  unfold audio_body, audio_files. destruct (audio o); [done|]. by destruct (audios o).
Qed.

Lemma primary_media_eq wf base outs :
  primary_media wf base outs
  = (m1 ← mapM (media_of base "video" _guess_video_mime) (read_by (video_files wf) outs);
     m2 ← mapM (media_of base "image" _guess_image_mime) (read_by (image_files wf) outs);
     m3 ← mapM (media_of base "audio" _guess_audio_mime)
            (read_by (fun _ => audio_files) outs);
     Some (m1 ++ m2 ++ m3)).
Proof.
  unfold primary_media.
  rewrite (for_nodes_ext _ _ outs (video_body_eq wf base)),
    (for_nodes_ext _ _ outs (image_body_eq wf base)),
    (for_nodes_ext _ _ outs (audio_body_eq base)).
  by rewrite !for_nodes_mapM.
Qed.

(** *** What an artifact is made of *)

Lemma media_of_reports base k mime f m : media_of base k mime f = Some m -> reports base f m.
Proof.
  unfold media_of. destruct f as [[fn|] [sub|] [ty|]]; simpl; try done.
  intros [= <-]. by exists ty.
Qed.

Lemma media_of_Some base k mime f : is_Some (media_of base k mime f) <-> well_formed f.
Proof.
  split.
  - intros [m Hm]. by destruct f as [[fn|] [sub|] [ty|]].
  - apply media_of_total.
Qed.

Lemma mapM_reports base k mime fs ms :
  mapM (media_of base k mime) fs = Some ms -> Forall2 (reports base) fs ms.
Proof.
  intros H%mapM_Some_1. eapply Forall2_impl; [exact H|].
  intros f m. apply media_of_reports.
Qed.

Lemma mapM_media_Some base k mime fs :
  is_Some (mapM (media_of base k mime) fs) <-> Forall well_formed fs.
Proof.
  rewrite mapM_is_Some. apply Forall_proper; [|done]. intros f. apply media_of_Some.
Qed.

Lemma fallback_key_reports base o v a files ms :
  fallback_key base o v a files = Some ms -> Forall2 (reports base) (default [] files) ms.
Proof.
  unfold fallback_key. destruct files as [fs|]; simpl; [|intros [= <-]; constructor].
  destruct (v || animated o); [|destruct a]; apply mapM_reports.
Qed.

Lemma fallback_key_Some base o v a files :
  is_Some (fallback_key base o v a files) <-> Forall well_formed (default [] files).
Proof.
  unfold fallback_key. destruct files as [fs|]; simpl.
  - destruct (v || animated o); [|destruct a]; apply mapM_media_Some.
  - split; [constructor|eauto].
Qed.

Lemma fallback_body_reports base nid o ms :
  fallback_body base nid o = Some ms -> Forall2 (reports base) (files_of o) ms.
Proof.
  unfold fallback_body, files_of. intros H.
  apply bind_Some in H as (m1 & H1 & H). apply bind_Some in H as (m2 & H2 & H).
  apply bind_Some in H as (m3 & H3 & H). apply bind_Some in H as (m4 & H4 & H).
  injection H as <-.
  repeat apply Forall2_app; by eapply fallback_key_reports.
Qed.

Lemma fallback_body_Some base nid o :
  is_Some (fallback_body base nid o) <-> Forall well_formed (files_of o).
Proof.
  unfold fallback_body, files_of. rewrite !Forall_app.
  rewrite <- (fallback_key_Some base o true false (videos o)),
    <- (fallback_key_Some base o false false (images o)),
    <- (fallback_key_Some base o false true (audio o)),
    <- (fallback_key_Some base o false true (audios o)).
  destruct (fallback_key base o true false (videos o)) as [m1|]; simpl;
    [|split; [by intros [? ?]|by intros ([? ?] & _)]].
  destruct (fallback_key base o false false (images o)) as [m2|]; simpl;
    [|split; [by intros [? ?]|by intros (_ & [? ?] & _)]].
  destruct (fallback_key base o false true (audio o)) as [m3|]; simpl;
    [|split; [by intros [? ?]|by intros (_ & _ & [? ?] & _)]].
  destruct (fallback_key base o false true (audios o)) as [m4|]; simpl;
    [|split; [by intros [? ?]|by intros (_ & _ & _ & [? ?])]].
  split; eauto 10.
Qed.

Lemma fallback_reports base (outs : outputs) : forall ms,
  for_nodes (fallback_body base) outs = Some ms -> Forall2 (reports base) (all_files outs) ms.
Proof.
  induction outs as [|[nid o] outs IH]; intros ms; simpl.
  - intros [= <-]. constructor.
  - intros H. apply bind_Some in H as (m & Hm & H). apply bind_Some in H as (ms' & Hms & H).
    injection H as <-.
    change (all_files ((nid, o) :: outs)) with (files_of o ++ all_files outs).
    apply Forall2_app; [by eapply fallback_body_reports|by apply IH].
Qed.

Lemma fallback_Some base (outs : outputs) :
  is_Some (for_nodes (fallback_body base) outs) <-> Forall well_formed (all_files outs).
Proof.
  induction outs as [|[nid o] outs IH]; simpl.
  - split; [constructor|eauto].
  - change (all_files ((nid, o) :: outs)) with (files_of o ++ all_files outs).
    rewrite Forall_app, <- IH, <- (fallback_body_Some base nid o).
    destruct (fallback_body base nid o) as [m|]; simpl;
      [|split; [by intros [? ?]|by intros ([? ?] & _)]].
    destruct (for_nodes (fallback_body base) outs) as [ms|]; simpl;
      [|split; [by intros [? ?]|by intros (_ & [? ?])]].
    split; eauto.
Qed.

(** *** No file is read twice *)

Lemma node_files_sub wf nid o :
  video_files wf nid o ++ image_files wf nid o ++ audio_files o ⊆+ files_of o.
Proof.
  unfold video_files, image_files, audio_files, files_of.
  destruct (is_video_node wf nid o);
    destruct (videos o) as [v|], (images o) as [i|], (audio o) as [a|], (audios o) as [b|];
    simpl; try destruct (_ && _); simpl; solve_submseteq.
Qed.

Lemma primary_files_sub wf (outs : outputs) : primary_files wf outs ⊆+ all_files outs.
Proof.
  unfold primary_files, read_by, all_files.
  induction outs as [|[nid o] outs IH]; [done|].
  cbn [fmap list_fmap concat fst snd].
  trans ((video_files wf nid o ++ image_files wf nid o ++ audio_files o)
         ++ (concat ((fun kv => video_files wf kv.1 kv.2) <$> outs)
             ++ concat ((fun kv => image_files wf kv.1 kv.2) <$> outs)
             ++ concat ((fun kv : string * node_out => audio_files kv.2) <$> outs))).
  - solve_submseteq.
  - apply submseteq_app; [apply node_files_sub|exact IH].
Qed.

Lemma files_read_sub wf outs : files_read wf outs ⊆+ all_files outs.
Proof.
  unfold files_read. pose proof (primary_files_sub wf outs).
  by destruct (primary_files wf outs).
Qed.

Lemma primary_reports wf base outs media :
  primary_media wf base outs = Some media ->
  Forall2 (reports base) (primary_files wf outs) media.
Proof.
  rewrite primary_media_eq. intros H.
  apply bind_Some in H as (m1 & H1 & H). apply bind_Some in H as (m2 & H2 & H).
  apply bind_Some in H as (m3 & H3 & H). injection H as <-.
  unfold primary_files. repeat apply Forall2_app; by eapply mapM_reports.
Qed.

Lemma primary_Some wf base outs :
  is_Some (primary_media wf base outs) <-> Forall well_formed (primary_files wf outs).
Proof.
  rewrite primary_media_eq. unfold primary_files. rewrite !Forall_app.
  rewrite <- (mapM_media_Some base "video" _guess_video_mime),
    <- (mapM_media_Some base "image" _guess_image_mime),
    <- (mapM_media_Some base "audio" _guess_audio_mime).
  destruct (mapM _ (read_by (video_files wf) outs)) as [m1|]; simpl;
    [|split; [by intros [? ?]|by intros ([? ?] & _)]].
  destruct (mapM _ (read_by (image_files wf) outs)) as [m2|]; simpl;
    [|split; [by intros [? ?]|by intros (_ & [? ?] & _)]].
  destruct (mapM _ (read_by (fun _ => audio_files) outs)) as [m3|]; simpl;
    [|split; [by intros [? ?]|by intros (_ & _ & [? ?])]].
  split; eauto.
Qed.

Lemma collect_reports wf base outs media :
  collect_media wf base outs = Some media ->
  Forall2 (reports base) (files_read wf outs) media.
Proof.
  unfold collect_media, files_read. intros H.
  apply bind_Some in H as (m & Hp & H).
  pose proof (primary_reports _ _ _ _ Hp) as Hr.
  destruct m as [|x m].
  - apply Forall2_nil_inv_r in Hr. rewrite Hr. by apply fallback_reports.
  - injection H as <-. destruct (primary_files wf outs); [by inversion Hr|done].
Qed.

(** X14: the collection reports no file twice over.  The artifacts it
    returns are made, one for one and in order, of the files it read, these
    are files of the outputs, each taken at most as often as it occurs
    there; and it returns no artifact exactly when the outputs hold no file
    at all, so that the fallback leaves no delivered file unreported. *)
Theorem no_file_is_reported_twice (wf : workflow) (base_url : string)
    (outs : outputs) (media : list MediaURL) :
  collect_media wf base_url outs = Some media ->
  Forall2 (reports base_url) (files_read wf outs) media
  /\ files_read wf outs ⊆+ all_files outs
  /\ (length media <= length (all_files outs))%nat
  /\ (media = [] <-> all_files outs = []).
Proof.
  intros H. pose proof (collect_reports _ _ _ _ H) as Hr.
  pose proof (files_read_sub wf outs) as Hs.
  split; [done|]. split; [done|]. split.
  - rewrite <- (Forall2_length _ _ _ Hr). by apply submseteq_length.
  - split.
    + intros ->. apply Forall2_nil_inv_r in Hr.
      unfold files_read in Hr. destruct (primary_files wf outs); done.
    + intros E. rewrite E in Hs. apply submseteq_nil_r in Hs. rewrite Hs in Hr.
      by apply Forall2_nil_inv_l in Hr.
Qed.

(** A video node that also delivered a preview image, and a node with
    two images. *)
Definition clip_file : file := mkFile (Some "clip.mp4") (Some "") (Some "output").
Definition thumb_file : file := mkFile (Some "thumb.png") (Some "") (Some "temp").
Definition left_file : file := mkFile (Some "left.png") (Some "") (Some "output").
Definition right_file : file := mkFile (Some "right.png") (Some "") (Some "output").

Definition mixed_outputs : outputs :=
  [("7", mkNodeOut (Some [clip_file]) (Some [thumb_file]) None None true);
   ("9", mkNodeOut None (Some [left_file; right_file]) None None false)].

Lemma no_file_is_reported_twice_witness :
  exists media,
    collect_media ∅ "http://comfy" mixed_outputs = Some media
    /\ Forall2 (reports "http://comfy") [clip_file; left_file; right_file] media
    /\ [clip_file; left_file; right_file] ⊆+ [clip_file; thumb_file; left_file; right_file].
Proof.
  destruct (collect_media ∅ "http://comfy" mixed_outputs) as [media|] eqn:E;
    [|vm_compute in E; discriminate E].
  exists media. split; [reflexivity|].
  destruct (no_file_is_reported_twice _ _ _ _ E) as (Hr & Hs & _).
  assert (files_read ∅ mixed_outputs = [clip_file; left_file; right_file]) as Hf
    by (vm_compute; reflexivity).
  rewrite Hf in Hr, Hs. split; [exact Hr|exact Hs].
Defined.

(** X15: for outputs whose files hold strings under the keys that are
    there, the collection returns exactly when every file it reads has the
    three keys [filename], [subfolder] and [type]; a file that lacks one
    raises [KeyError] when it is read.  In particular the collection
    returns when every file of the outputs has the three keys. *)
Theorem collection_returns_iff_read_files_have_keys (wf : workflow) (base_url : string)
    (outs : outputs) :
  (is_Some (collect_media wf base_url outs) <-> Forall well_formed (files_read wf outs))
  /\ (Forall well_formed (all_files outs) -> is_Some (collect_media wf base_url outs)).
Proof.
  assert (is_Some (collect_media wf base_url outs) <-> Forall well_formed (files_read wf outs))
    as Hiff.
  { unfold collect_media, files_read.
    pose proof (primary_Some wf base_url outs) as Hp.
    destruct (primary_media wf base_url outs) as [m|] eqn:Ep; simpl.
    - pose proof (primary_reports _ _ _ _ Ep) as Hr.
      destruct m as [|x m].
      + apply Forall2_nil_inv_r in Hr. rewrite Hr. apply fallback_Some.
      + destruct (primary_files wf outs) as [|f fs]; [by inversion Hr|].
        split; [intros _; apply Hp; eauto|eauto].
    - destruct (primary_files wf outs) as [|f fs].
      + exfalso. destruct Hp as [_ Hp]. destruct Hp as [? ?]; [constructor|done].
      + split; [by intros [? ?]|]. intros H. apply Hp in H. by destruct H. }
  split; [exact Hiff|]. intros H. apply Hiff.
  pose proof (files_read_sub wf outs) as Hs.
  apply Forall_forall. intros f Hf. rewrite Forall_forall in H. apply H.
  by eapply elem_of_submseteq.
Qed.

(** A preview that lacks its [type] beside the saved image: the preview
    is not read, and the collection returns. *)
Definition broken_preview : outputs :=
  [("5", mkNodeOut None (Some [mkFile (Some "tmp.png") (Some "") None]) None None false);
   ("9", mkNodeOut None (Some [left_file]) None None false)].

Definition saver_graph : workflow :=
  {[ "9" := mkNode (Some (VStr "SaveImage")) (Some ∅) [] ;
     "5" := mkNode (Some (VStr "PreviewImage")) (Some ∅) [] ]}.

Lemma collection_returns_iff_read_files_have_keys_witness :
  is_Some (collect_media saver_graph "http://comfy" broken_preview)
  /\ ~ is_Some (collect_media ∅ "http://comfy" broken_preview).
Proof.
  destruct (collection_returns_iff_read_files_have_keys saver_graph "http://comfy"
              broken_preview) as [[_ H1] _].
  destruct (collection_returns_iff_read_files_have_keys ∅ "http://comfy"
              broken_preview) as [[H2 _] _].
  split.
  - apply H1.
    assert (files_read saver_graph broken_preview = [left_file]) as ->
      by (vm_compute; reflexivity).
    apply Forall_cons. split; [repeat split; simpl; eauto|constructor].
  - intros H. apply H2 in H.
    assert (files_read ∅ broken_preview
            = [mkFile (Some "tmp.png") (Some "") None; left_file]) as Hf
      by (vm_compute; reflexivity).
    rewrite Hf in H. apply Forall_cons in H as [(_ & _ & [ty Hty]) _]. discriminate Hty.
Defined.

End MediaReads.

(* ===================================================================== *)
(** ** The download links                                                *)
(* ===================================================================== *)

Module ViewUrlProps.
Import Workflow Protocol Media.

(** The inverse of [quote_plus] on what it produces. *)
Definition hex_value (c : ascii) : nat :=
  let n := nat_of_ascii c in
  if (n <? 58)%nat then (n - 48)%nat else (n - 55)%nat.

Fixpoint unquote_plus (s : string) : string :=
  match s with
  | EmptyString => EmptyString
  | String c r =>
      if Ascii.eqb c "%" then
        match r with
        | String h (String l r') =>
            String (ascii_of_nat (16 * hex_value h + hex_value l)) (unquote_plus r')
        | _ => String c (unquote_plus r)
        end
      else if Ascii.eqb c "+" then String " " (unquote_plus r)
      else String c (unquote_plus r)
  end.

Lemma unquote_char (c : ascii) (rest : string) :
  unquote_plus (quote_char c +:+ rest) = String c (unquote_plus rest).
Proof. destruct c as [[] [] [] [] [] [] [] []]; reflexivity. Qed.

Lemma unquote_quote (s : string) : unquote_plus (quote_plus s) = s.
Proof.
  induction s as [|c s IH]; simpl; [done|]. by rewrite unquote_char, IH.
Qed.

Lemma quote_plus_inj (s1 s2 : string) : quote_plus s1 = quote_plus s2 -> s1 = s2.
Proof. intros H. by rewrite <- (unquote_quote s1), H, unquote_quote. Qed.

(** Does the string hold the separator of the query? *)
Fixpoint has_amp (s : string) : bool :=
  match s with
  | EmptyString => false
  | String c r => Ascii.eqb c "&" || has_amp r
  end.

Lemma has_amp_app (a b : string) : has_amp (a +:+ b) = has_amp a || has_amp b.
Proof. induction a as [|c a IH]; simpl; [done|]. by rewrite IH, orb_assoc. Qed.

Lemma quote_char_no_amp (c : ascii) : has_amp (quote_char c) = false.
Proof. destruct c as [[] [] [] [] [] [] [] []]; reflexivity. Qed.

Lemma quote_plus_no_amp (s : string) : has_amp (quote_plus s) = false.
Proof.
  induction s as [|c s IH]; simpl; [done|].
  by rewrite has_amp_app, quote_char_no_amp, IH.
Qed.

Lemma split_at_amp (a : string) : forall a' r r',
  has_amp a = false -> has_amp a' = false ->
  a +:+ String "&" r = a' +:+ String "&" r' -> a = a' /\ r = r'.
Proof.
  induction a as [|c a IH]; intros [|c' a'] r r'; simpl.
  - intros _ _ [= ->]. done.
  - intros _ H [= <- _]. simpl in H. done.
  - intros H _ [= -> _]. simpl in H. done.
  - intros [_ H]%orb_false_iff [_ H']%orb_false_iff [= -> E].
    destruct (IH a' r r' H H' E) as [-> ->]. done.
Qed.

Lemma app_inv_head (p a b : string) : p +:+ a = p +:+ b -> a = b.
Proof. induction p as [|c p IH]; simpl; [done|]. intros [= E]. by apply IH. Qed.

(** X17: the download link of a file determines the file: two files whose
    [/view] links on one server are the same have the same name, the same
    subfolder and the same type, whatever characters these hold (the
    separators of the query included). *)
Theorem view_url_determines_file
    (base_url fn sub ty fn' sub' ty' : string) :
  view_url base_url fn sub ty = view_url base_url fn' sub' ty' ->
  fn = fn' /\ sub = sub' /\ ty = ty'.
Proof.
  unfold view_url, urlencode. simpl. intros H.
  apply app_inv_head in H. injection H as H.
  change ("&" +:+ ?x) with (String "&" x) in H.
  apply split_at_amp in H as [H1 H];
    [|simpl; apply quote_plus_no_amp..].
  apply quote_plus_inj in H1.
  injection H as H.
  apply split_at_amp in H as [H2 H];
    [|simpl; apply quote_plus_no_amp..].
  apply quote_plus_inj in H2.
  injection H as H. apply quote_plus_inj in H. done.
Qed.

Lemma view_url_determines_file_witness :
  "a&b=c.png" = "a&b=c.png" /\ "x y" = "x y" /\ "output" = "output".
Proof.
  apply (view_url_determines_file "http://comfy"
           "a&b=c.png" "x y" "output" "a&b=c.png" "x y" "output").
  reflexivity.
Defined.

End ViewUrlProps.

(* ===================================================================== *)
(** ** Further properties of the await loop                              *)
(* ===================================================================== *)

Module AwaitLoopProps.
Import Protocol ProtocolProps.

(** The frames the loop reads and drops: a read that timed out, preview
    bytes, text that is not JSON, an event of another type, and an
    [executing] event of another execution. *)
Definition ignored (prompt_id : string) (f : frame) : bool :=
  match f with
  | RecvTimeout | Binary | Malformed | Message Other => true
  | Message (Executing pid _) => negb (bool_decide (pid = Some prompt_id))
  | Message (ExecutionError _ _) => false
  end.

Definition with_iterations (w : world) (its : list iteration) : world :=
  mkWorld (start_ts w) (connect_ok w) (posted w) (t_queued w) its (history w) (final_time w).

Lemma await_skip rt st pid it post : forall pre acc,
  in_time rt st it -> ignored pid (received it) = true ->
  await_events rt st pid acc (pre ++ it :: post)
  = await_events rt st pid acc (pre ++ post).
Proof.
  intros pre acc Hin Hig. revert acc.
  induction pre as [|x pre IH]; intros acc; simpl.
  - unfold in_time in Hin. destruct (Z.ltb_spec rt (check_time it - st)); [lia|].
    destruct (received it) as [| | |[p node|p msg|]]; simpl in *; try done.
    apply negb_true_iff in Hig. by rewrite Hig.
  - destruct (rt <? check_time x - st); [done|].
    destruct (received x) as [| | |[p node|p msg|]]; simpl; try done.
    destruct (bool_decide (p = Some pid)); [|done]. by destruct node.
Qed.

(** X10: a frame that the loop drops, read before the deadline has
    passed, has no effect on the outcome of the call: with or without it in
    the stream, the call ends in the same way, with the same result. *)
Theorem dropped_frames_do_not_matter (run_timeout : Z) (w : world)
    (pre post : list iteration) (it : iteration) :
  in_time run_timeout (start_ts w) it ->
  (forall prompt_id, posted w = Some prompt_id -> ignored prompt_id (received it) = true) ->
  submit_and_wait run_timeout (with_iterations w (pre ++ it :: post))
  = submit_and_wait run_timeout (with_iterations w (pre ++ post)).
Proof.
  intros Hin Hig. unfold submit_and_wait. simpl.
  destruct (connect_ok w); [|done]. simpl.
  destruct (posted w) as [pid|] eqn:Ep; [|done].
  by rewrite (await_skip run_timeout (start_ts w) pid it post pre None Hin (Hig pid eq_refl)).
Qed.

Lemma dropped_frames_do_not_matter_witness :
  submit_and_wait 300 scenario_D
  = submit_and_wait 300
      (with_iterations scenario_D
         [mkIteration 1003 (Message (Executing (Some "p1") (Some "3"))) 1010;
          mkIteration 1012 (Message (Executing (Some "p1") None)) 1050]).
Proof.
  apply (dropped_frames_do_not_matter 300 scenario_D
           [mkIteration 1003 (Message (Executing (Some "p1") (Some "3"))) 1010]
           [mkIteration 1012 (Message (Executing (Some "p1") None)) 1050]
           (mkIteration 1011 Binary 1011)).
  - unfold in_time. simpl. lia.
  - intros pid _. reflexivity.
Defined.

(** X11: when the clock does not run backwards between the submission,
    the first sign of execution and the completion event, the two
    durations of a completed run add up to the time from submission to
    completion. *)
Theorem durations_add_up (run_timeout : Z) (w : world) (res : GenerationResult)
    (prompt_id : string) (t_done : time) :
  submit_and_wait run_timeout w = Completed res ->
  posted w = Some prompt_id ->
  t_execDone prompt_id (iterations w) = Some t_done ->
  t_done <> 0 ->
  t_queued w <= t_done ->
  (forall t_start,
     t_execStart prompt_id (iterations w) = Some t_start ->
     t_queued w <= t_start <= t_done) ->
  comfy_queue_s res + comfy_exec_s res = t_done - t_queued w.
Proof.
  intros Hc Hp Hd Hnz Hle Hmono.
  apply completed_inv in Hc as (pid & ts & td & m & _ & Hp' & Ha & _ & ->).
  rewrite Hp in Hp'. injection Hp' as <-.
  apply await_done in Ha as [Hd' ->]. rewrite Hd in Hd'. injection Hd' as <-.
  simpl. unfold timings, or_now. destruct (Z.eqb_spec t_done 0); [done|].
  destruct (t_execStart prompt_id (iterations w)) as [t0|]; simpl.
  - specialize (Hmono t0 eq_refl). lia.
  - lia.
Qed.

Lemma durations_add_up_witness :
  exists res,
    submit_and_wait 300 scenario_D = Completed res
    /\ comfy_queue_s res + comfy_exec_s res = 1050 - 1002.
Proof.
  eexists. split; [reflexivity|].
  apply (durations_add_up 300 scenario_D _ "p1" 1050);
    [reflexivity|reflexivity|reflexivity|lia|simpl; lia|].
  intros t_start [= <-]. simpl. lia.
Defined.

Lemma await_done_iff rt st pid its : forall acc,
  (exists ts td, await_events rt st pid acc its = Done ts td) <->
  exists pre it post,
    its = pre ++ it :: post
    /\ Forall (passes rt st pid) pre
    /\ in_time rt st it
    /\ is_completion pid (received it) = true.
Proof.
  induction its as [|it rest IH]; intros acc; simpl.
  - split; [by intros (? & ? & ?)|]. intros (pre & it & post & H & _). by destruct pre.
  - destruct (Z.ltb_spec rt (check_time it - st)) as [Hlt|Hge].
    + split; [by intros (? & ? & ?)|].
      intros (pre & it0 & post & Heq & Hall & Hin & _). unfold in_time in *.
      destruct pre as [|it1 pre]; simpl in Heq.
      * injection Heq as <- _. lia.
      * injection Heq as <- ->. apply Forall_cons in Hall as [[Hin1 _] _].
        unfold in_time in Hin1. lia.
    + assert (forall acc',
                ends_loop pid (received it) = false ->
                (exists ts td, await_events rt st pid acc' rest = Done ts td) <->
                exists pre it0 post,
                  it :: rest = pre ++ it0 :: post
                  /\ Forall (passes rt st pid) pre
                  /\ in_time rt st it0
                  /\ is_completion pid (received it0) = true) as Hgo.
      { intros acc' Hend. rewrite IH. split.
        - intros (pre & it0 & post & -> & Hall & Hin & Hc).
          exists (it :: pre), it0, post. split; [done|]. split; [|done].
          apply Forall_cons. split; [|done]. split; [exact Hge|done].
        - intros (pre & it0 & post & Heq & Hall & Hin & Hc).
          destruct pre as [|it1 pre]; simpl in Heq.
          + injection Heq as <- _. unfold ends_loop in Hend.
            apply orb_false_iff in Hend as [Hend _]. congruence.
          + injection Heq as <- ->. apply Forall_cons in Hall as [_ Hall].
            by exists pre, it0, post. }
      unfold ends_loop in *.
      destruct (received it) as [| | |[p node|p msg|]] eqn:Er; simpl in *;
        try (by apply Hgo).
      * destruct node as [n|]; simpl in *.
        -- destruct (bool_decide (p = Some pid)); by apply Hgo.
        -- destruct (bool_decide (p = Some pid)) eqn:Ep; [|by apply Hgo].
           split; [|eauto]. intros _. exists [], it, rest.
           split; [done|]. split; [apply Forall_nil_2|]. split; [exact Hge|].
           rewrite Er. simpl. exact Ep.
      * split; [by intros (? & ? & ?)|].
        intros (pre & it0 & post & Heq & Hall & Hin & Hc).
        destruct pre as [|it1 pre]; simpl in Heq.
        -- injection Heq as <- _. rewrite Er in Hc. done.
        -- injection Heq as <- ->. apply Forall_cons in Hall as [[_ Hn] _].
           rewrite Er in Hn. done.
Qed.

(** X18: a call completes exactly when the channel opened, the graph was
    accepted, some round of the await loop read the completion event of the
    tracked execution with the deadline not yet passed at the start of that
    round, no earlier round tripped the deadline or read an execution
    error, and the history query answered. *)
Theorem completes_iff_completion_is_read_in_time (run_timeout : Z) (w : world) :
  (exists res, submit_and_wait run_timeout w = Completed res) <->
  connect_ok w = true
  /\ is_Some (history w)
  /\ exists prompt_id pre it post,
       posted w = Some prompt_id
       /\ iterations w = pre ++ it :: post
       /\ Forall (passes run_timeout (start_ts w) prompt_id) pre
       /\ in_time run_timeout (start_ts w) it
       /\ is_completion prompt_id (received it) = true.
Proof.
  unfold submit_and_wait.
  destruct (connect_ok w); simpl;
    [|split; [by intros [? ?]|intros [[=] _]]].
  destruct (posted w) as [pid|];
    [|split; [by intros [? ?]|intros (_ & _ & ? & ? & ? & ? & [=] & _)]].
  pose proof (await_done_iff run_timeout (start_ts w) pid (iterations w) None) as Hiff.
  destruct (await_events run_timeout (start_ts w) pid None (iterations w)) as [ts td|f|] eqn:Ea.
  - destruct Hiff as [Hiff _]. destruct (Hiff ltac:(eauto)) as (pre & it & post & H).
    destruct (history w) as [m|].
    + split.
      * intros _. split; [done|]. split; [eauto|]. by exists pid, pre, it, post.
      * intros _. destruct (timings (t_queued w) ts td (final_time w)). eauto.
    + split; [by intros [? ?]|]. intros (_ & [? ?] & _). done.
  - split; [by intros [? ?]|].
    intros (_ & _ & pid' & pre & it & post & [= <-] & H).
    destruct Hiff as [_ Hiff]. destruct Hiff as (? & ? & ?); [by exists pre, it, post|done].
  - split; [by intros [? ?]|].
    intros (_ & _ & pid' & pre & it & post & [= <-] & H).
    destruct Hiff as [_ Hiff]. destruct Hiff as (? & ? & ?); [by exists pre, it, post|done].
Qed.

End AwaitLoopProps.

(* ===================================================================== *)
(** ** Further properties of the templating engine                       *)
(* ===================================================================== *)

Module RenderProps.
Import Workflow WorkflowProps.

(** [TopicsRepository._validate_nodes_vs_workflow] of
    [app/infra/topics_repo.py], the check made when a topic is loaded.  It
    asks whether a node has the key [inputs], not what the key holds, so it
    is stated on the graph as [workflow.json] gives it: the [inputs] entry
    of a node is missing, or holds an object, or holds something else. *)
Inductive inputs_entry : Type :=
  | InputsMissing
  | InputsOther
  | InputsObject (ins : gmap string value).

Record loaded_node : Type := mkLoaded {
  loaded_class_type : option value;
  loaded_inputs : inputs_entry;
  loaded_other_keys : list (string * value)
}.

(** The node as the render reads it: every access of [prepare_workflow]
    fails or skips in the same way on a missing [inputs] and on one that is
    not an object. *)
Definition node_of (nd : loaded_node) : node :=
  mkNode (loaded_class_type nd)
    (match loaded_inputs nd with InputsObject ins => Some ins | _ => None end)
    (loaded_other_keys nd).

Definition graph_of (wf : gmap string loaded_node) : workflow := node_of <$> wf.

Fixpoint validate_ids (wf : gmap string loaded_node) (nids : list string) : outcome unit :=
  match nids with
  | [] => Returned tt
  | nid :: rest =>
      match wf !! nid with
      | None =>
          Raised ("nodes.json references node_id " +:+ nid +:+ " absent in workflow.json")
      | Some nd =>
          match loaded_inputs nd with
          | InputsMissing => Raised ("workflow node " +:+ nid +:+ " has no 'inputs'")
          | _ => validate_ids wf rest
          end
      end
  end.

Fixpoint validate_rules (wf : gmap string loaded_node) (rules : list NodeRule)
    : outcome unit :=
  match rules with
  | [] => Returned tt
  | rule :: rest =>
      match validate_ids wf (node_ids rule) with
      | Returned _ => validate_rules wf rest
      | Raised msg => Raised msg
      end
  end.

Definition _validate_nodes_vs_workflow (wf : gmap string loaded_node) (nodes_map : NodesMap)
    : outcome unit :=
  validate_rules wf (nodes nodes_map).

(** Where a node has [inputs], they are an object. *)
Definition inputs_are_objects (wf : gmap string loaded_node) : Prop :=
  forall nid nd, wf !! nid = Some nd -> loaded_inputs nd <> InputsOther.

(** Every node a rule names can be written to. *)
Definition targets_writable (rules : list NodeRule) (wf : workflow) : Prop :=
  forall r nid, r ∈ rules -> nid ∈ node_ids r -> writable wf nid.

Lemma validate_ids_ok wf nids :
  inputs_are_objects wf ->
  validate_ids wf nids = Returned tt -> Forall (writable (graph_of wf)) nids.
Proof.
  intros Hobj. induction nids as [|nid nids IH]; simpl; [by constructor|].
  destruct (wf !! nid) as [nd|] eqn:En; [|done].
  destruct (loaded_inputs nd) as [| |ins] eqn:Ei; [done|by apply Hobj in En|].
  intros H. apply Forall_cons. split; [|by apply IH].
  exists (node_of nd), ins. unfold graph_of. rewrite lookup_fmap, En.
  split; [done|]. unfold node_of. by rewrite Ei.
Qed.

Lemma validate_rules_ok wf rules :
  inputs_are_objects wf ->
  validate_rules wf rules = Returned tt -> targets_writable rules (graph_of wf).
Proof.
  intros Hobj. induction rules as [|r rules IH]; simpl.
  - intros _ r nid Hr. by apply elem_of_nil in Hr.
  - destruct (validate_ids wf (node_ids r)) as [[]|msg] eqn:E; [|done].
    intros H r' nid Hr Hn. apply elem_of_cons in Hr as [->|Hr].
    + apply validate_ids_ok in E; [|done]. rewrite Forall_forall in E. by apply E.
    + by apply (IH H r').
Qed.

(** *** A loop that cannot fail *)

Lemma for_rules_total (P : workflow -> Prop) body (rules : list NodeRule) :
  (forall r wf, r ∈ rules -> P wf -> exists wf', body r wf = Some wf' /\ P wf') ->
  forall wf, P wf -> exists wf', for_rules body rules wf = Some wf' /\ P wf'.
Proof.
  induction rules as [|r rules IH]; intros Hbody wf HP; simpl; [eauto|].
  destruct (Hbody r wf (list_elem_of_here _ _) HP) as (wf1 & -> & HP1).
  apply IH; [|done]. intros r0 w Hin. apply Hbody. by apply list_elem_of_further.
Qed.

Lemma write_all_targets rules r v wf :
  r ∈ rules -> targets_writable rules wf ->
  exists wf', write_all (node_ids r) (key r) v wf = Some wf' /\ targets_writable rules wf'.
Proof.
  intros Hr Ht.
  destruct (write_all_Some (node_ids r) (key r) v wf) as [wf' Hw].
  { apply Forall_forall. intros nid Hn. by apply (Ht r). }
  exists wf'. split; [done|]. intros r' nid Hr' Hn.
  eapply write_all_keeps_writable; [exact Hw|]. by apply (Ht r').
Qed.

Lemma write_if_present_targets rules r ov wf :
  r ∈ rules -> targets_writable rules wf ->
  exists wf', write_if_present r ov wf = Some wf' /\ targets_writable rules wf'.
Proof.
  intros Hr Ht. destruct ov as [v|]; simpl; [by apply write_all_targets|eauto].
Qed.

(** X19: take a graph in which the [inputs] of every node, where the key
    is there, hold an object, and rules whose texts are ASCII, none of them
    of type [input_images].  If the configuration passed the check made at
    load time, the render never raises, whatever the prompt and the
    parameters: every write finds its node and its [inputs]. *)
Theorem validated_render_never_raises (loaded : gmap string loaded_node)
    (nodes_map : NodesMap) (prompt : string) (params : gmap string value) (g : rng) :
  _validate_nodes_vs_workflow loaded nodes_map = Returned tt ->
  inputs_are_objects loaded ->
  ascii_rules (nodes nodes_map) = true ->
  (forall r, r ∈ nodes nodes_map -> rtype_of r <> "input_images") ->
  exists wf, (prepare_workflow (graph_of loaded) nodes_map prompt params g).1 = Some wf.
Proof.
  intros Hv Hobj _ Hni. apply validate_rules_ok in Hv; [|done].
  set (base_workflow := graph_of loaded) in *.
  unfold prepare_workflow. destruct (effective_params params g) as [eff g'] eqn:Ee.
  simpl. unfold apply_rules. set (rules := nodes nodes_map) in *.
  destruct (for_rules_total (targets_writable rules) (text_like_body prompt eff) rules)
    with (wf := base_workflow) as (wf1 & -> & H1); [|done|].
  { intros r wf Hr Ht. unfold text_like_body.
    destruct (bool_decide (rtype_of r = "")); [eauto|].
    destruct (bool_decide (rtype_of r = "prompt")); [by apply write_all_targets|].
    destruct (bool_decide (rtype_of r = "negative_prompt"));
      [by apply write_if_present_targets|].
    destruct (param_key_of r); [by apply write_if_present_targets|eauto]. }
  simpl.
  destruct (for_rules_total (targets_writable rules) (input_image_body eff) rules)
    with (wf := wf1) as (wf2 & -> & H2); [|done|].
  { intros r wf Hr Ht. unfold input_image_body.
    destruct (bool_decide (rtype_of r = "input_image"));
      [by apply write_if_present_targets|eauto]. }
  simpl.
  destruct (for_rules_total (targets_writable rules) (input_images_body eff) rules)
    with (wf := wf2) as (wf3 & -> & H3); [|done|].
  { intros r wf Hr Ht. unfold input_images_body.
    rewrite bool_decide_eq_false_2 by (by apply Hni). eauto. }
  simpl.
  destruct (for_rules_total (targets_writable rules) (scalar_body eff) rules)
    with (wf := wf3) as (wf4 & -> & H4); [|done|].
  { intros r wf Hr Ht. unfold scalar_body.
    destruct (skipped_by_scalar_loop (rtype_of r));
      [eauto|by apply write_if_present_targets]. }
  eauto.
Qed.

Definition sampler_loaded : gmap string loaded_node :=
  {[ "3" := mkLoaded (Some (VStr "KSampler")) (InputsObject {[ "seed" := VInt 0 ]}) [] ;
     "6" := mkLoaded (Some (VStr "CLIPTextEncode")) (InputsObject {[ "text" := VStr "" ]}) [] ]}.

Definition sampler_graph : workflow := graph_of sampler_loaded.

Definition sampler_rules : NodesMap :=
  mkNodesMap [mkRule "prompt" ["6"] "text" None; mkRule "seed" ["3"] "seed" None] ∅.

Lemma sampler_loaded_objects : inputs_are_objects sampler_loaded.
Proof.
  intros nid nd H. unfold sampler_loaded in H.
  apply lookup_insert_Some in H as [[_ <-]|[_ H]]; [done|].
  apply lookup_singleton_Some in H as [_ <-]. done.
Qed.

Lemma validated_render_never_raises_witness :
  exists wf,
    (prepare_workflow sampler_graph sampler_rules "a cat" ∅ (mkRng 0 (fun _ => 5))).1
    = Some wf.
Proof.
  apply validated_render_never_raises.
  - vm_compute. reflexivity.
  - exact sampler_loaded_objects.
  - reflexivity.
  - intros r Hr.
    apply elem_of_cons in Hr as [->|Hr]; [vm_compute; discriminate|].
    apply elem_of_cons in Hr as [->|Hr]; [vm_compute; discriminate|].
    by apply elem_of_nil in Hr.
Defined.

(** The check does not look at what [inputs] holds: a node whose [inputs]
    is null passes it, and the first write into the node raises. *)
Example null_inputs_pass_the_check :
  let loaded : gmap string loaded_node :=
    {[ "6" := mkLoaded (Some (VStr "CLIPTextEncode")) InputsOther [] ]} in
  let rules := mkNodesMap [mkRule "prompt" ["6"] "text" None] ∅ in
  _validate_nodes_vs_workflow loaded rules = Returned tt
  /\ (prepare_workflow (graph_of loaded) rules "p" {[ "seed" := VInt 1 ]}
        (mkRng 0 (fun _ => 0))).1 = None.
Proof. split; vm_compute; reflexivity. Qed.

(** With a rule of type [input_images] the check at load time is not
    enough: a scalar rule that names a loader removed for want of an image
    makes the render raise. *)
Example pruned_target_raises :
  let loaded : gmap string loaded_node :=
    {[ "10" := mkLoaded (Some (VStr "LoadImage")) (InputsObject {[ "image" := VStr "" ]}) [] ;
       "11" := mkLoaded (Some (VStr "LoadImage")) (InputsObject {[ "image" := VStr "" ]}) [] ]} in
  let rules :=
    mkNodesMap [mkRule "input_images" ["10"; "11"] "image" None;
                mkRule "upload" ["11"] "upload" None] ∅ in
  let params : gmap string value :=
    {[ "input_images" := VList [VStr "a.png"]; "upload" := VStr "image"; "seed" := VInt 1 ]} in
  _validate_nodes_vs_workflow loaded rules = Returned tt
  /\ (prepare_workflow (graph_of loaded) rules "p" params (mkRng 0 (fun _ => 0))).1 = None.
Proof. split; vm_compute; reflexivity. Qed.

(** *** What the render leaves alone *)

(** Every node of [wf] is a node of [base] with the same class and the
    same keys beside [inputs], and has [inputs] if it had. *)
Definition same_nodes (base wf : workflow) : Prop :=
  forall nid nd',
    wf !! nid = Some nd' ->
    exists nd,
      base !! nid = Some nd
      /\ class_type nd' = class_type nd
      /\ other_keys nd' = other_keys nd
      /\ (inputs nd' = None <-> inputs nd = None).

Lemma same_nodes_refl wf : same_nodes wf wf.
Proof. intros nid nd H. by exists nd. Qed.

Lemma set_input_same base nid k v wf wf' :
  set_input nid k v wf = Some wf' -> same_nodes base wf -> same_nodes base wf'.
Proof.
  unfold set_input. destruct (wf !! nid) as [nd|] eqn:En; [|done].
  destruct (inputs nd) as [ins|] eqn:Ei; [|done]. intros [= <-] Hs n nd'.
  destruct (decide (nid = n)) as [->|Hne].
  - rewrite lookup_insert_eq. intros [= <-]. simpl.
    destruct (Hs n nd En) as (nd0 & H0 & Hc & Ho & Hi).
    exists nd0. split; [done|]. split; [done|]. split; [done|].
    rewrite <- Hi, Ei. done.
  - rewrite lookup_insert_ne by done. apply Hs.
Qed.

Lemma write_all_same base nids k v : forall wf wf',
  write_all nids k v wf = Some wf' -> same_nodes base wf -> same_nodes base wf'.
Proof.
  induction nids as [|nid nids IH]; intros wf wf'; simpl; [by intros [= <-]|].
  destruct (set_input nid k v wf) as [wf1|] eqn:E; [|done]. intros Hw Hs.
  apply (IH _ _ Hw). by eapply set_input_same.
Qed.

Lemma write_if_present_same base r ov wf wf' :
  write_if_present r ov wf = Some wf' -> same_nodes base wf -> same_nodes base wf'.
Proof.
  destruct ov as [v|]; simpl; [apply write_all_same|by intros [= <-]].
Qed.

Lemma assign_images_same base nids k : forall vals wf,
  same_nodes base wf -> same_nodes base (assign_images nids k vals wf).
Proof.
  induction nids as [|nid nids IH]; intros vals wf Hs; simpl; [done|].
  destruct vals as [|v vals]; [done|]. apply IH.
  destruct (set_input nid k v wf) as [wf1|] eqn:E; simpl; [|done].
  by eapply set_input_same.
Qed.

Lemma unlink_remove_same base wf ids :
  same_nodes base wf -> same_nodes base (_unlink_and_remove_nodes wf ids).
Proof.
  intros Hs. destruct ids as [|i ids]; [done|]. intros n nd'.
  rewrite unlink_remove_lookup by done.
  destruct (decide (n ∈ i :: ids)); [done|].
  destruct (wf !! n) as [nd|] eqn:En; simpl; [|done]. intros [= <-].
  destruct (Hs n nd En) as (nd0 & H0 & Hc & Ho & Hi).
  exists nd0. split; [done|]. split; [done|]. split; [done|].
  simpl. rewrite <- Hi. by destruct (inputs nd).
Qed.

(** No node is removed. *)
Definition same_ids (base wf : workflow) : Prop :=
  forall nid, wf !! nid = None <-> base !! nid = None.

Lemma write_all_ids base nids k v wf wf' :
  write_all nids k v wf = Some wf' -> same_ids base wf -> same_ids base wf'.
Proof. intros Hw Hs n. rewrite <- (Hs n). by eapply write_all_None. Qed.

Lemma write_if_present_ids base r ov wf wf' :
  write_if_present r ov wf = Some wf' -> same_ids base wf -> same_ids base wf'.
Proof.
  destruct ov as [v|]; simpl; [apply write_all_ids|by intros [= <-]].
Qed.

Lemma apply_rules_inv (P : workflow -> Prop) rules prompt eff wf wf' :
  (forall r w w', r ∈ rules -> P w -> text_like_body prompt eff r w = Some w' -> P w') ->
  (forall r w w', r ∈ rules -> P w -> input_image_body eff r w = Some w' -> P w') ->
  (forall r w w', r ∈ rules -> P w -> input_images_body eff r w = Some w' -> P w') ->
  (forall r w w', r ∈ rules -> P w -> scalar_body eff r w = Some w' -> P w') ->
  P wf -> apply_rules rules prompt eff wf = Some wf' -> P wf'.
Proof.
  intros B1 B2 B3 B4 HP. unfold apply_rules. intros H.
  apply bind_Some in H as (wf1 & H1 & H). apply bind_Some in H as (wf2 & H2 & H).
  apply bind_Some in H as (wf3 & H3 & H).
  apply (for_rules_invariant P _ rules B4 wf3 wf'); [|done].
  apply (for_rules_invariant P _ rules B3 wf2 wf3); [|done].
  apply (for_rules_invariant P _ rules B2 wf1 wf2); [|done].
  by apply (for_rules_invariant P _ rules B1 wf wf1).
Qed.

(** X20: the render writes into [inputs] and removes nodes, and does
    nothing else to the graph: every node of the rendered graph is a node
    of the template with its class and its other keys unchanged, no node is
    added, and when the texts of the rules are ASCII and no rule has the
    type [input_images] no node is removed either. *)
Theorem render_touches_inputs_only (base_workflow : workflow) (nodes_map : NodesMap)
    (prompt : string) (params : gmap string value) (g : rng) (wf : workflow) :
  (prepare_workflow base_workflow nodes_map prompt params g).1 = Some wf ->
  same_nodes base_workflow wf
  /\ (ascii_rules (nodes nodes_map) = true ->
      (forall r, r ∈ nodes nodes_map -> rtype_of r <> "input_images") ->
      dom wf = dom base_workflow).
Proof.
  unfold prepare_workflow. destruct (effective_params params g) as [eff g'].
  simpl. intros H. split.
  - revert H. apply apply_rules_inv; [| | | |apply same_nodes_refl].
    + intros r w w' _ Hs. unfold text_like_body.
      destruct (bool_decide (rtype_of r = "")); [by intros [= <-]|].
      destruct (bool_decide (rtype_of r = "prompt")); [intros Hw; by eapply write_all_same|].
      destruct (bool_decide (rtype_of r = "negative_prompt"));
        [intros Hw; by eapply write_if_present_same|].
      destruct (param_key_of r); [intros Hw; by eapply write_if_present_same|by intros [= <-]].
    + intros r w w' _ Hs. unfold input_image_body.
      destruct (bool_decide (rtype_of r = "input_image"));
        [intros Hw; by eapply write_if_present_same|by intros [= <-]].
    + intros r w w' _ Hs. unfold input_images_body.
      destruct (bool_decide (rtype_of r = "input_images")); [|by intros [= <-]].
      destruct (get_present eff "input_images") as [[| | | | |[|v vs]|]|];
        try (intros [= <-]; by apply unlink_remove_same).
      destruct (_ <? _)%nat; intros [= <-];
        [apply unlink_remove_same|]; by apply assign_images_same.
    + intros r w w' _ Hs. unfold scalar_body.
      destruct (skipped_by_scalar_loop (rtype_of r));
        [by intros [= <-]|intros Hw; by eapply write_if_present_same].
  - intros _ Hni. apply set_eq. intros n. rewrite !elem_of_dom, <- !not_eq_None_Some.
    assert (same_ids base_workflow wf) as Hs; [|by rewrite (Hs n)].
    revert H. apply apply_rules_inv; [| | | |done].
    + intros r w w' _ Hs. unfold text_like_body.
      destruct (bool_decide (rtype_of r = "")); [by intros [= <-]|].
      destruct (bool_decide (rtype_of r = "prompt")); [intros Hw; by eapply write_all_ids|].
      destruct (bool_decide (rtype_of r = "negative_prompt"));
        [intros Hw; by eapply write_if_present_ids|].
      destruct (param_key_of r); [intros Hw; by eapply write_if_present_ids|by intros [= <-]].
    + intros r w w' _ Hs. unfold input_image_body.
      destruct (bool_decide (rtype_of r = "input_image"));
        [intros Hw; by eapply write_if_present_ids|by intros [= <-]].
    + intros r w w' Hr Hs. unfold input_images_body.
      rewrite bool_decide_eq_false_2 by (by apply Hni). by intros [= <-].
    + intros r w w' _ Hs. unfold scalar_body.
      destruct (skipped_by_scalar_loop (rtype_of r));
        [by intros [= <-]|intros Hw; by eapply write_if_present_ids].
Qed.

Lemma render_touches_inputs_only_witness :
  exists wf,
    (prepare_workflow sampler_graph sampler_rules "a cat" ∅ (mkRng 0 (fun _ => 5))).1
    = Some wf
    /\ same_nodes sampler_graph wf
    /\ dom wf = dom sampler_graph.
Proof.
  destruct (prepare_workflow sampler_graph sampler_rules "a cat" ∅
              (mkRng 0 (fun _ => 5))).1 as [wf|] eqn:E;
    [|vm_compute in E; discriminate E].
  exists wf. split; [reflexivity|].
  destruct (render_touches_inputs_only sampler_graph sampler_rules "a cat" ∅
              (mkRng 0 (fun _ => 5)) wf E) as [Hsame Hdom].
  split; [exact Hsame|]. apply Hdom; [reflexivity|].
  intros r Hr.
  apply elem_of_cons in Hr as [->|Hr]; [vm_compute; discriminate|].
  apply elem_of_cons in Hr as [->|Hr]; [vm_compute; discriminate|].
  by apply elem_of_nil in Hr.
Defined.

(** *** The last writer of an input *)

Lemma scalar_body_slot eff r wf wf' nid k :
  scalar_body eff r wf = Some wf' ->
  nid ∉ node_ids r \/ key r <> k ->
  slot wf' nid k = slot wf nid k.
Proof.
  unfold scalar_body. destruct (skipped_by_scalar_loop (rtype_of r)); [by intros [= <-]|].
  destruct (get_present eff (rtype_of r)) as [v|]; simpl; [|by intros [= <-]].
  intros Hw Hn. rewrite (write_all_slot _ _ _ _ _ _ _ Hw).
  rewrite decide_False; [done|]. intros [Hin ->]. by destruct Hn.
Qed.

Lemma scalar_loop_last eff before r after wf wf' nid v :
  for_rules (scalar_body eff) (before ++ r :: after) wf = Some wf' ->
  skipped_by_scalar_loop (rtype_of r) = false ->
  get_present eff (rtype_of r) = Some v ->
  nid ∈ node_ids r ->
  Forall (fun r' => nid ∉ node_ids r' \/ key r' <> key r) after ->
  slot wf' nid (key r) = Some v.
Proof.
  intros H Hsk Hv Hin Hafter. rewrite for_rules_app in H.
  destruct (for_rules (scalar_body eff) before wf) as [wfa|]; [|done].
  simpl in H. destruct (scalar_body eff r wfa) as [wfb|] eqn:Er; [|done].
  assert (slot wfb nid (key r) = Some v) as Hb.
  { unfold scalar_body in Er. rewrite Hsk, Hv in Er. simpl in Er.
    rewrite (write_all_slot _ _ _ _ _ _ _ Er). by rewrite decide_True. }
  revert H. apply (for_rules_invariant (fun w => slot w nid (key r) = Some v)); [|done].
  intros r' w w' Hr' Hw Hbody. rewrite Forall_forall in Hafter.
  by rewrite (scalar_body_slot _ _ _ _ _ _ Hbody (Hafter r' Hr')).
Qed.

Lemma apply_rules_last rules prompt eff wf wf' :
  apply_rules rules prompt eff wf = Some wf' ->
  exists wf3, for_rules (scalar_body eff) rules wf3 = Some wf'.
Proof.
  unfold apply_rules. intros H.
  apply bind_Some in H as (wf1 & H1 & H). apply bind_Some in H as (wf2 & H2 & H).
  apply bind_Some in H as (wf3 & H3 & H). eauto.
Qed.

(** X21: with rules whose texts are ASCII, the last rule of the list that
    names an input decides what a render leaves in it, when that rule is
    one of the catch-all kind and its parameter is present: the input then
    holds the value of the parameter, whatever the earlier rules and passes
    wrote. *)
Theorem last_scalar_rule_decides (base_workflow : workflow) (nodes_map : NodesMap)
    (prompt : string) (params : gmap string value) (g : rng) (wf : workflow)
    (before after : list NodeRule) (r : NodeRule) (nid : string) (v : value) :
  (prepare_workflow base_workflow nodes_map prompt params g).1 = Some wf ->
  ascii_rules (nodes nodes_map) = true ->
  nodes nodes_map = before ++ r :: after ->
  skipped_by_scalar_loop (rtype_of r) = false ->
  get_present (effective_params params g).1 (rtype_of r) = Some v ->
  nid ∈ node_ids r ->
  Forall (fun r' => nid ∉ node_ids r' \/ key r' <> key r) after ->
  slot wf nid (key r) = Some v.
Proof.
  unfold prepare_workflow. destruct (effective_params params g) as [eff g'].
  simpl. intros H _ Hn Hsk Hv Hin Hafter.
  apply apply_rules_last in H as [wf3 H]. rewrite Hn in H.
  by eapply scalar_loop_last.
Qed.

Lemma last_scalar_rule_decides_witness :
  exists wf,
    (prepare_workflow sampler_graph sampler_rules "a cat" {[ "seed" := VInt 42 ]}
       (mkRng 0 (fun _ => 5))).1 = Some wf
    /\ slot wf "3" "seed" = Some (VInt 42).
Proof.
  eexists. split; [vm_compute; reflexivity|].
  apply (last_scalar_rule_decides sampler_graph sampler_rules "a cat" {[ "seed" := VInt 42 ]}
           (mkRng 0 (fun _ => 5)) _
           [mkRule "prompt" ["6"] "text" None] [] (mkRule "seed" ["3"] "seed" None) "3").
  - vm_compute. reflexivity.
  - reflexivity.
  - reflexivity.
  - vm_compute. reflexivity.
  - vm_compute. reflexivity.
  - apply list_elem_of_here.
  - apply Forall_nil_2.
Defined.

(** X22: when the parameters bring no seed, one seed is drawn for the
    whole render: there is a number in the 48-bit range that every input
    named last by a rule of type [seed] holds in the rendered graph. *)
Theorem generated_seed_is_shared (base_workflow : workflow) (nodes_map : NodesMap)
    (prompt : string) (params : gmap string value) (g : rng) (wf : workflow) :
  get_present params "seed" = None ->
  (prepare_workflow base_workflow nodes_map prompt params g).1 = Some wf ->
  exists z,
    0 <= z < 2 ^ 48
    /\ forall before r after nid,
         nodes nodes_map = before ++ r :: after ->
         rtype_of r = "seed" ->
         nid ∈ node_ids r ->
         Forall (fun r' => nid ∉ node_ids r' \/ key r' <> key r) after ->
         slot wf nid (key r) = Some (VInt z).
Proof.
  intros Hs H.
  exists (0 + source g (draws g) `mod` (2 ^ 48 - 1 - 0 + 1)). split.
  { pose proof (Z.mod_pos_bound (source g (draws g)) (2 ^ 48 - 1 - 0 + 1)). lia. }
  intros before r after nid Hn Hr Hin Hafter.
  revert H. unfold prepare_workflow. rewrite (effective_params_unseeded _ _ Hs). simpl.
  intros H. apply apply_rules_last in H as [wf3 H]. rewrite Hn in H.
  eapply scalar_loop_last; [exact H| | |done|done].
  - by rewrite Hr.
  - rewrite Hr. unfold get_present. by rewrite lookup_insert_eq.
Qed.

Lemma generated_seed_is_shared_witness :
  exists wf z,
    (prepare_workflow sampler_graph sampler_rules "a cat" ∅ (mkRng 0 (fun _ => 5))).1
    = Some wf
    /\ 0 <= z < 2 ^ 48.
Proof.
  destruct (prepare_workflow sampler_graph sampler_rules "a cat" ∅
              (mkRng 0 (fun _ => 5))).1 as [wf|] eqn:E;
    [|vm_compute in E; discriminate E].
  assert (get_present (∅ : gmap string value) "seed" = None) as Hs
    by (vm_compute; reflexivity).
  destruct (generated_seed_is_shared _ _ _ _ _ _ Hs E) as (z & Hz & _).
  exists wf, z. split; [reflexivity|exact Hz].
Defined.

End RenderProps.

(* ===================================================================== *)
(** ** The registry and the job objects                                  *)
(* ===================================================================== *)

Module RegistryProps.
Import JobsQueue JobsQueueProps.

(** How one operation can change the registry. *)
Inductive reg_step (s s' : state) : Prop :=
  | reg_same : registry s' = registry s -> reg_step s s'
  | reg_insert job :
      registry s' = <[message_id job := next_ref s]> (registry s) ->
      store s' !! next_ref s = Some job -> reg_step s s'
  | reg_delete m : registry s' = delete m (registry s) -> reg_step s s'
  | reg_clear : registry s' = ∅ -> reg_step s s'.

Lemma exec_reg o s s' : exec o s = Some s' -> reg_step s s'.
Proof.
  destruct o as [|alias job|alias job lim|alias job reserved|u lim|u|alias|mid b
                |alias i|alias i|alias i| |]; simpl; intros He; open_ops;
    split_body;
    first [ by apply reg_same
          | by (eapply reg_insert; [reflexivity|simpl; apply lookup_insert_eq])
          | by eapply reg_delete
          | by apply reg_clear ].
Qed.

(** Every entry of the registry leads to a job object that carries the
    message id it is filed under. *)
Definition registry_ok (s : state) : Prop :=
  forall m r,
    registry s !! m = Some r ->
    exists job, store s !! r = Some job /\ message_id job = m.

Lemma registry_ok_step o s s' :
  store_ok s -> registry_ok s -> exec o s = Some s' -> registry_ok s'.
Proof.
  intros Hok Hreg He m r.
  assert (forall r0 job,
            store s !! r0 = Some job ->
            exists job', store s' !! r0 = Some job' /\ message_id job' = message_id job)
    as Hkeep.
  { intros r0 job Hj. destruct (exec_flags _ _ _ _ _ Hok He Hj) as (job' & Hj' & Hm & _).
    by exists job'. }
  destruct (exec_reg _ _ _ He) as [-> | job -> Hnew | m0 -> | ->].
  - intros (job & Hj & <-)%Hreg. destruct (Hkeep _ _ Hj) as (job' & Hj' & Hm). by exists job'.
  - destruct (decide (message_id job = m)) as [<-|Hne].
    + rewrite lookup_insert_eq. intros [= <-]. by exists job.
    + rewrite lookup_insert_ne by done.
      intros (job0 & Hj & <-)%Hreg. destruct (Hkeep _ _ Hj) as (job' & Hj' & Hm).
      by exists job'.
  - intros [_ H]%lookup_delete_Some. apply Hreg in H as (job & Hj & <-).
    destruct (Hkeep _ _ Hj) as (job' & Hj' & Hm). by exists job'.
  - by rewrite lookup_empty.
Qed.

Lemma reachable_registry_ok mw ptl s : reachable mw ptl s -> registry_ok s.
Proof.
  intros (s0 & os & H0 & Hr). apply init_state in H0 as ->.
  assert (store_ok s /\ registry_ok s) as [_ H]; [|done].
  revert Hr. apply (run_invariant (fun t => store_ok t /\ registry_ok t)).
  - intros o s1 s2 [H1 H2] He. split; [by eapply exec_store_ok|by eapply registry_ok_step].
  - split; intros ? ?; simpl; by rewrite lookup_empty.
Qed.

(** X25: in every state, the job that [get_job] returns for a message id
    carries that message id, and [get_job] returns a job for every id the
    registry holds: the cancel button of a placeholder message always acts
    on the job of that message. *)
Theorem get_job_returns_the_job_of_the_message (mw ptl : Z) (s : state) (mid : Z) :
  reachable mw ptl s ->
  (forall job, get_job mid s = Some job -> message_id job = mid)
  /\ (is_Some (registry s !! mid) -> is_Some (get_job mid s)).
Proof.
  intros Hr. pose proof (reachable_registry_ok _ _ _ Hr) as Hreg. unfold get_job. split.
  - intros job. destruct (registry s !! mid) as [r|] eqn:E; simpl; [|done].
    destruct (Hreg _ _ E) as (job' & Hj & Hm). rewrite Hj. by intros [= <-].
  - intros [r E]. rewrite E. simpl. destruct (Hreg _ _ E) as (job' & Hj & _). eauto.
Qed.

Lemma get_job_returns_the_job_of_the_message_witness :
  is_Some (get_job 100 demo_state).
Proof.
  assert (reachable 2 1 demo_state) as Hr.
  { exists demo_init, demo_ops. split; vm_compute; reflexivity. }
  apply (get_job_returns_the_job_of_the_message 2 1 demo_state 100 Hr).
  vm_compute. eauto.
Defined.

End RegistryProps.

(* ===================================================================== *)
(** ** The address of the event stream                                   *)
(* ===================================================================== *)

(** [ComfyClient._ws_url] of [app/comfy/client.py]. *)
Module WsUrl.
Import Workflow.

(** [str.replace(old, new)] for a non-empty [old]: every occurrence, from
    the left, without overlap.  [skip] counts the characters of a replaced
    occurrence still to pass over. *)
Fixpoint replace_from (old new : string) (skip : nat) (s : string) : string :=
  match s with
  | EmptyString => EmptyString
  | String c r =>
      match skip with
      | S k => replace_from old new k r
      | O =>
          if String.prefix old s
          then new +:+ replace_from old new (String.length old - 1) r
          else String c (replace_from old new 0 r)
      end
  end.

Definition replace (s old new : string) : string := replace_from old new 0 s.

Definition _ws_url (base_http_url : string) : string :=
  if startswith base_http_url "https://"
  then replace base_http_url "https://" "wss://"
  else replace base_http_url "http://" "ws://".

(** [old in s] *)
Fixpoint occurs (old s : string) : bool :=
  String.prefix old s
  || match s with
     | EmptyString => false
     | String _ r => occurs old r
     end.

Lemma replace_absent old new s :
  occurs old s = false -> replace_from old new 0 s = s.
Proof.
  induction s as [|c s IH]; [done|].
  cbn [occurs replace_from]. intros [Hp Ho]%orb_false_iff.
  rewrite Hp. by rewrite IH.
Qed.

Lemma replace_skip old new p : forall rest,
  replace_from old new (String.length p) (p +:+ rest) = replace_from old new 0 rest.
Proof. induction p as [|c p IH]; intros rest; simpl; [done|]. apply IH. Qed.

Lemma prefix_append (p rest : string) : String.prefix p (p +:+ rest) = true.
Proof.
  induction p as [|c p IH]; [by destruct rest|].
  change (String c p +:+ rest) with (String c (p +:+ rest)).
  cbn [String.prefix]. destruct (ascii_dec c c); [exact IH|congruence].
Qed.

Lemma replace_head c old new rest :
  replace_from (String c old) new 0 (String c old +:+ rest)
  = new +:+ replace_from (String c old) new 0 rest.
Proof.
  change (String c old +:+ rest) with (String c (old +:+ rest)).
  cbn [replace_from].
  change (String c (old +:+ rest)) with (String c old +:+ rest).
  rewrite prefix_append. f_equal.
  change (String.length (String c old) - 1)%nat with (S (String.length old) - 1)%nat.
  rewrite Nat.sub_1_r. simpl. apply replace_skip.
Qed.

Lemma occurs_prefix old s : occurs old s = false -> String.prefix old s = false.
Proof. destruct s; cbn [occurs]; by intros [? _]%orb_false_iff. Qed.

(** X26: [_ws_url] turns [https://] into [wss://] and [http://] into
    [ws://] and leaves the rest of the address as it is, when the scheme
    does not occur again further on; an address that holds neither scheme
    is returned unchanged. *)
Theorem ws_url_maps_the_scheme (rest : string) :
  (occurs "https://" rest = false -> _ws_url ("https://" +:+ rest) = "wss://" +:+ rest)
  /\ (occurs "http://" rest = false -> _ws_url ("http://" +:+ rest) = "ws://" +:+ rest)
  /\ (occurs "http://" rest = false -> occurs "https://" rest = false ->
      _ws_url rest = rest).
Proof.
  split; [|split].
  - intros H. unfold _ws_url, startswith, replace.
    rewrite prefix_append, replace_head. by rewrite replace_absent.
  - intros H. unfold _ws_url, startswith, replace.
    assert (String.prefix "https://" ("http://" +:+ rest) = false) as -> by reflexivity.
    rewrite replace_head. by rewrite replace_absent.
  - intros H1 H2. unfold _ws_url, startswith, replace.
    rewrite (occurs_prefix _ _ H2). by apply replace_absent.
Qed.

Lemma ws_url_maps_the_scheme_witness :
  _ws_url "https://comfy.local:8188" = "wss://comfy.local:8188".
Proof.
  destruct (ws_url_maps_the_scheme "comfy.local:8188") as [H _].
  apply H. vm_compute. reflexivity.
Defined.

End WsUrl.
